(** * deckjs: a 52-card deck (src/mod.ts)

    A shallow embedding of the [Deck] class and of the properties its
    specification states.  The development has three layers:

    - values: the typed records [Suit.t] and [Card.t], the catalogs, the deck
      as a list of cards threaded through the instance methods;
    - dynamic objects: [Value], for the functions that inspect the shape of
      what they are given ([validate], the text getters) and for the object
      literals [parse] builds;
    - store: [Store], a heap of objects and arrays with references, for the
      properties that depend on which object is which (fresh catalog copies,
      sorting an array in place). *)

From Stdlib Require Import ZArith List String Ascii Lia Permutation Sorted Bool.
From Stdlib Require Import DecimalString DecimalN.
From Stdlib Require Import QArith Qround Lqa.
From stdpp Require Import base list strings gmap.
Import ListNotations.
Open Scope Z_scope.

Set Warnings "-clear-no-such-hyp".

(** ** Data model *)

(** [type Suit = { value; color; utf }].  The glyph of [utf] is kept as the
    bytes of its UTF-8 encoding; no function of the class inspects it. *)
Module Suit.
Record t := mk { value : string; color : string; utf : string }.
End Suit.

(** [type Card = { id; value; rank; suit }].  The two [number] fields hold
    integers. *)
Module Card.
Record t := mk { id : Z; value : string; rank : Z; suit : Suit.t }.
End Card.

(** The two private fields of an instance: [deck] and [id]. *)
Module Deck.
Record t := mk { deck : list Card.t; id : Z }.
End Deck.

(** ** Catalogs (the static getters, as values) *)

Definition CARDS : list string :=
  ["2"; "3"; "4"; "5"; "6"; "7"; "8"; "9"; "10"; "J"; "Q"; "K"; "A"]%string.

Definition CARDS_TEXT : list (string * string) :=
  [("2", "Two"); ("3", "Three"); ("4", "Four"); ("5", "Five"); ("6", "Six");
   ("7", "Seven"); ("8", "Eight"); ("9", "Nine"); ("10", "Ten");
   ("J", "Jack"); ("Q", "Queen"); ("K", "King"); ("A", "Ace")]%string.

Definition SUITS : list Suit.t :=
  [ Suit.mk "S" "black" "♠"; Suit.mk "H" "red" "♥";
    Suit.mk "D" "red" "♦"; Suit.mk "C" "black" "♣" ]%string.

Definition SUITS_COLOR : list string := ["black"; "red"; "red"; "black"]%string.

Definition SUITS_UTF : list string := ["♠"; "♥"; "♦"; "♣"]%string.

Definition SUITS_TEXT : list (string * string) :=
  [("S", "Spades"); ("H", "Hearts"); ("D", "Diamonds"); ("C", "Clubs")]%string.

Definition BLANK_CARD_UTF : string := "★"%string.

(** ** Construction *)

(** [arr.push(x)] *)
Definition push {A} (arr : list A) (x : A) : list A := arr ++ [x].

(** [{ ...s }]: a new record with the fields of [s]. *)
Definition spread (s : Suit.t) : Suit.t :=
  Suit.mk (Suit.value s) (Suit.color s) (Suit.utf s).

(** The body of the inner loop at indices [j], [i]: one [push], one [id++].
    Both loops stop at the catalog lengths, so the indices are in range. *)
Definition fill_card (j i : nat) (this : Deck.t) : Deck.t :=
  match SUITS !! j, CARDS !! i with
  | Some s, Some v =>
      Deck.mk
        (push (Deck.deck this)
           (Card.mk (Deck.id this) v (Z.of_nat i + 1) (spread s)))
        (Deck.id this + 1)
  | _, _ => this
  end.

(** [for (let k = 0; k < n; k++) body(k)] on a state. *)
Definition for_upto {S} (n : nat) (body : nat -> S -> S) (s : S) : S :=
  fold_left (fun st k => body k st) (seq 0 n) s.

Definition fill (this : Deck.t) : Deck.t :=
  for_upto (length SUITS)
    (fun j => for_upto (length CARDS) (fun i => fill_card j i)) this.

Section Construction.

(** [lodash.shuffle] is imported, not part of the repository.  It returns a
    new array with the elements of its argument rearranged at random; the
    random choice is the parameter [draw]: for an array of [n] elements,
    [draw n] lists the positions 0..n-1 in the order in which the elements
    are taken. *)
Variable draw : nat -> list nat.

Definition shuffle {A} (arr : list A) : list A :=
  omap (fun i => arr !! i) (draw (length arr)).

Definition constructor (preShuffle : bool) : Deck.t :=
  let this := fill (Deck.mk [] 0) in
  if preShuffle then Deck.mk (shuffle (Deck.deck this)) (Deck.id this)
  else this.

End Construction.

(** ** Sorting *)

(** [Array.prototype.sort(comparefn)].  The language fixes the result but
    not the algorithm: the sort is stable, and [comparefn a b > 0] puts [a]
    after [b].  For a consistent comparator there is exactly one such
    arrangement (see [stable_sorted_unique]); it is computed here by
    insertion, each element going in front of the first one it does not
    have to follow. *)
Fixpoint insert_sorted {A} (comparefn : A -> A -> Z) (x : A) (l : list A)
  : list A :=
  match l with
  | [] => [x]
  | y :: l' =>
      if 0 <? comparefn x y then y :: insert_sorted comparefn x l'
      else x :: y :: l'
  end.

Definition Array_sort {A} (comparefn : A -> A -> Z) (arr : list A) : list A :=
  foldr (insert_sorted comparefn) [] arr.

(** [sort(cards)]: the comparator is [(a, b) => b.rank - a.rank]. *)
Definition sort (cards : list Card.t) : list Card.t :=
  Array_sort (fun a b => Card.rank b - Card.rank a) cards.

(** ** Drawing *)

(** [arr.shift()]: the first element, [undefined] ([None]) on an empty
    array, and the array without it. *)
Definition shift {A} (arr : list A) : option A * list A :=
  match arr with
  | [] => (None, [])
  | x :: arr' => (Some x, arr')
  end.

(** The loop of [getCards], [n] iterations to go.  What [shift] returns is
    pushed as it is (the source casts it to [Card]). *)
Fixpoint getCards_loop (n : nat) (deck : list Card.t)
    (removedCards : list (option Card.t))
  : list (option Card.t) * list Card.t :=
  match n with
  | O => (removedCards, deck)
  | S n' =>
      let '(card, deck') := shift deck in
      getCards_loop n' deck' (push removedCards card)
  end.

(** [getCards(amount)] for an integer [amount]: the returned array and the
    instance afterwards. *)
Definition getCards (amount : Z) (this : Deck.t)
  : list (option Card.t) * Deck.t :=
  if (1 <=? amount) && (amount <? Z.of_nat (length (Deck.deck this)) - amount)
  then
    let '(removedCards, deck') :=
      getCards_loop (Z.to_nat amount) (Deck.deck this) [] in
    (removedCards, Deck.mk deck' (Deck.id this))
  else ([], this).

(** ** Life of an instance *)

Section Lifecycle.

Variable draw : nat -> list nat.

(** The states of an instance: as constructed, then after any number of
    calls of [getCards] (the one method that updates a field). *)
Inductive reachable : Deck.t -> Prop :=
| reachable_new (preShuffle : bool) :
    reachable (constructor draw preShuffle)
| reachable_getCards (amount : Z) (this : Deck.t) :
    reachable this -> reachable (snd (getCards amount this)).

End Lifecycle.

(** ** Strings and numbers *)

(** A string is a sequence of code units; the characters of [string] stand
    for the code units 0..255. *)

(** [s.split(sep)] for a separator of one code unit. *)
Fixpoint split (sep : ascii) (s : string) : list string :=
  match s with
  | EmptyString => [EmptyString]
  | String c s' =>
      if Ascii.eqb c sep then EmptyString :: split sep s'
      else match split sep s' with
           | [] => [String c EmptyString]
           | p :: ps => String c p :: ps
           end
  end.

(** [s[k]]: a string of one code unit, or [undefined]. *)
Definition char_at (s : string) (k : nat) : option string :=
  match String.get k s with
  | Some c => Some (String c EmptyString)
  | None => None
  end.

(** A [number] holding an integer is represented by that integer; [NaN] is
    the one other number the functions below produce. *)
Inductive number := NaN | Int (z : Z).

(** The decimal digits of a natural number. *)
Definition digits (n : N) : string := NilEmpty.string_of_uint (N.to_uint n).

Fixpoint strip_trailing_zeros (s : string) : string :=
  match s with
  | EmptyString => EmptyString
  | String c s' =>
      match strip_trailing_zeros s' with
      | EmptyString => if Ascii.eqb c "0" then EmptyString
                       else String c EmptyString
      | r => String c r
      end
  end.

(** Exponent notation, [d.ddde+x], of a natural number. *)
Definition exponential (n : N) : string :=
  match digits n with
  | EmptyString => EmptyString
  | String d rest =>
      let frac := strip_trailing_zeros rest in
      String d (match frac with
                | EmptyString => EmptyString
                | _ => "." +:+ frac
                end)
      +:+ "e+" +:+ digits (N.of_nat (String.length rest))
  end.

(** [Number::toString] on an integer: decimal digits below 10^21, exponent
    notation from there on.  The digits are those of the integer itself,
    which is what is printed for every integer up to 2^53 and for the powers
    of ten; for the larger integers a [number] can hold, the digits printed
    are the shortest that read back as the same number, and the notation
    changes at the same point. *)
Definition Number_toString (x : number) : string :=
  match x with
  | NaN => "NaN"
  | Int z =>
      let n := Z.to_N (Z.abs z) in
      (if z <? 0 then "-" else "")
      +:+ (if (n <? 10 ^ 21)%N then digits n else exponential n)
  end.

(** White space that [parseInt] skips (among the code units 0..255). *)
Definition is_whitespace (c : ascii) : bool :=
  let n := N_of_ascii c in
  ((9 <=? n) && (n <=? 13) || (n =? 32) || (n =? 160))%N.

Fixpoint trim_start (s : string) : string :=
  match s with
  | EmptyString => EmptyString
  | String c s' => if is_whitespace c then trim_start s' else s
  end.

(** The value of a digit in a radix up to 36. *)
Definition digit_value (radix : N) (c : ascii) : option N :=
  let n := N_of_ascii c in
  let v :=
    if ((48 <=? n) && (n <=? 57))%N then Some (n - 48)%N
    else if ((97 <=? n) && (n <=? 122))%N then Some (n - 87)%N
    else if ((65 <=? n) && (n <=? 90))%N then Some (n - 55)%N
    else None in
  match v with
  | Some d => if (d <? radix)%N then Some d else None
  | None => None
  end.

(** The longest prefix of digits, as a number; [acc] is [None] until a digit
    has been read. *)
Fixpoint parse_digits (radix : N) (s : string) (acc : option N) : option N :=
  match s with
  | EmptyString => acc
  | String c s' =>
      match digit_value radix c with
      | Some d =>
          parse_digits radix s' (Some (default 0%N acc * radix + d)%N)
      | None => acc
      end
  end.

(** [parseInt(s)] with no radix argument. *)
Definition parseInt (s : string) : number :=
  let s := trim_start s in
  let '(sign, s) :=
    match s with
    | String "-" r => (-1, r)
    | String "+" r => (1, r)
    | _ => (1, s)
    end in
  let '(radix, s) :=
    match s with
    | String "0" (String x r) =>
        if Ascii.eqb x "x" || Ascii.eqb x "X" then (16%N, r) else (10%N, s)
    | _ => (10%N, s)
    end in
  match parse_digits radix s None with
  | None => NaN
  | Some n => Int (sign * Z.of_N n)
  end.

(** ** Dynamic objects *)

(** The values the shape-inspecting functions can be handed: primitives and
    plain objects (own data properties with string keys, in insertion order,
    prototype [Object.prototype]). *)
#[warnings="-register-all"] Inductive Value :=
| Undefined
| Null
| Num (n : number)
| Str (s : string)
| Obj (props : list (string * Value)).

(** A call returns or throws. *)
Inductive Error := TypeError.

Inductive Completion (A : Type) :=
| Normal (a : A)
| Throw (e : Error).
Arguments Normal {A} a.
Arguments Throw {A} e.

#[global] Instance Completion_bind : MBind Completion :=
  fun A B (k : A -> Completion B) (m : Completion A) =>
    match m with
    | Normal a => k a
    | Throw e => Throw e
    end.

(** [arr.map(f)] for a callback that may throw. *)
Fixpoint map_throwing {A B} (f : A -> Completion B) (arr : list A)
  : Completion (list B) :=
  match arr with
  | [] => Normal []
  | x :: arr' =>
      y ← f x; ys ← map_throwing f arr'; Normal (y :: ys)
  end.

(** The first binding of a key in a property list. *)
Fixpoint assoc {V} (k : string) (props : list (string * V)) : option V :=
  match props with
  | [] => None
  | (k', v) :: props' => if String.eqb k' k then Some v else assoc k props'
  end.

Definition of_option (o : option string) : Value :=
  match o with
  | Some s => Str s
  | None => Undefined
  end.

(** The objects a typed record is at run time, keys in the order of the
    literals that build them. *)
Definition Suit_object (s : Suit.t) : Value :=
  Obj [("value", Str (Suit.value s)); ("color", Str (Suit.color s));
       ("utf", Str (Suit.utf s))]%string.

Definition Card_object (c : Card.t) : Value :=
  Obj [("id", Num (Int (Card.id c))); ("value", Str (Card.value c));
       ("rank", Num (Int (Card.rank c))); ("suit", Suit_object (Card.suit c))]%string.

(** ** Serialization *)

(** The token of one card: [`${card.id}#${card.value}${card.suit.value}`]. *)
Definition stringify_card (card : Card.t) : string :=
  Number_toString (Int (Card.id card)) +:+ "#" +:+ Card.value card
  +:+ Suit.value (Card.suit card).

Definition stringify (cards : list Card.t) : list string :=
  map stringify_card cards.

(** [arr.indexOf(x)], [x] possibly [undefined]. *)
Fixpoint indexOf (arr : list string) (x : option string) : Z :=
  match arr with
  | [] => -1
  | y :: arr' =>
      if bool_decide (Some y = x) then 0
      else let k := indexOf arr' x in if k <? 0 then -1 else k + 1
  end.

(** A card's [rank] is the position of its [value] in [CARDS], plus one. *)
Definition rank_consistent (card : Card.t) : Prop :=
  Card.rank card = indexOf CARDS (Some (Card.value card)) + 1.

#[global] Instance rank_consistent_dec card : Decision (rank_consistent card).
Proof. unfold rank_consistent. apply _. Defined.

(** A valid card: a non-negative id, a catalog label with the rank that goes
    with it, a catalog suit. *)
Definition valid_card (card : Card.t) : Prop :=
  0 <= Card.id card
  /\ In (Card.value card) CARDS
  /\ rank_consistent card
  /\ In (Card.suit card) SUITS.

(** [Deck.SUITS.find((suit) => suit.value === suitValue)] *)
Definition find_suit (suitValue : option string) : option Suit.t :=
  List.find (fun suit => bool_decide (Some (Suit.value suit) = suitValue)) SUITS.

(** The callback of [parse] on one token.  [card] is [undefined] when the
    token has no [#]; reading its [length] then throws. *)
Definition parse_card (c : string) : Completion Value :=
  let parts := split "#" c in
  let id := parts !! 0%nat in
  let card := parts !! 1%nat in
  match card with
  | None => Throw TypeError
  | Some card =>
      let value :=
        if (String.length card =? 3)%nat then Some "10"%string
        else char_at card 0 in
      let rank := indexOf CARDS value + 1 in
      let suitValue :=
        if (String.length card =? 3)%nat then char_at card 2
        else char_at card 1 in
      let suit := find_suit suitValue in
      Normal
        (Obj [("id", Num (parseInt (default "undefined" id)));
              ("value", of_option value);
              ("rank", Num (Int rank));
              ("suit", from_option Suit_object Undefined suit)]%string)
  end.

Definition parse (cards : list string) : Completion (list Value) :=
  map_throwing parse_card cards.

(** ** Validation and description *)

(** [Object.keys(v)] *)
Definition Object_keys (v : Value) : Completion (list string) :=
  match v with
  | Undefined | Null => Throw TypeError
  | Num _ => Normal []
  | Str s =>
      Normal (map (fun k => digits (N.of_nat k)) (seq 0 (String.length s)))
  | Obj props => Normal (map fst props)
  end.

(** [arr.includes(k)] *)
Definition includes (arr : list string) (k : string) : bool :=
  existsb (String.eqb k) arr.

Definition validate (playingCard : Value) : Completion bool :=
  cardProps ← Object_keys playingCard;
  if includes cardProps "id" && includes cardProps "value"
     && includes cardProps "rank" && includes cardProps "suit"
  then Normal true
  else Normal false.

(** [v.k] for one of the names [id], [value], [rank], [suit], [color], [utf]
    (none of which a primitive or [Object.prototype] has). *)
Definition get (v : Value) (k : string) : Completion Value :=
  match v with
  | Undefined | Null => Throw TypeError
  | Num _ | Str _ => Normal Undefined
  | Obj props => Normal (default Undefined (assoc k props))
  end.

(** [ToString]: what a template literal or a computed key makes of a value.
    A plain object goes through [Object.prototype.toString] unless an own
    [toString] property, which is no function here, hides it. *)
Definition ToString (v : Value) : Completion string :=
  match v with
  | Undefined => Normal "undefined"%string
  | Null => Normal "null"%string
  | Num n => Normal (Number_toString n)
  | Str s => Normal s
  | Obj props =>
      match assoc "toString" props with
      | Some _ => Throw TypeError
      | None => Normal "[object Object]"%string
      end
  end.

(** [table[v]] on one of the two text tables.  A key that is no own property
    reads as [undefined]; keys naming a member of [Object.prototype] are
    left out of the model. *)
Definition table_lookup (table : list (string * string)) (v : Value)
  : Completion Value :=
  k ← ToString v; Normal (of_option (assoc k table)).

Definition getCardText (playingCard : Value) : Completion Value :=
  valid ← validate playingCard;
  if negb valid then Normal (Str "")
  else
    value ← get playingCard "value";
    table_lookup CARDS_TEXT value.

Definition getSuitText (playingCard : Value) : Completion Value :=
  valid ← validate playingCard;
  if negb valid then Normal (Str "")
  else
    suit ← get playingCard "suit";
    suitValue ← get suit "value";
    table_lookup SUITS_TEXT suitValue.

Definition getCardDescription (playingCard : Value) : Completion Value :=
  valid ← validate playingCard;
  if negb valid then Normal (Str "")
  else
    cardText ← getCardText playingCard;
    suitText ← getSuitText playingCard;
    a ← ToString cardText;
    b ← ToString suitText;
    Normal (Str (a +:+ " of " +:+ b)).

(** ** The store: objects, arrays and references *)

(** The layer above gives every use of a card or of an array its own value.
    Here objects and arrays live in a heap and are passed by reference, so
    that it can be said which object a getter returns, which one a card
    holds, and which array a method writes to. *)
Module Store.

Abbreviation loc := positive.

(** What a property or an array slot holds. *)
Inductive val :=
| VUndefined
| VNum (z : Z)
| VStr (s : string)
| VRef (l : loc).

Inductive cell :=
| CObj (props : list (string * val))
| CArr (elems : list val).

(** The heap, and the set of the objects that the catalog getters have
    built (a record of where objects come from; no operation reads it). *)
Record store := mk { heap : gmap loc cell; catalog : gset loc }.

(** A computation on the store.  [None] is a step no run of the typed
    program takes: following a reference to nothing, or using an object as
    an array. *)
Definition M (A : Type) : Type := store -> option (A * store).

#[global] Instance M_ret : MRet M := fun A (a : A) (st : store) => Some (a, st).

#[global] Instance M_bind : MBind M :=
  fun A B (k : A -> M B) (m : M A) (st : store) =>
    match m st with
    | Some (a, st') => k a st'
    | None => None
    end.

Definition stuck {A} : M A := fun _ => None.

(** A new object or array, at a location not in use. *)
Definition alloc (c : cell) : M val :=
  fun st =>
    let l := fresh (dom (heap st)) in
    Some (VRef l, mk (<[l := c]> (heap st)) (catalog st)).

Definition load (v : val) : M cell :=
  fun st =>
    match v with
    | VRef l =>
        match heap st !! l with
        | Some c => Some (c, st)
        | None => None
        end
    | _ => None
    end.

Definition write (v : val) (c : cell) : M unit :=
  fun st =>
    match v with
    | VRef l =>
        match heap st !! l with
        | Some _ => Some (tt, mk (<[l := c]> (heap st)) (catalog st))
        | None => None
        end
    | _ => None
    end.

(** Records that [v] was built by a catalog getter. *)
Definition from_catalog (v : val) : M unit :=
  fun st =>
    match v with
    | VRef l => Some (tt, mk (heap st) ({[l]} ∪ catalog st))
    | _ => Some (tt, st)
    end.

Fixpoint map_M {A B} (f : A -> M B) (l : list A) : M (list B) :=
  match l with
  | [] => mret []
  | x :: l' => y ← f x; ys ← map_M f l'; mret (y :: ys)
  end.

(** [o.k] *)
Definition get_prop (o : val) (k : string) : M val :=
  c ← load o;
  match c with
  | CObj props => mret (default VUndefined (assoc k props))
  | CArr _ => stuck
  end.

Fixpoint update_prop (k : string) (v : val) (props : list (string * val))
  : list (string * val) :=
  match props with
  | [] => [(k, v)]
  | (k', v') :: props' =>
      if String.eqb k' k then (k', v) :: props'
      else (k', v') :: update_prop k v props'
  end.

(** [o.k = v] *)
Definition set_prop (o : val) (k : string) (v : val) : M unit :=
  c ← load o;
  match c with
  | CObj props => write o (CObj (update_prop k v props))
  | CArr _ => stuck
  end.

(** The elements of an array. *)
Definition elements_of (a : val) : M (list val) :=
  c ← load a;
  match c with
  | CArr elems => mret elems
  | CObj _ => stuck
  end.

(** [a[i]] *)
Definition index (a : val) (i : nat) : M val :=
  elems ← elements_of a; mret (default VUndefined (elems !! i)).

(** [a.push(v)] *)
Definition push (a : val) (v : val) : M unit :=
  elems ← elements_of a; write a (CArr (elems ++ [v])).

(** [a.shift()] *)
Definition shift (a : val) : M val :=
  elems ← elements_of a;
  match elems with
  | [] => mret VUndefined
  | v :: elems' => _ ← write a (CArr elems'); mret v
  end.

(** [{ ...o }]: a new object with the properties of [o]. *)
Definition spread (o : val) : M val :=
  c ← load o;
  match c with
  | CObj props => alloc (CObj props)
  | CArr _ => stuck
  end.

(** *** The catalog getters: each call builds its literal anew *)

Definition string_array (l : list string) : cell := CArr (map VStr l).

Definition string_table (t : list (string * string)) : cell :=
  CObj (map (fun kv => (fst kv, VStr (snd kv))) t).

Definition suit_props (s : Suit.t) : list (string * val) :=
  [("value", VStr (Suit.value s)); ("color", VStr (Suit.color s));
   ("utf", VStr (Suit.utf s))]%string.

Definition literal (c : cell) : M val :=
  v ← alloc c; _ ← from_catalog v; mret v.

Definition get_CARDS : M val := literal (string_array CARDS).

Definition get_CARDS_TEXT : M val := literal (string_table CARDS_TEXT).

Definition get_SUITS : M val :=
  suits ← map_M (fun s => literal (CObj (suit_props s))) SUITS;
  literal (CArr suits).

Definition get_SUITS_COLOR : M val := literal (string_array SUITS_COLOR).

Definition get_SUITS_UTF : M val := literal (string_array SUITS_UTF).

Definition get_SUITS_TEXT : M val := literal (string_table SUITS_TEXT).

(** *** The instance *)

(** [for (let k = k0; k < bound; k++) body(k)], the bound evaluated before
    every round; [fuel] rounds at most. *)
Fixpoint for_loop (fuel : nat) (bound : M nat) (body : nat -> M unit)
    (k : nat) : M unit :=
  match fuel with
  | O => stuck
  | S fuel' =>
      n ← bound;
      if (k <? n)%nat then _ ← body k; for_loop fuel' bound body (S k)
      else mret tt
  end.

(** [g.length] for a getter [g]. *)
Definition length_of (g : M val) : M nat :=
  a ← g; elems ← elements_of a; mret (length elems).

(** The argument of [push] in the constructor: the card literal. *)
Definition new_card (this : val) (j i : nat) : M val :=
  id ← get_prop this "id";
  _ ← set_prop this "id"
        (match id with VNum z => VNum (z + 1) | _ => VUndefined end);
  cards ← get_CARDS;
  value ← index cards i;
  suits ← get_SUITS;
  suit ← index suits j;
  copy ← spread suit;
  alloc (CObj [("id", id); ("value", value); ("rank", VNum (Z.of_nat i + 1));
               ("suit", copy)]%string).

Section Instance.

Variable draw : nat -> list nat.

(** [new Deck(preShuffle)]: the field initializers, the two loops, the
    shuffle into a new array. *)
Definition constructor (preShuffle : bool) : M val :=
  deck ← alloc (CArr []);
  this ← alloc (CObj [("deck", deck); ("id", VNum 0)]%string);
  _ ← for_loop 5 (length_of get_SUITS)
        (fun j =>
           for_loop 14 (length_of get_CARDS)
             (fun i =>
                deck ← get_prop this "deck";
                card ← new_card this j i;
                push deck card) 0%nat) 0%nat;
  _ ← (if preShuffle then
         deck ← get_prop this "deck";
         elems ← elements_of deck;
         shuffled ← alloc (CArr (shuffle draw elems));
         set_prop this "deck" shuffled
       else mret tt);
  mret this.

End Instance.

(** [b.rank], a number. *)
Definition rank_of (card : val) : M Z :=
  r ← get_prop card "rank";
  match r with
  | VNum z => mret z
  | _ => stuck
  end.

(** [this.sort(cards)].  The comparator reads the two ranks and changes
    nothing, so the ranks are read once, ahead of the sort. *)
Definition sort (this : val) (cards : val) : M val :=
  elems ← elements_of cards;
  keyed ← map_M (fun card => r ← rank_of card; mret (r, card)) elems;
  _ ← write cards
        (CArr (map snd (Array_sort (fun a b => fst b - fst a) keyed)));
  mret cards.

Fixpoint repeat_M (n : nat) (body : M unit) : M unit :=
  match n with
  | O => mret tt
  | S n' => _ ← body; repeat_M n' body
  end.

(** [this.getCards(amount)] *)
Definition getCards (this : val) (amount : Z) : M val :=
  deck ← get_prop this "deck";
  elems ← elements_of deck;
  if (1 <=? amount) && (amount <? Z.of_nat (length elems) - amount)
  then
    removedCards ← alloc (CArr []);
    _ ← repeat_M (Z.to_nat amount)
          (deck ← get_prop this "deck";
           card ← shift deck;
           push removedCards card);
    mret removedCards
  else alloc (CArr []).

(** *** Reading typed values off the heap *)

Definition read_string (v : val) : option string :=
  match v with
  | VStr s => Some s
  | _ => None
  end.

Definition read_strings (h : gmap loc cell) (a : val) : option (list string) :=
  match a with
  | VRef l =>
      match h !! l with
      | Some (CArr elems) => mapM read_string elems
      | _ => None
      end
  | _ => None
  end.

Definition read_table (h : gmap loc cell) (o : val)
  : option (list (string * string)) :=
  match o with
  | VRef l =>
      match h !! l with
      | Some (CObj props) =>
          mapM (fun kv => s ← read_string (snd kv); Some (fst kv, s)) props
      | _ => None
      end
  | _ => None
  end.

Definition read_suit (h : gmap loc cell) (o : val) : option Suit.t :=
  match o with
  | VRef l =>
      match h !! l with
      | Some (CObj props) =>
          match assoc "value" props, assoc "color" props, assoc "utf" props with
          | Some (VStr value), Some (VStr color), Some (VStr utf) =>
              Some (Suit.mk value color utf)
          | _, _, _ => None
          end
      | _ => None
      end
  | _ => None
  end.

Definition read_card (h : gmap loc cell) (o : val) : option Card.t :=
  match o with
  | VRef l =>
      match h !! l with
      | Some (CObj props) =>
          match assoc "id" props, assoc "value" props, assoc "rank" props,
                assoc "suit" props with
          | Some (VNum id), Some (VStr value), Some (VNum rank), Some suit =>
              s ← read_suit h suit; Some (Card.mk id value rank s)
          | _, _, _, _ => None
          end
      | _ => None
      end
  | _ => None
  end.

Definition read_array {A} (read : val -> option A) (h : gmap loc cell)
    (a : val) : option (list A) :=
  match a with
  | VRef l =>
      match h !! l with
      | Some (CArr elems) => mapM read elems
      | _ => None
      end
  | _ => None
  end.

(** The instance at [this], as the value layer sees it. *)
Definition read_deck (h : gmap loc cell) (this : val) : option Deck.t :=
  match this with
  | VRef l =>
      match h !! l with
      | Some (CObj props) =>
          match assoc "deck" props, assoc "id" props with
          | Some deck, Some (VNum id) =>
              cards ← read_array (read_card h) h deck; Some (Deck.mk cards id)
          | _, _ => None
          end
      | _ => None
      end
  | _ => None
  end.

(** The suit objects of the cards of the instance at [this]. *)
Definition suit_refs (h : gmap loc cell) (this : val) : option (list val) :=
  match this with
  | VRef l =>
      match h !! l with
      | Some (CObj props) =>
          match assoc "deck" props with
          | Some (VRef d) =>
              match h !! d with
              | Some (CArr elems) =>
                  mapM (fun card =>
                          match card with
                          | VRef lc =>
                              match h !! lc with
                              | Some (CObj cprops) => assoc "suit" cprops
                              | _ => None
                              end
                          | _ => None
                          end) elems
              | _ => None
              end
          | _ => None
          end
      | _ => None
      end
  | _ => None
  end.

(** *** Invariants *)

(** Every object of the catalog is in the heap. *)
Definition wf (st : store) : Prop := catalog st ⊆ dom (heap st).

(** From [st] to [st'] nothing that was in the heap has changed, the
    catalog has grown, and what has been added to it is new. *)
Definition catalog_step (st st' : store) : Prop :=
  heap st ⊆ heap st'
  /\ catalog st ⊆ catalog st'
  /\ (wf st -> wf st')
  /\ forall l, l ∈ catalog st' -> (l ∈ catalog st) \/ (l ∉ dom (heap st)).

(** A card under construction: where it is, where its suit object is, and
    the card it is. *)
Record item := Item { card_loc : loc; suit_loc : loc; card_of : Card.t }.

Definition card_cell (c : Card.t) (suit : loc) : cell :=
  CObj [("id", VNum (Card.id c)); ("value", VStr (Card.value c));
        ("rank", VNum (Card.rank c)); ("suit", VRef suit)]%string.

(** The objects an instance is made of. *)
Definition own (this deck : loc) (items : list item) : list loc :=
  this :: deck :: flat_map (fun it => [card_loc it; suit_loc it]) items.

(** The instance at [this] while the constructor, started in [st0], fills
    it: its array at [deck] holds the cards of [items], the next id is [n],
    and its objects are pairwise distinct, new, and no catalog objects. *)
Record building (st0 : store) (this deck : loc) (items : list item) (n : Z)
    (st : store) : Prop := Building {
  building_old : heap st0 ⊆ heap st;
  building_wf : wf st;
  building_this :
    heap st !! this = Some (CObj [("deck", VRef deck); ("id", VNum n)]%string);
  building_deck :
    heap st !! deck = Some (CArr (map (fun it => VRef (card_loc it)) items));
  building_items :
    Forall (fun it =>
              heap st !! card_loc it = Some (card_cell (card_of it) (suit_loc it))
              /\ heap st !! suit_loc it
                 = Some (CObj (suit_props (Card.suit (card_of it))))) items;
  building_NoDup : NoDup (own this deck items);
  building_own :
    Forall (fun l => (l ∉ dom (heap st0)) /\ (l ∉ catalog st))
      (own this deck items)
}.

(** Every call of the getter [g] returns a new object that reads as [x],
    leaves the objects there were as they are, and depends on none of them:
    the result reads as [x] however they are changed. *)
Definition fresh_copy {A} (g : M val)
    (read : gmap loc cell -> val -> option A) (x : A) : Prop :=
  forall st,
    exists a st',
      g st = Some (VRef a, st')
      /\ (a ∉ dom (heap st))
      /\ heap st ⊆ heap st'
      /\ forall h,
           (forall l, l ∉ dom (heap st) -> h !! l = heap st' !! l) ->
           read h (VRef a) = Some x.

(** The instance being filled stands for the value [d]. *)
Definition filling (st0 : store) (this deck : loc) (d : Deck.t) (st : store)
  : Prop :=
  exists items n,
    building st0 this deck items n st
    /\ Deck.mk (map card_of items) n = d.

End Store.

(** ** Notions for the further properties *)

(** How many times the code unit [c] occurs in [s]. *)
Fixpoint occurrences (c : ascii) (s : string) : nat :=
  match s with
  | EmptyString => O
  | String c' s' =>
      if Ascii.eqb c' c then S (occurrences c s') else occurrences c s'
  end.

(** ** Amounts that are no integers *)

(** [getCards] takes a [number].  A finite number is a rational number (the
    model admits every rational, of which the numbers of the language are
    some); the others are [Infinity], [-Infinity] and [NaN]. *)
Inductive double :=
| Finite (q : Q)
| PlusInfinity
| MinusInfinity
| NotANumber.

(** [x < y] *)
Definition double_lt (x y : double) : bool :=
  match x, y with
  | NotANumber, _ | _, NotANumber => false
  | Finite p, Finite q => negb (Qle_bool q p)
  | _, MinusInfinity => false
  | PlusInfinity, _ => false
  | MinusInfinity, _ => true
  | Finite _, PlusInfinity => true
  end.

(** [x >= y] *)
Definition double_ge (x y : double) : bool :=
  match x, y with
  | NotANumber, _ | _, NotANumber => false
  | Finite p, Finite q => Qle_bool q p
  | PlusInfinity, _ => true
  | _, MinusInfinity => true
  | MinusInfinity, _ => false
  | Finite _, PlusInfinity => false
  end.

(** [n - x] for the length [n] of an array.  For a finite [x] this is the
    exact difference, where the language rounds it to the nearest number.
    The one use made of it is the test [x < n - x] for an [x] that is 1 or
    more, and there the rounding changes nothing: from [n/2] to [2n] the
    difference of the two numbers is a number, below [n/2] the rounded
    difference is [n/2] or more, which is more than [x], and above [2n] it
    is negative. *)
Definition length_minus (n : nat) (x : double) : double :=
  match x with
  | Finite q => Finite (inject_Z (Z.of_nat n) - q)
  | PlusInfinity => MinusInfinity
  | MinusInfinity => PlusInfinity
  | NotANumber => NotANumber
  end.

(** The loop [for (let i = 0; i < amount; i++)] of [getCards], from the
    test of round [i] on.  [fuel] bounds the number of tests; [None] when
    it runs out. *)
Fixpoint getCards_for (fuel : nat) (amount : double) (i : Z)
    (deck : list Card.t) (removedCards : list (option Card.t))
  : option (list (option Card.t) * list Card.t) :=
  match fuel with
  | O => None
  | S fuel' =>
      if double_lt (Finite (inject_Z i)) amount then
        let '(card, deck') := shift deck in
        getCards_for fuel' amount (i + 1) deck' (push removedCards card)
      else Some (removedCards, deck)
  end.

(** [getCards(amount)] for any number [amount].  The loop is given one test
    more than the deck has cards; under the guard it ends before that. *)
Definition getCards_number (amount : double) (this : Deck.t)
  : option (list (option Card.t) * Deck.t) :=
  if double_ge amount (Finite 1)
     && double_lt amount (length_minus (length (Deck.deck this)) amount)
  then
    match getCards_for (S (length (Deck.deck this))) amount 0
            (Deck.deck this) [] with
    | Some (removedCards, deck') =>
        Some (removedCards, Deck.mk deck' (Deck.id this))
    | None => None
    end
  else Some ([], this).

Section LifecycleOfNumbers.

Variable draw : nat -> list nat.

(** The states of an instance, the amounts of the calls of [getCards] being
    any numbers. *)
Inductive reachable_number : Deck.t -> Prop :=
| reachable_number_new (preShuffle : bool) :
    reachable_number (constructor draw preShuffle)
| reachable_number_getCards (amount : double) (this this' : Deck.t)
    (removedCards : list (option Card.t)) :
    reachable_number this ->
    getCards_number amount this = Some (removedCards, this') ->
    reachable_number this'.

End LifecycleOfNumbers.

(** ** Tactics *)

(** Membership in a catalog, by search. *)
Ltac in_catalog := cbn; repeat first [left; reflexivity | right].

(** Evaluates the value of the digit in the goal. *)
Ltac eval_digit :=
  match goal with
  | |- context [digit_value 10 ?c] =>
      let v := eval vm_compute in (digit_value 10 c) in
      change (digit_value 10 c) with v; cbv iota beta
  end.

(** Runs the first step of a computation, by the equation [H] for it. *)
Ltac run H :=
  let E := fresh "E" in
  pose proof H as E;
  cbv beta iota delta [mbind Store.M_bind mret Store.M_ret] in E |- *;
  rewrite E; clear E; cbv beta iota; cbn [Store.heap Store.catalog].

(** * Properties *)

(** ** Construction *)

Lemma fill_id : Deck.id (fill (Deck.mk [] 0)) = 52.
Proof. reflexivity. Qed.

Lemma fill_length : length (Deck.deck (fill (Deck.mk [] 0))) = 52%nat.
Proof. reflexivity. Qed.

Lemma fill_ids :
  map Card.id (Deck.deck (fill (Deck.mk [] 0))) = map Z.of_nat (seq 0 52).
Proof. reflexivity. Qed.

Lemma fill_keys :
  map (fun c => (Card.value c, Suit.value (Card.suit c)))
    (Deck.deck (fill (Deck.mk [] 0)))
  = flat_map (fun s => map (fun v => (v, Suit.value s)) CARDS) SUITS.
Proof. reflexivity. Qed.

Lemma fill_keys_NoDup :
  NoDup (flat_map (fun s => map (fun v => (v, Suit.value s)) CARDS) SUITS).
Proof. apply (bool_decide_unpack _). vm_compute. exact I. Qed.

Lemma fill_lookup (k : nat) s v :
  SUITS !! (k / 13)%nat = Some s ->
  CARDS !! (k mod 13)%nat = Some v ->
  Deck.deck (fill (Deck.mk [] 0)) !! k
  = Some (Card.mk (Z.of_nat k) v (Z.of_nat (k mod 13) + 1) s).
Proof.
  intros Hs Hv.
  assert (Hk : (k < 52)%nat).
  { apply lookup_lt_Some in Hs. change (length SUITS) with 4%nat in Hs.
    destruct (Nat.lt_ge_cases k 52) as [|Hge]; [assumption|].
    apply (Nat.Div0.div_le_mono _ _ 13) in Hge.
    change (52 / 13)%nat with 4%nat in Hge. lia. }
  revert s v Hs Hv.
  do 52 (destruct k as [|k];
         [intros s v Hs Hv; vm_compute in Hs, Hv;
          injection Hs as <-; injection Hv as <-; reflexivity|]).
  lia.
Qed.

Lemma omap_seq_S {B} (f : nat -> option B) (a n : nat) :
  omap f (seq (S a) n) = omap (fun i => f (S i)) (seq a n).
Proof.
  revert a. induction n as [|n IH]; intros a; [reflexivity|].
  cbn [seq omap list_omap]. now rewrite IH.
Qed.

Lemma omap_lookup_seq {A} (l : list A) :
  omap (fun i => l !! i) (seq 0 (length l)) = l.
Proof.
  induction l as [|x l IH]; [reflexivity|].
  cbn [length seq omap list_omap lookup list_lookup]. f_equal.
  rewrite omap_seq_S. exact IH.
Qed.

Section ConstructionFacts.

Variable draw : nat -> list nat.
Hypothesis draw_Permutation : forall n, Permutation (draw n) (seq 0 n).

Lemma shuffle_Permutation {A} (l : list A) : Permutation l (shuffle draw l).
Proof.
  unfold shuffle. rewrite (draw_Permutation (length l)).
  now rewrite omap_lookup_seq.
Qed.

Lemma constructor_Permutation (preShuffle : bool) :
  Permutation (Deck.deck (fill (Deck.mk [] 0)))
    (Deck.deck (constructor draw preShuffle)).
Proof.
  unfold constructor. destruct preShuffle; cbn [Deck.deck].
  - apply shuffle_Permutation.
  - reflexivity.
Qed.

(** C2.  Whatever [preShuffle] is, a new deck holds 52 cards, every pair of a
    rank label and a suit letter exactly once, and the ids are 0..51 without
    repetition.  Unshuffled, the card at position [k] has id [k], the suit
    at index [k / 13] and the label at index [k mod 13]; shuffled, the deck
    is a permutation of the unshuffled one. *)
Theorem constructor_deck (preShuffle : bool) :
  let key := fun c => (Card.value c, Suit.value (Card.suit c)) in
  let d := Deck.deck (constructor draw preShuffle) in
  length d = 52%nat
  /\ NoDup (map key d)
  /\ (forall v s, In v CARDS -> In s SUITS -> In (v, Suit.value s) (map key d))
  /\ NoDup (map Card.id d)
  /\ (forall z, In z (map Card.id d) <-> 0 <= z <= 51)
  /\ (preShuffle = false ->
      forall (k : nat) s v,
        SUITS !! (k / 13)%nat = Some s ->
        CARDS !! (k mod 13)%nat = Some v ->
        d !! k = Some (Card.mk (Z.of_nat k) v (Z.of_nat (k mod 13) + 1) s))
  /\ (preShuffle = true ->
      Permutation (Deck.deck (constructor draw false)) d).
Proof.
  intros key d.
  pose proof (constructor_Permutation preShuffle) as HP. fold d in HP.
  pose proof (Permutation_map key HP) as HPk.
  pose proof (Permutation_map Card.id HP) as HPi.
  unfold key in HPk at 1. rewrite fill_keys in HPk. rewrite fill_ids in HPi.
  split_and!.
  - rewrite <- (Permutation_length HP). apply fill_length.
  - rewrite <- HPk. apply fill_keys_NoDup.
  - intros v s Hv Hs. eapply Permutation_in; [exact HPk|].
    apply in_flat_map. exists s. split; [assumption|].
    apply in_map_iff. exists v. split; [reflexivity | assumption].
  - rewrite <- HPi. apply (NoDup_fmap_2 _), NoDup_seq.
  - intros z. split.
    + intros Hin. apply (Permutation_in _ (Permutation_sym HPi)) in Hin.
      apply in_map_iff in Hin as (n & <- & Hn). apply in_seq in Hn. lia.
    + intros Hz. eapply Permutation_in; [exact HPi|].
      apply in_map_iff. exists (Z.to_nat z). split; [lia|]. apply in_seq. lia.
  - intros -> k s v Hs Hv. subst d. apply fill_lookup; assumption.
  - intros ->. subst d. apply shuffle_Permutation.
Qed.

End ConstructionFacts.

Lemma reversed_Permutation (n : nat) :
  Permutation (rev (seq 0 n)) (seq 0 n).
Proof. symmetry. apply Permutation_rev. Qed.

Lemma constructor_deck_witness :
  length (Deck.deck (constructor (fun n => rev (seq 0 n)) true)) = 52%nat.
Proof.
  exact (proj1 (constructor_deck (fun n => rev (seq 0 n))
                  reversed_Permutation true)).
Defined.

(** ** Drawing *)

Lemma getCards_loop_take (n : nat) (deck : list Card.t) removedCards :
  (n <= length deck)%nat ->
  getCards_loop n deck removedCards
  = (removedCards ++ map Some (take n deck), drop n deck).
Proof.
  revert deck removedCards.
  induction n as [|n IH]; intros deck removedCards Hn.
  - cbn. now rewrite app_nil_r, drop_0.
  - destruct deck as [|c deck]; [cbn in Hn; lia|].
    cbn [getCards_loop shift]. rewrite IH by (cbn in Hn; lia).
    unfold push. now rewrite <- app_assoc.
Qed.

Lemma getCards_drawn (amount : Z) (this : Deck.t) :
  1 <= amount ->
  amount < Z.of_nat (length (Deck.deck this)) - amount ->
  getCards amount this
  = (map Some (take (Z.to_nat amount) (Deck.deck this)),
     Deck.mk (drop (Z.to_nat amount) (Deck.deck this)) (Deck.id this)).
Proof.
  intros H1 H2. unfold getCards.
  destruct (Z.leb_spec 1 amount); [|lia].
  destruct (Z.ltb_spec amount (Z.of_nat (length (Deck.deck this)) - amount));
    [|lia].
  cbn [andb]. rewrite getCards_loop_take by lia. reflexivity.
Qed.

Lemma getCards_refused (amount : Z) (this : Deck.t) :
  ~ (1 <= amount /\ amount < Z.of_nat (length (Deck.deck this)) - amount) ->
  getCards amount this = ([], this).
Proof.
  intros H. unfold getCards.
  destruct (Z.leb_spec 1 amount);
    destruct (Z.ltb_spec amount (Z.of_nat (length (Deck.deck this)) - amount));
    cbn [andb]; try reflexivity.
  lia.
Qed.

Lemma getCards_cases (amount : Z) (this : Deck.t) :
  getCards amount this
  = (if decide (1 <= amount
                /\ amount < Z.of_nat (length (Deck.deck this)) - amount)
     then (map Some (take (Z.to_nat amount) (Deck.deck this)),
           Deck.mk (drop (Z.to_nat amount) (Deck.deck this)) (Deck.id this))
     else ([], this)).
Proof.
  case_decide as H.
  - apply getCards_drawn; apply H.
  - apply getCards_refused, H.
Qed.

(** C3.  [getCards(amount)] returns the first [amount] cards, in order, and
    leaves the rest, exactly when [1 <= amount < length - amount]; otherwise
    it returns the empty array and the instance is unchanged.  On 52 cards:
    26 is refused, 25 gives 25 cards and leaves 27, 0 and -1 are refused. *)
Theorem getCards_spec (amount : Z) (this : Deck.t) :
  getCards amount this
  = (if decide (1 <= amount
                /\ amount < Z.of_nat (length (Deck.deck this)) - amount)
     then (map Some (take (Z.to_nat amount) (Deck.deck this)),
           Deck.mk (drop (Z.to_nat amount) (Deck.deck this)) (Deck.id this))
     else ([], this))
  /\ (length (Deck.deck this) = 52%nat ->
      getCards 26 this = ([], this)
      /\ (exists drawn,
             getCards 25 this
             = (map Some drawn, Deck.mk (drop 25 (Deck.deck this)) (Deck.id this))
             /\ drawn = take 25 (Deck.deck this)
             /\ length drawn = 25%nat
             /\ length (drop 25 (Deck.deck this)) = 27%nat)
      /\ getCards 0 this = ([], this)
      /\ getCards (-1) this = ([], this)).
Proof.
  split.
  - apply getCards_cases.
  - intros Hlen. split_and!.
    + apply getCards_refused. lia.
    + exists (take 25 (Deck.deck this)). split_and!.
      * rewrite getCards_drawn by lia. reflexivity.
      * reflexivity.
      * rewrite length_take. lia.
      * rewrite length_drop. lia.
    + apply getCards_refused. lia.
    + apply getCards_refused. lia.
Qed.

Lemma getCards_spec_witness :
  getCards 26 (constructor (fun n => rev (seq 0 n)) false)
  = ([], constructor (fun n => rev (seq 0 n)) false).
Proof.
  exact (proj1 (proj2 (getCards_spec 26 (constructor (fun n => rev (seq 0 n)) false))
                  eq_refl)).
Defined.

(** ** Sorting *)

Section ArraySort.

Context {A : Type} (key : A -> Z).

(** The comparator of [sort], on any element type with an integer key, is
    [fun a b => key b - key a]. *)

Lemma insert_sorted_Permutation (x : A) (l : list A) :
  Permutation (x :: l) (insert_sorted (fun a b => key b - key a) x l).
Proof.
  induction l as [|y l IH]; cbn; [reflexivity|].
  destruct (0 <? key y - key x); [|reflexivity].
  rewrite perm_swap. now apply perm_skip.
Qed.

Lemma Array_sort_Permutation (l : list A) :
  Permutation l (Array_sort (fun a b => key b - key a) l).
Proof.
  induction l as [|x l IH]; cbn; [reflexivity|].
  rewrite <- insert_sorted_Permutation. now apply perm_skip.
Qed.

Lemma insert_sorted_StronglySorted (x : A) (l : list A) :
  StronglySorted (fun a b => key a >= key b) l ->
  StronglySorted (fun a b => key a >= key b) (insert_sorted (fun a b => key b - key a) x l).
Proof.
  induction 1 as [|y l Hl IH Hy]; cbn.
  - repeat constructor.
  - destruct (Z.ltb_spec 0 (key y - key x)).
    + constructor; [exact IH|].
      rewrite <- insert_sorted_Permutation. constructor; [lia | exact Hy].
    + constructor; [now constructor|].
      constructor; [lia|].
      eapply Forall_impl; [exact Hy|]. cbn. intros z Hz. lia.
Qed.

Lemma Array_sort_StronglySorted (l : list A) :
  StronglySorted (fun a b => key a >= key b) (Array_sort (fun a b => key b - key a) l).
Proof.
  induction l as [|x l IH]; cbn; [constructor|].
  now apply insert_sorted_StronglySorted.
Qed.

Lemma insert_sorted_filter (r : Z) (x : A) (l : list A) :
  filter (fun a => key a = r) (insert_sorted (fun a b => key b - key a) x l)
  = filter (fun a => key a = r) (x :: l).
Proof.
  induction l as [|y l IH]; cbn [insert_sorted]; [reflexivity|].
  destruct (Z.ltb_spec 0 (key y - key x)) as [Hlt|];
    [|reflexivity].
  rewrite (filter_cons _ y), IH, !filter_cons.
  repeat case_decide; try reflexivity; lia.
Qed.

Lemma Array_sort_filter (r : Z) (l : list A) :
  filter (fun a => key a = r) (Array_sort (fun a b => key b - key a) l)
  = filter (fun a => key a = r) l.
Proof.
  induction l as [|x l IH]; cbn [Array_sort foldr]; [reflexivity|].
  fold (Array_sort (fun a b => key b - key a) l).
  rewrite insert_sorted_filter, !filter_cons, IH. reflexivity.
Qed.

(** Two arrangements in descending key order with the same elements of each
    key, in the same order, are the same arrangement: a stable sort has one
    possible result. *)
Lemma stable_sorted_unique (l1 l2 : list A) :
  StronglySorted (fun a b => key a >= key b) l1 ->
  StronglySorted (fun a b => key a >= key b) l2 ->
  (forall r, filter (fun a => key a = r) l1 = filter (fun a => key a = r) l2) ->
  l1 = l2.
Proof.
  intros H1. revert l2.
  induction H1 as [|a l1 Hl1 IH Ha]; intros l2 H2 Hf.
  - destruct l2 as [|b l2]; [reflexivity|].
    specialize (Hf (key b)). rewrite filter_cons in Hf.
    case_decide; [discriminate | congruence].
  - destruct H2 as [|b l2 Hl2 Hb].
    + specialize (Hf (key a)). rewrite filter_cons in Hf.
      case_decide; [discriminate | congruence].
    + assert (Hab : key a = key b).
      { pose proof (Hf (key a)) as Fa. pose proof (Hf (key b)) as Fb.
        rewrite !filter_cons in Fa, Fb.
        destruct (decide (key a = key b)) as [|Hne]; [assumption|].
        repeat case_decide; try congruence.
        assert (Ia : a ∈ filter (fun x => key x = key a) l2)
          by (rewrite <- Fa; left).
        assert (Ib : b ∈ filter (fun x => key x = key b) l1)
          by (rewrite Fb; left).
        apply list_elem_of_filter in Ia as [_ Ia].
        apply list_elem_of_filter in Ib as [_ Ib].
        rewrite Forall_forall in Ha, Hb.
        specialize (Ha _ Ib). specialize (Hb _ Ia). cbn in Ha, Hb. lia. }
      assert (a = b).
      { specialize (Hf (key a)). rewrite !filter_cons in Hf.
        repeat case_decide; congruence. }
      subst b. f_equal. apply IH; [assumption|].
      intros r. specialize (Hf r). rewrite !filter_cons in Hf.
      case_decide; congruence.
Qed.

End ArraySort.

Lemma sort_Permutation (cards : list Card.t) : Permutation cards (sort cards).
Proof. apply (Array_sort_Permutation Card.rank). Qed.

(** C4.  [sort] returns a permutation of its input in descending order of
    rank in which the cards of each rank keep their input order; ranks
    3, 1, 13, 7 come out as 13, 7, 3, 1. *)
Theorem sort_spec (cards : list Card.t) :
  Permutation cards (sort cards)
  /\ StronglySorted (fun a b => Card.rank a >= Card.rank b) (sort cards)
  /\ (forall r,
        filter (fun c => Card.rank c = r) (sort cards)
        = filter (fun c => Card.rank c = r) cards)
  /\ (map Card.rank cards = [3; 1; 13; 7] ->
      map Card.rank (sort cards) = [13; 7; 3; 1]).
Proof.
  split_and!.
  - apply sort_Permutation.
  - apply (Array_sort_StronglySorted Card.rank).
  - intros r. apply (Array_sort_filter Card.rank).
  - intros H.
    destruct cards as [|a [|b [|c [|d [|? ?]]]]]; try discriminate.
    destruct a, b, c, d. cbn in H. injection H as -> -> -> ->. reflexivity.
Qed.

Lemma sort_spec_witness :
  let cards := map (fun r => Card.mk 0 "2" r (Suit.mk "S" "black" "♠"))
                 [3; 1; 13; 7] in
  map Card.rank (sort cards) = [13; 7; 3; 1].
Proof.
  intros cards. exact (proj2 (proj2 (proj2 (sort_spec cards))) eq_refl).
Defined.

(** ** The rank of a card *)

Lemma fill_rank_consistent :
  Forall rank_consistent (Deck.deck (fill (Deck.mk [] 0))).
Proof.
  apply (bool_decide_unpack _). vm_compute. exact I.
Qed.

Lemma getCards_partition (amount : Z) (this : Deck.t) :
  fst (getCards amount this) ++ map Some (Deck.deck (snd (getCards amount this)))
  = map Some (Deck.deck this).
Proof.
  rewrite getCards_cases.
  case_decide; cbn [fst snd Deck.deck app]; [|reflexivity].
  rewrite <- map_app. now rewrite take_drop.
Qed.

Lemma getCards_drawn_In (amount : Z) (this : Deck.t) oc :
  In oc (fst (getCards amount this)) ->
  exists c, oc = Some c /\ In c (Deck.deck this).
Proof.
  intros H.
  assert (H' : In oc (map Some (Deck.deck this))).
  { rewrite <- getCards_partition with (amount := amount).
    apply in_or_app. now left. }
  apply in_map_iff in H' as (c & <- & Hc). eauto.
Qed.

Lemma getCards_left_In (amount : Z) (this : Deck.t) c :
  In c (Deck.deck (snd (getCards amount this))) -> In c (Deck.deck this).
Proof.
  intros H.
  assert (H' : In (Some c) (map Some (Deck.deck this))).
  { rewrite <- getCards_partition with (amount := amount).
    apply in_or_app. right. now apply in_map. }
  apply in_map_iff in H' as (c' & [= ->] & Hc). exact Hc.
Qed.

Section RankInvariant.

Variable draw : nat -> list nat.
Hypothesis draw_Permutation : forall n, Permutation (draw n) (seq 0 n).

Lemma reachable_rank_consistent (this : Deck.t) :
  reachable draw this -> Forall rank_consistent (Deck.deck this).
Proof.
  induction 1 as [preShuffle | amount this _ IH].
  - rewrite <- (constructor_Permutation draw draw_Permutation preShuffle).
    apply fill_rank_consistent.
  - apply Forall_forall. intros c Hc. apply list_elem_of_In in Hc.
    apply getCards_left_In in Hc. rewrite Forall_forall in IH.
    apply IH. now apply list_elem_of_In.
Qed.

(** C5.  Every card of a new deck has the rank that goes with its value, and
    this stays so: it holds of the cards left in the deck after any draws,
    of the cards a draw returns, and of those cards sorted.  Along the way
    no card is made or changed: what a draw returns and what it leaves are
    together the deck as it was. *)
Theorem rank_consistent_preserved (this : Deck.t) :
  reachable draw this ->
  Forall rank_consistent (Deck.deck this)
  /\ forall amount,
       fst (getCards amount this)
         ++ map Some (Deck.deck (snd (getCards amount this)))
       = map Some (Deck.deck this)
       /\ exists drawn,
            fst (getCards amount this) = map Some drawn
            /\ Forall rank_consistent drawn
            /\ Permutation drawn (sort drawn)
            /\ Forall rank_consistent (sort drawn).
Proof.
  intros Hr. pose proof (reachable_rank_consistent this Hr) as Hd.
  split; [exact Hd|]. intros amount.
  split; [apply getCards_partition|].
  rewrite getCards_cases.
  assert (Hsort : forall l, Forall rank_consistent l ->
                            Forall rank_consistent (sort l)).
  { intros l Hl. now rewrite <- (sort_Permutation l). }
  case_decide; cbn [fst].
  - exists (take (Z.to_nat amount) (Deck.deck this)).
    assert (Forall rank_consistent (take (Z.to_nat amount) (Deck.deck this)))
      by now apply Forall_take.
    split_and!; auto; apply sort_Permutation.
  - exists []. split_and!; auto; apply sort_Permutation.
Qed.

End RankInvariant.

Lemma rank_consistent_preserved_witness :
  Forall rank_consistent
    (Deck.deck (constructor (fun n => rev (seq 0 n)) true)).
Proof.
  exact (proj1 (rank_consistent_preserved (fun n => rev (seq 0 n))
                  reversed_Permutation
                  _ (reachable_new (fun n => rev (seq 0 n)) true))).
Defined.

(** ** Validation *)

Lemma includes_In (arr : list string) (k : string) :
  includes arr k = true <-> In k arr.
Proof.
  unfold includes. rewrite existsb_exists. split.
  - intros (x & Hx & He). apply String.eqb_eq in He. now subst.
  - intros H. exists k. split; [assumption | apply String.eqb_refl].
Qed.

Lemma validate_Obj_true (props : list (string * Value)) :
  validate (Obj props) = Normal true
  <-> In "id"%string (map fst props) /\ In "value"%string (map fst props)
      /\ In "rank"%string (map fst props) /\ In "suit"%string (map fst props).
Proof.
  unfold validate. cbn [Object_keys mbind Completion_bind].
  rewrite <- !includes_In.
  destruct (includes _ "id"), (includes _ "value"),
    (includes _ "rank"), (includes _ "suit"); cbn;
    intuition congruence.
Qed.

Lemma validate_Obj_returns (props : list (string * Value)) :
  exists b, validate (Obj props) = Normal b.
Proof.
  unfold validate. cbn [Object_keys mbind Completion_bind].
  destruct (_ && _); eauto.
Qed.

(** C6.  On an object, [validate] returns, and returns [true] exactly when
    the four keys [id], [value], [rank], [suit] are all among the object's
    keys, whatever is stored under them: [{id:1, value:"Z", rank:99,
    suit:{}}] is accepted, an object without one of the four is not. *)
Theorem validate_spec (props : list (string * Value)) :
  (exists b,
      validate (Obj props) = Normal b
      /\ (b = true <->
          In "id"%string (map fst props) /\ In "value"%string (map fst props)
          /\ In "rank"%string (map fst props)
          /\ In "suit"%string (map fst props)))
  /\ validate (Obj [("id", Num (Int 1)); ("value", Str "Z");
                    ("rank", Num (Int 99)); ("suit", Obj [])]%string)
     = Normal true
  /\ (forall k,
        In k ["id"; "value"; "rank"; "suit"]%string ->
        ~ In k (map fst props) ->
        validate (Obj props) = Normal false).
Proof.
  split_and!.
  - destruct (validate_Obj_returns props) as [b Hb]. exists b.
    split; [exact Hb|]. rewrite <- validate_Obj_true, Hb.
    split; congruence.
  - reflexivity.
  - intros k Hk Hmissing.
    destruct (validate_Obj_returns props) as [[|] Hb]; [|exact Hb].
    apply validate_Obj_true in Hb as (H1 & H2 & H3 & H4).
    cbn in Hk. destruct Hk as [<-|[<-|[<-|[<-|[]]]]]; contradiction.
Qed.

Lemma validate_spec_witness :
  validate (Obj [("id", Num (Int 1)); ("value", Str "Z");
                 ("rank", Num (Int 99))]%string)
  = Normal false.
Proof.
  apply (proj2 (proj2 (validate_spec _)) "suit"%string).
  - cbn. tauto.
  - cbn. intros [H|[H|[H|[]]]]; discriminate H.
Defined.

(** ** Parsing a token with an unknown suit *)

Lemma find_suit_None (suitValue : option string) :
  (forall s, In s SUITS -> Some (Suit.value s) <> suitValue) ->
  find_suit suitValue = None.
Proof.
  intros H. unfold find_suit.
  destruct (List.find _ SUITS) as [s|] eqn:E; [|reflexivity].
  apply find_some in E as [Hin Hv]. apply bool_decide_eq_true in Hv.
  now apply H in Hin.
Qed.

(** C7.  A token with a card part whose suit character is the letter of no
    catalog suit is parsed without an error, and the card that comes out has
    all four keys with [undefined] under [suit]. *)
Theorem parse_unknown_suit (token idPart cardPart ch : string)
    (rest : list string) :
  split "#" token = idPart :: cardPart :: rest ->
  (if (String.length cardPart =? 3)%nat then char_at cardPart 2
   else char_at cardPart 1) = Some ch ->
  (forall s, In s SUITS -> Suit.value s <> ch) ->
  exists id value rank,
    parse [token]
    = Normal [Obj [("id", id); ("value", value); ("rank", rank);
                   ("suit", Undefined)]%string].
Proof.
  intros Hsplit Hch Hnone.
  unfold parse, map_throwing, parse_card. rewrite Hsplit.
  cbn [lookup list_lookup]. rewrite Hch.
  rewrite find_suit_None by (intros s Hs [= E]; now apply (Hnone s)).
  eexists _, _, _. reflexivity.
Qed.

Lemma parse_unknown_suit_witness :
  exists id value rank,
    parse ["1#AX"%string]
    = Normal [Obj [("id", id); ("value", value); ("rank", rank);
                   ("suit", Undefined)]%string].
Proof.
  apply (parse_unknown_suit "1#AX" "1" "AX" "X" []).
  - reflexivity.
  - reflexivity.
  - intros s Hs E. cbn in Hs.
    destruct Hs as [<-|[<-|[<-|[<-|[]]]]]; discriminate E.
Defined.

(** Such a card passes [validate], and asking for its suit text throws. *)
Lemma parse_unknown_suit_then_describe :
  parse ["1#AX"%string]
  = Normal [Obj [("id", Num (Int 1)); ("value", Str "A");
                 ("rank", Num (Int 13)); ("suit", Undefined)]%string]
  /\ validate (Obj [("id", Num (Int 1)); ("value", Str "A");
                    ("rank", Num (Int 13)); ("suit", Undefined)]%string)
     = Normal true
  /\ getCardDescription
       (Obj [("id", Num (Int 1)); ("value", Str "A");
             ("rank", Num (Int 13)); ("suit", Undefined)]%string)
     = Throw TypeError.
Proof. split_and!; reflexivity. Qed.

(** ** Description *)

Lemma getCardDescription_invalid (card : Value) :
  validate card = Normal false -> getCardDescription card = Normal (Str "").
Proof. intros H. unfold getCardDescription. now rewrite H. Qed.

Lemma getCardDescription_texts (props sprops : list (string * Value))
    (v sv cardText suitText : string) :
  validate (Obj props) = Normal true ->
  assoc "value" props = Some (Str v) ->
  assoc "suit" props = Some (Obj sprops) ->
  assoc "value" sprops = Some (Str sv) ->
  assoc v CARDS_TEXT = Some cardText ->
  assoc sv SUITS_TEXT = Some suitText ->
  getCardDescription (Obj props)
  = Normal (Str (cardText +:+ " of " +:+ suitText)).
Proof.
  intros Hvalid Hv Hs Hsv Hct Hst.
  unfold getCardDescription, getCardText, getSuitText.
  rewrite Hvalid. cbn [negb mbind Completion_bind get].
  rewrite Hv, Hs. cbn [default from_option id get mbind Completion_bind].
  rewrite Hsv. unfold table_lookup.
  cbn [default from_option id ToString mbind Completion_bind].
  rewrite Hct, Hst. reflexivity.
Qed.

(** C8 as stated fails on its own example: the object
    [{value:"K", suit:{value:"H"}}] has no [id] and no [rank], so
    [validate] rejects it and the description is empty.  It also fails on a
    card that [validate] accepts but whose suit is [undefined], as [parse]
    makes them: no string is returned. *)
Lemma getCardDescription_example_two_keys :
  let card := Obj [("value", Str "K");
                   ("suit", Obj [("value", Str "H")])]%string in
  let parsed := Obj [("id", Num (Int 1)); ("value", Str "A");
                     ("rank", Num (Int 13)); ("suit", Undefined)]%string in
  validate card = Normal false
  /\ getCardDescription card = Normal (Str "")
  /\ getCardDescription card <> Normal (Str "King of Hearts")
  /\ parse ["1#AX"%string] = Normal [parsed]
  /\ validate parsed = Normal true
  /\ getCardDescription parsed = Throw TypeError.
Proof.
  split_and!; [reflexivity | reflexivity | discriminate | reflexivity ..].
Qed.

(** C8, amended.  On an object that [validate] rejects the description is
    the empty string; on one it accepts, with a value and a suit letter that
    have display texts, it is the two texts joined by [" of "].  A card with
    all four keys, value ["K"] and suit letter ["H"] is described as
    ["King of Hearts"]. *)
Theorem getCardDescription_spec (props : list (string * Value)) :
  (validate (Obj props) = Normal false ->
   getCardDescription (Obj props) = Normal (Str ""))
  /\ (forall sprops v sv cardText suitText,
        validate (Obj props) = Normal true ->
        assoc "value" props = Some (Str v) ->
        assoc "suit" props = Some (Obj sprops) ->
        assoc "value" sprops = Some (Str sv) ->
        assoc v CARDS_TEXT = Some cardText ->
        assoc sv SUITS_TEXT = Some suitText ->
        getCardDescription (Obj props)
        = Normal (Str (cardText +:+ " of " +:+ suitText)))
  /\ (forall id rank others,
        getCardDescription
          (Obj [("id", id); ("value", Str "K"); ("rank", rank);
                ("suit", Obj (("value", Str "H") :: others))]%string)
        = Normal (Str "King of Hearts")).
Proof.
  split_and!.
  - apply getCardDescription_invalid.
  - intros. eapply getCardDescription_texts; eassumption.
  - reflexivity.
Qed.

Lemma getCardDescription_spec_witness :
  getCardDescription (Obj [("id", Num (Int 7)); ("rank", Num (Int 12))]%string)
  = Normal (Str "").
Proof.
  apply (proj1 (getCardDescription_spec _)). reflexivity.
Defined.

(** ** Round trip through tokens *)

(** Reading decimal digits back. *)

Lemma parse_digits_acc (u : Decimal.uint) (p : positive) :
  parse_digits 10 (NilEmpty.string_of_uint u) (Some (N.pos p))
  = Some (N.pos (Pos.of_uint_acc u p)).
Proof.
  revert p. induction u; intros p;
    cbn [NilEmpty.string_of_uint parse_digits Pos.of_uint_acc];
    [reflexivity | ..];
    eval_digit; rewrite <- IHu; do 2 f_equal;
    cbn [default from_option id]; lia.
Qed.

Lemma parse_digits_zero (u : Decimal.uint) :
  parse_digits 10 (NilEmpty.string_of_uint u) (Some 0%N)
  = Some (Pos.of_uint u).
Proof.
  induction u; cbn [NilEmpty.string_of_uint parse_digits Pos.of_uint];
    [reflexivity | ..]; eval_digit;
    [exact IHu | rewrite <- parse_digits_acc; reflexivity ..].
Qed.

Lemma parse_digits_start (u : Decimal.uint) :
  u <> Decimal.Nil ->
  parse_digits 10 (NilEmpty.string_of_uint u) None
  = Some (Pos.of_uint u).
Proof.
  intros Hu. rewrite <- parse_digits_zero.
  destruct u; [contradiction | reflexivity ..].
Qed.

Lemma parseInt_string_of_uint (u : Decimal.uint) :
  u <> Decimal.Nil ->
  parseInt (NilEmpty.string_of_uint u) = Int (Z.of_N (Pos.of_uint u)).
Proof.
  intros Hu. pose proof (parse_digits_start u Hu) as Hd.
  destruct u as [|u|u|u|u|u|u|u|u|u|u]; [contradiction | ..];
    try (unfold parseInt; cbn [NilEmpty.string_of_uint trim_start] in *;
         change (is_whitespace _) with false; cbv iota beta;
         rewrite Hd; f_equal; lia).
  destruct u as [|u|u|u|u|u|u|u|u|u|u];
    (unfold parseInt; cbn [NilEmpty.string_of_uint trim_start] in *;
     change (is_whitespace _) with false; cbv iota beta;
     try change (Ascii.eqb _ "x" || Ascii.eqb _ "X") with false;
     cbv iota beta; rewrite Hd; f_equal; lia).
Qed.

Lemma parseInt_digits (n : N) : parseInt (digits n) = Int (Z.of_N n).
Proof.
  unfold digits. rewrite parseInt_string_of_uint.
  - change (Pos.of_uint (N.to_uint n)) with (N.of_uint (N.to_uint n)).
    now rewrite DecimalN.Unsigned.of_to.
  - destruct n; [discriminate | apply DecimalPos.Unsigned.to_uint_nonnil].
Qed.

(** Digits hold no separator. *)
Lemma split_string_of_uint (u : Decimal.uint) (rest : string) :
  split "#" (NilEmpty.string_of_uint u +:+ String "#" rest)
  = NilEmpty.string_of_uint u :: split "#" rest.
Proof.
  induction u; cbn [NilEmpty.string_of_uint];
    [reflexivity | ..]; simpl; now rewrite IHu.
Qed.

Lemma Number_toString_decimal (z : Z) :
  0 <= z < 10 ^ 21 -> Number_toString (Int z) = digits (Z.to_N z).
Proof.
  intros Hz. unfold Number_toString.
  destruct (Z.ltb_spec z 0); [lia|].
  rewrite Z.abs_eq by lia.
  destruct (N.ltb_spec (Z.to_N z) (10 ^ 21)); [reflexivity|].
  exfalso. apply N2Z.inj_le in H0. rewrite Z2N.id in H0 by lia.
  change (Z.of_N (10 ^ 21)) with (10 ^ 21) in H0. lia.
Qed.

Lemma parse_card_parts (c idPart v : string) (s : Suit.t) :
  split "#" c = [idPart; v +:+ Suit.value s] ->
  In v CARDS -> In s SUITS ->
  parse_card c
  = Normal (Obj [("id", Num (parseInt idPart)); ("value", Str v);
                 ("rank", Num (Int (indexOf CARDS (Some v) + 1)));
                 ("suit", Suit_object s)]%string).
Proof.
  intros Hsplit Hv Hs. unfold parse_card. rewrite Hsplit.
  cbn [lookup list_lookup default from_option id].
  cbn in Hv, Hs.
  repeat (destruct Hv as [<- | Hv]);
    try (repeat (destruct Hs as [<- | Hs]); try reflexivity; destruct Hs).
  destruct Hv.
Qed.

Lemma parse_card_stringify_card (card : Card.t) :
  valid_card card -> Card.id card < 10 ^ 21 ->
  parse_card (stringify_card card) = Normal (Card_object card).
Proof.
  intros (Hid & Hv & Hr & Hs) Hlt.
  destruct card as [id v rank s]. cbn [Card.id Card.value Card.suit] in *.
  unfold rank_consistent in Hr. cbn [Card.rank Card.value] in Hr.
  rewrite (parse_card_parts _ (digits (Z.to_N id)) v s); try assumption.
  - rewrite parseInt_digits, Z2N.id by lia. unfold Card_object.
    cbn [Card.id Card.value Card.rank Card.suit]. now rewrite Hr.
  - unfold stringify_card. cbn [Card.id Card.value Card.suit].
    rewrite Number_toString_decimal by lia.
    change ("#" +:+ v +:+ Suit.value s)
      with (String "#" (v +:+ Suit.value s)).
    unfold digits. rewrite split_string_of_uint. f_equal.
    cbn in Hv, Hs.
    repeat (destruct Hv as [<- | Hv]);
      try (repeat (destruct Hs as [<- | Hs]); try reflexivity; destruct Hs).
    destruct Hv.
Qed.

(** C1 as stated fails for an id that is written in exponent notation: the
    valid card with id 10^21 is serialized as ["1e+21#AS"] and read back
    with id 1. *)
Lemma parse_stringify_large_id :
  let card := Card.mk (10 ^ 21) "A" 13 (Suit.mk "S" "black" "♠") in
  valid_card card
  /\ stringify [card] = ["1e+21#AS"%string]
  /\ parse (stringify [card])
     = Normal [Card_object (Card.mk 1 "A" 13 (Suit.mk "S" "black" "♠"))]
  /\ parse (stringify [card]) <> Normal (map Card_object [card]).
Proof.
  split_and!.
  - unfold valid_card. cbn [Card.id Card.value Card.suit]. split_and!.
    + lia.
    + in_catalog.
    + reflexivity.
    + in_catalog.
  - reflexivity.
  - reflexivity.
  - vm_compute. discriminate.
Qed.

(** C1, amended.  For every sequence of valid cards whose ids are below
    10^21, parsing the tokens of the cards gives back the cards; the label
    ["10"] goes through the tokens of length 3, the others through those of
    length 2. *)
Theorem parse_stringify (cards : list Card.t) :
  Forall valid_card cards ->
  Forall (fun card => Card.id card < 10 ^ 21) cards ->
  parse (stringify cards) = Normal (map Card_object cards).
Proof.
  unfold parse, stringify.
  induction cards as [|card cards IH]; intros Hvalid Hsmall; [reflexivity|].
  apply Forall_cons in Hvalid as [Hc Hvalid].
  apply Forall_cons in Hsmall as [Hs Hsmall].
  cbn [map map_throwing]. rewrite parse_card_stringify_card by assumption.
  cbn [mbind Completion_bind]. rewrite IH by assumption. reflexivity.
Qed.

Lemma parse_stringify_witness :
  parse (stringify [Card.mk 8 "10" 9 (Suit.mk "S" "black" "♠");
                    Card.mk 23 "A" 13 (Suit.mk "S" "black" "♠")])
  = Normal (map Card_object
              [Card.mk 8 "10" 9 (Suit.mk "S" "black" "♠");
               Card.mk 23 "A" 13 (Suit.mk "S" "black" "♠")]).
Proof.
  apply parse_stringify.
  - repeat apply Forall_cons_2; [| |apply Forall_nil_2];
      (unfold valid_card; cbn [Card.id Card.value Card.suit]; split_and!;
       [lia | in_catalog | reflexivity | in_catalog]).
  - repeat apply Forall_cons_2; [| |apply Forall_nil_2];
      cbn [Card.id]; lia.
Defined.

(** ** The store *)

(** *** Steps of a computation *)

Lemma bind_Some {A B} (m : Store.M A) (k : A -> Store.M B) st a st' :
  m st = Some (a, st') -> (m ≫= k) st = k a st'.
Proof. intros H. unfold mbind, Store.M_bind. now rewrite H. Qed.

Lemma alloc_Some (c : Store.cell) (st : Store.store) :
  exists l,
    Store.alloc c st
    = Some (Store.VRef l,
            Store.mk (<[l := c]> (Store.heap st)) (Store.catalog st))
    /\ l ∉ dom (Store.heap st).
Proof.
  exists (fresh (dom (Store.heap st))). split; [reflexivity | apply is_fresh].
Qed.

Lemma load_Some (l : Store.loc) (c : Store.cell) (st : Store.store) :
  Store.heap st !! l = Some c -> Store.load (Store.VRef l) st = Some (c, st).
Proof. intros H. unfold Store.load. now rewrite H. Qed.

Lemma write_Some (l : Store.loc) (c c' : Store.cell) (st : Store.store) :
  Store.heap st !! l = Some c ->
  Store.write (Store.VRef l) c' st
  = Some (tt, Store.mk (<[l := c']> (Store.heap st)) (Store.catalog st)).
Proof. intros H. unfold Store.write. now rewrite H. Qed.

Lemma get_prop_Some l props k st :
  Store.heap st !! l = Some (Store.CObj props) ->
  Store.get_prop (Store.VRef l) k st
  = Some (default Store.VUndefined (assoc k props), st).
Proof.
  intros H. unfold Store.get_prop. now rewrite (bind_Some _ _ _ _ _ (load_Some _ _ _ H)).
Qed.

Lemma set_prop_Some l props k v st :
  Store.heap st !! l = Some (Store.CObj props) ->
  Store.set_prop (Store.VRef l) k v st
  = Some (tt, Store.mk (<[l := Store.CObj (Store.update_prop k v props)]>
                          (Store.heap st)) (Store.catalog st)).
Proof.
  intros H. unfold Store.set_prop.
  rewrite (bind_Some _ _ _ _ _ (load_Some _ _ _ H)).
  now apply write_Some with (c := Store.CObj props).
Qed.

Lemma elements_of_Some l elems st :
  Store.heap st !! l = Some (Store.CArr elems) ->
  Store.elements_of (Store.VRef l) st = Some (elems, st).
Proof.
  intros H. unfold Store.elements_of.
  now rewrite (bind_Some _ _ _ _ _ (load_Some _ _ _ H)).
Qed.

Lemma index_Some l elems i st :
  Store.heap st !! l = Some (Store.CArr elems) ->
  Store.index (Store.VRef l) i st
  = Some (default Store.VUndefined (elems !! i), st).
Proof.
  intros H. unfold Store.index.
  now rewrite (bind_Some _ _ _ _ _ (elements_of_Some _ _ _ H)).
Qed.

Lemma push_Some l elems v st :
  Store.heap st !! l = Some (Store.CArr elems) ->
  Store.push (Store.VRef l) v st
  = Some (tt, Store.mk (<[l := Store.CArr (elems ++ [v])]> (Store.heap st))
                (Store.catalog st)).
Proof.
  intros H. unfold Store.push.
  rewrite (bind_Some _ _ _ _ _ (elements_of_Some _ _ _ H)).
  now apply write_Some with (c := Store.CArr elems).
Qed.

(** *** Catalog getters *)

Lemma catalog_step_refl st : Store.catalog_step st st.
Proof. split_and!; [reflexivity | reflexivity | auto | auto]. Qed.

Lemma catalog_step_trans st1 st2 st3 :
  Store.catalog_step st1 st2 -> Store.catalog_step st2 st3 ->
  Store.catalog_step st1 st3.
Proof.
  intros (H1 & M1 & W1 & C1) (H2 & M2 & W2 & C2). split_and!.
  - now transitivity (Store.heap st2).
  - now transitivity (Store.catalog st2).
  - auto.
  - intros l Hl. destruct (C2 l Hl) as [Hin | Hnew].
    + apply C1, Hin.
    + right. intros Hd. apply Hnew.
      apply subseteq_dom in H1. set_solver.
Qed.

Lemma literal_alloc (c : Store.cell) (st : Store.store) :
  exists l st',
    Store.literal c st = Some (Store.VRef l, st')
    /\ (l ∉ dom (Store.heap st))
    /\ Store.heap st' = <[l := c]> (Store.heap st)
    /\ Store.catalog st' = {[l]} ∪ Store.catalog st.
Proof.
  destruct (alloc_Some c st) as (l & Ha & Hl).
  eexists l, _. unfold Store.literal.
  rewrite (bind_Some _ _ _ _ _ Ha).
  split_and!; [reflexivity | assumption | reflexivity | reflexivity].
Qed.

Lemma literal_Some (c : Store.cell) (st : Store.store) :
  exists l st',
    Store.literal c st = Some (Store.VRef l, st')
    /\ (l ∉ dom (Store.heap st))
    /\ Store.heap st' !! l = Some c
    /\ (l ∈ Store.catalog st')
    /\ Store.catalog_step st st'.
Proof.
  destruct (literal_alloc c st) as (l & st' & Hlit & Hl & Hh & Hc).
  exists l, st'. split_and!; [assumption | assumption | | |].
  - rewrite Hh. apply lookup_insert_eq.
  - rewrite Hc. set_solver.
  - unfold Store.catalog_step, Store.wf in *. rewrite Hh, Hc. split_and!.
    + apply insert_subseteq. now apply not_elem_of_dom.
    + set_solver.
    + intros Hwf. rewrite dom_insert_L. set_solver.
    + intros l' Hl'. set_solver.
Qed.

Lemma mapM_read_string (l : list string) :
  mapM Store.read_string (map Store.VStr l) = Some l.
Proof.
  apply mapM_Some. induction l; constructor; [reflexivity | assumption].
Qed.

Lemma read_strings_literal (l : list string) (st : Store.store) :
  exists a st',
    Store.literal (Store.string_array l) st = Some (Store.VRef a, st')
    /\ (a ∉ dom (Store.heap st))
    /\ Store.heap st ⊆ Store.heap st'
    /\ Store.read_strings (Store.heap st') (Store.VRef a) = Some l.
Proof.
  destruct (literal_alloc (Store.string_array l) st)
    as (a & st' & Hlit & Hnew & Hh & _).
  exists a, st'. split_and!; [assumption | assumption | |].
  - rewrite Hh. apply insert_subseteq. now apply not_elem_of_dom.
  - unfold Store.read_strings. rewrite Hh, lookup_insert_eq.
    apply mapM_read_string.
Qed.

Lemma read_table_literal (t : list (string * string)) (st : Store.store) :
  exists a st',
    Store.literal (Store.string_table t) st = Some (Store.VRef a, st')
    /\ (a ∉ dom (Store.heap st))
    /\ Store.heap st ⊆ Store.heap st'
    /\ Store.read_table (Store.heap st') (Store.VRef a) = Some t.
Proof.
  destruct (literal_alloc (Store.string_table t) st)
    as (a & st' & Hlit & Hnew & Hh & _).
  exists a, st'. split_and!; [assumption | assumption | |].
  - rewrite Hh. apply insert_subseteq. now apply not_elem_of_dom.
  - unfold Store.read_table. rewrite Hh, lookup_insert_eq. apply mapM_Some.
    clear. induction t as [|[k v] t IH]; cbn [map]; constructor;
      [reflexivity | exact IH].
Qed.

Lemma map_M_literal {A} (f : A -> Store.cell) (l : list A) (st : Store.store) :
  exists ls st',
    Store.map_M (fun x => Store.literal (f x)) l st
    = Some (map Store.VRef ls, st')
    /\ Store.catalog_step st st'
    /\ Forall2 (fun a x => Store.heap st' !! a = Some (f x)) ls l
    /\ NoDup ls
    /\ (forall a, a ∈ ls ->
          (a ∉ dom (Store.heap st)) /\ (a ∈ Store.catalog st')).
Proof.
  revert st. induction l as [|x l IH]; intros st.
  - exists [], st. split_and!.
    + reflexivity.
    + apply catalog_step_refl.
    + constructor.
    + constructor.
    + intros a Ha. inversion Ha.
  - destruct (literal_Some (f x) st)
      as (a & st1 & Hlit & Hnew & Ha1 & Hc & Hstep).
    destruct (IH st1) as (ls & st2 & Hmap & Hstep2 & Hcells & Hnd & Hls).
    exists (a :: ls), st2. cbn [Store.map_M].
    rewrite (bind_Some _ _ _ _ _ Hlit), (bind_Some _ _ _ _ _ Hmap).
    assert (Hdom : dom (Store.heap st) ⊆ dom (Store.heap st1))
      by (apply subseteq_dom, Hstep).
    split_and!.
    + reflexivity.
    + eapply catalog_step_trans; eassumption.
    + constructor; [|assumption].
      destruct Hstep2 as (Hsub & _).
      eapply lookup_weaken; eassumption.
    + constructor; [|assumption].
      intros Hin. apply Hls in Hin as [Hin _]. apply Hin.
      apply elem_of_dom. eauto.
    + intros a' Ha'. apply elem_of_cons in Ha' as [-> | Ha'].
      * split; [assumption|].
        destruct Hstep2 as (_ & Hmono & _). now apply Hmono.
      * apply Hls in Ha' as [Hn Hc']. split; [set_solver | assumption].
Qed.

Lemma get_CARDS_Some (st : Store.store) :
  exists a st',
    Store.get_CARDS st = Some (Store.VRef a, st')
    /\ Store.catalog_step st st'
    /\ (a ∉ dom (Store.heap st))
    /\ Store.heap st' !! a = Some (Store.string_array CARDS).
Proof.
  destruct (literal_Some (Store.string_array CARDS) st)
    as (a & st' & Hlit & Hnew & Ha & _ & Hstep).
  exists a, st'. auto.
Qed.

Lemma get_SUITS_Some (st : Store.store) :
  exists a ls st',
    Store.get_SUITS st = Some (Store.VRef a, st')
    /\ Store.catalog_step st st'
    /\ Store.heap st' !! a = Some (Store.CArr (map Store.VRef ls))
    /\ Forall2 (fun l s =>
                  Store.heap st' !! l = Some (Store.CObj (Store.suit_props s)))
         ls SUITS
    /\ NoDup (a :: ls)
    /\ (forall l, l ∈ a :: ls ->
          (l ∉ dom (Store.heap st)) /\ (l ∈ Store.catalog st')).
Proof.
  destruct (map_M_literal (fun s => Store.CObj (Store.suit_props s)) SUITS st)
    as (ls & st1 & Hmap & Hstep1 & Hcells & Hnd & Hls).
  destruct (literal_Some (Store.CArr (map Store.VRef ls)) st1)
    as (a & st2 & Hlit & Hnew & Ha & Hc & Hstep2).
  exists a, ls, st2. unfold Store.get_SUITS.
  rewrite (bind_Some _ _ _ _ _ Hmap).
  pose proof (subseteq_dom _ _ (proj1 Hstep1)) as Hdom.
  split_and!.
  - exact Hlit.
  - eapply catalog_step_trans; eassumption.
  - exact Ha.
  - eapply Forall2_impl; [exact Hcells|]. cbn. intros l s Hl.
    eapply lookup_weaken; [exact Hl | apply Hstep2].
  - constructor; [|assumption]. intros Hin. apply Hnew.
    rewrite Forall2_lookup in Hcells.
    apply list_elem_of_lookup in Hin as [i Hi].
    specialize (Hcells i). rewrite Hi in Hcells.
    inversion Hcells as [? ? Hl|]; subst. apply elem_of_dom. eauto.
  - intros l Hl. apply elem_of_cons in Hl as [-> | Hl].
    + split; [set_solver | assumption].
    + apply Hls in Hl as [Hn Hc']. split; [assumption|].
      now apply (proj1 (proj2 Hstep2)).
Qed.

(** *** The instance under construction *)

Lemma elem_of_own this deck items l :
  l ∈ Store.own this deck items
  <-> l = this \/ l = deck
      \/ exists it, it ∈ items /\ (l = Store.card_loc it \/ l = Store.suit_loc it).
Proof.
  unfold Store.own. rewrite !elem_of_cons. split.
  - intros [-> | [-> | H]]; auto. right. right.
    apply list_elem_of_In, in_flat_map in H as (it & Hit & Hl).
    exists it. split; [now apply list_elem_of_In|].
    cbn in Hl. intuition auto.
  - intros [-> | [-> | (it & Hit & Hl)]]; auto. right. right.
    apply list_elem_of_In, in_flat_map. exists it.
    split; [now apply list_elem_of_In|]. cbn. intuition auto.
Qed.

Lemma own_snoc this deck items it :
  Store.own this deck (items ++ [it])
  = Store.own this deck items ++ [Store.card_loc it; Store.suit_loc it].
Proof.
  unfold Store.own. rewrite flat_map_app. reflexivity.
Qed.

Lemma own_in_dom st0 this deck items n st l :
  Store.building st0 this deck items n st ->
  l ∈ Store.own this deck items -> l ∈ dom (Store.heap st).
Proof.
  intros [_ _ Ht Hd Hi _ _] Hl. rewrite elem_of_own in Hl.
  rewrite Forall_forall in Hi.
  destruct Hl as [-> | [-> | (it & Hit & [-> | ->])]];
    apply elem_of_dom; eauto.
  - destruct (Hi it Hit) as [H _]. eauto.
  - destruct (Hi it Hit) as [_ H]. eauto.
Qed.

Lemma building_catalog_step st0 this deck items n st st' :
  Store.building st0 this deck items n st ->
  Store.catalog_step st st' ->
  Store.building st0 this deck items n st'.
Proof.
  intros Hb (Hsub & Hmono & Hwf & Hnew).
  assert (Hdom : forall l, l ∈ Store.own this deck items ->
                           l ∈ dom (Store.heap st))
    by (intros l; now apply (own_in_dom _ _ _ _ _ _ l Hb)).
  destruct Hb as [Hold Hw Ht Hd Hi Hnd Hown]. constructor.
  - now transitivity (Store.heap st).
  - auto.
  - eapply lookup_weaken; eassumption.
  - eapply lookup_weaken; eassumption.
  - eapply Forall_impl; [exact Hi|]. cbn. intros it [H1 H2].
    split; eapply lookup_weaken; eassumption.
  - assumption.
  - rewrite Forall_forall in Hown |- *. intros l Hl.
    destruct (Hown l Hl) as [H0 Hc]. split; [assumption|].
    intros Hc'. destruct (Hnew l Hc') as [|Hn]; [contradiction|].
    apply Hn, Hdom, Hl.
Qed.

Lemma building_set_id st0 this deck items n n' st :
  Store.building st0 this deck items n st ->
  Store.building st0 this deck items n'
    (Store.mk
       (<[this := Store.CObj [("deck", Store.VRef deck);
                              ("id", Store.VNum n')]%string]> (Store.heap st))
       (Store.catalog st)).
Proof.
  intros [Hold Hw Ht Hd Hi Hnd Hown].
  pose proof Hnd as Hnd'. unfold Store.own in Hnd'.
  apply NoDup_cons in Hnd' as [Hthis _]. fold (Store.own this deck items) in Hnd.
  assert (Hother : forall it, it ∈ items ->
                     Store.card_loc it <> this /\ Store.suit_loc it <> this).
  { intros it Hit. split; intros E; apply Hthis; right;
      apply list_elem_of_In, in_flat_map; exists it;
      (split; [now apply list_elem_of_In|]); rewrite E; cbn; auto. }
  constructor; cbn [Store.heap Store.catalog].
  - apply insert_subseteq_r; [|assumption].
    apply Forall_inv in Hown as [H0 _]. now apply not_elem_of_dom.
  - unfold Store.wf in *. cbn. rewrite dom_insert_L. set_solver.
  - apply lookup_insert_eq.
  - rewrite lookup_insert_ne by (intros ->; apply Hthis; now left). exact Hd.
  - rewrite Forall_forall in Hi |- *. intros it Hit.
    destruct (Hi it Hit) as [H1 H2]. destruct (Hother it Hit) as [N1 N2].
    rewrite !lookup_insert_ne by congruence. auto.
  - assumption.
  - assumption.
Qed.

Lemma building_add st0 this deck items n st (lc ls : Store.loc) (c : Card.t) :
  Store.building st0 this deck items n st ->
  ls ∉ dom (Store.heap st) ->
  lc ∉ dom (Store.heap st) ->
  lc <> ls ->
  Store.building st0 this deck (items ++ [Store.Item lc ls c]) n
    (Store.mk
       (<[deck := Store.CArr
                    (map (fun it => Store.VRef (Store.card_loc it)) items
                     ++ [Store.VRef lc])]>
          (<[lc := Store.card_cell c ls]>
             (<[ls := Store.CObj (Store.suit_props (Card.suit c))]>
                (Store.heap st))))
       (Store.catalog st)).
Proof.
  intros Hb Hls Hlc Hne.
  assert (Hdom : forall l, l ∈ Store.own this deck items ->
                           l ∈ dom (Store.heap st))
    by (intros l; now apply (own_in_dom _ _ _ _ _ _ l Hb)).
  destruct Hb as [Hold Hw Ht Hd Hi Hnd Hown].
  assert (Hnew : forall l, l ∈ Store.own this deck items -> l <> lc /\ l <> ls).
  { intros l Hl. apply Hdom in Hl. split; intros ->; contradiction. }
  assert (Hdeck : deck ∈ Store.own this deck items)
    by (apply elem_of_own; auto).
  assert (Hthis : this ∈ Store.own this deck items)
    by (apply elem_of_own; auto).
  assert (Hdt : this <> deck).
  { unfold Store.own in Hnd. apply NoDup_cons in Hnd as [Hn _].
    intros ->. apply Hn. now left. }
  assert (Hitems : forall it, it ∈ items ->
            Store.card_loc it ∈ Store.own this deck items
            /\ Store.suit_loc it ∈ Store.own this deck items).
  { intros it Hit. split; apply elem_of_own; right; right; eauto. }
  assert (Hdeck_other : forall it, it ∈ items ->
            Store.card_loc it <> deck /\ Store.suit_loc it <> deck).
  { unfold Store.own in Hnd. apply NoDup_cons in Hnd as [_ Hnd].
    apply NoDup_cons in Hnd as [Hn _].
    intros it Hit. split; intros E; apply Hn;
      apply list_elem_of_In, in_flat_map; exists it;
      (split; [now apply list_elem_of_In|]); rewrite E; cbn; auto. }
  constructor; cbn [Store.heap Store.catalog].
  - pose proof (subseteq_dom _ _ Hold) as Hd0.
    rewrite Forall_forall in Hown.
    apply insert_subseteq_r; [apply not_elem_of_dom, (Hown deck Hdeck)|].
    apply insert_subseteq_r; [apply not_elem_of_dom; set_solver|].
    apply insert_subseteq_r; [apply not_elem_of_dom; set_solver|].
    assumption.
  - unfold Store.wf in *. cbn. rewrite !dom_insert_L. set_solver.
  - destruct (Hnew this Hthis).
    rewrite !lookup_insert_ne by congruence. exact Ht.
  - rewrite lookup_insert_eq, map_app. reflexivity.
  - apply Forall_app. split.
    + rewrite Forall_forall in Hi |- *. intros it Hit.
      destruct (Hi it Hit) as [H1 H2].
      destruct (Hitems it Hit) as [I1 I2].
      destruct (Hnew _ I1), (Hnew _ I2), (Hdeck_other it Hit).
      rewrite !lookup_insert_ne by congruence. auto.
    + constructor; [|constructor]. cbn [Store.card_loc Store.suit_loc Store.card_of].
      destruct (Hnew deck Hdeck).
      rewrite (lookup_insert_ne _ deck lc) by congruence.
      rewrite lookup_insert_eq.
      rewrite (lookup_insert_ne _ deck ls) by congruence.
      rewrite (lookup_insert_ne _ lc ls) by congruence.
      rewrite lookup_insert_eq. auto.
  - rewrite own_snoc. apply NoDup_app. split_and!; [assumption | |].
    + intros l Hl Hin. destruct (Hnew l Hl).
      cbn in Hin. rewrite !elem_of_cons, elem_of_nil in Hin. tauto.
    + cbn. apply NoDup_cons. split; [|apply NoDup_singleton].
      rewrite elem_of_cons, elem_of_nil. intuition.
  - rewrite own_snoc. apply Forall_app. split; [assumption|].
    pose proof (subseteq_dom _ _ Hold) as Hd0. unfold Store.wf in Hw.
    cbn. repeat constructor; set_solver.
Qed.

(** *** One round of the inner loop *)

Lemma fill_card_pure (j i : nat) (s : Suit.t) (v : string) cards (n : Z) :
  SUITS !! j = Some s -> CARDS !! i = Some v ->
  fill_card j i (Deck.mk cards n)
  = Deck.mk (cards ++ [Card.mk n v (Z.of_nat i + 1) (spread s)]) (n + 1).
Proof. intros Hs Hv. unfold fill_card. now rewrite Hs, Hv. Qed.

Lemma push_new_card st0 this deck items n st (j i : nat) s v :
  Store.building st0 this deck items n st ->
  SUITS !! j = Some s -> CARDS !! i = Some v ->
  exists lc ls st',
    (d ← Store.get_prop (Store.VRef this) "deck";
     card ← Store.new_card (Store.VRef this) j i;
     Store.push d card) st
    = Some (tt, st')
    /\ Store.building st0 this deck
         (items ++ [Store.Item lc ls (Card.mk n v (Z.of_nat i + 1) (spread s))])
         (n + 1) st'.
Proof.
  intros Hb Hs Hv. unfold Store.new_card.
  (* this.deck, this.id++ *)
  run (get_prop_Some _ _ "deck"%string _ (Store.building_this _ _ _ _ _ _ Hb)).
  run (get_prop_Some _ _ "id"%string _ (Store.building_this _ _ _ _ _ _ Hb)).
  cbn [assoc String.eqb Ascii.eqb Bool.eqb default from_option id].
  run (set_prop_Some _ _ "id"%string (Store.VNum (n + 1)) _
         (Store.building_this _ _ _ _ _ _ Hb)).
  cbn [Store.update_prop String.eqb Ascii.eqb Bool.eqb].
  apply (building_set_id _ _ _ _ _ (n + 1)) in Hb.
  (* Deck.CARDS[i] *)
  match goal with
  | |- context [Store.get_CARDS ?st1] =>
      destruct (get_CARDS_Some st1) as (a & st2 & Hget & Hstep & _ & Ha)
  end.
  run Hget.
  apply (building_catalog_step _ _ _ _ _ _ _ Hb) in Hstep. clear Hb Hget.
  run (index_Some _ _ i _ Ha).
  unfold Store.string_array. rewrite list_lookup_fmap, Hv.
  cbn [fmap option_fmap option_map default from_option id].
  (* Deck.SUITS[j] and its copy *)
  destruct (get_SUITS_Some st2)
    as (b & ls4 & st3 & Hget & Hstep3 & Hb3 & Hcells & _ & _).
  run Hget.
  apply (building_catalog_step _ _ _ _ _ _ _ Hstep) in Hstep3.
  clear Hstep Hget Ha.
  run (index_Some _ _ j _ Hb3).
  destruct (Forall2_lookup_r _ _ _ _ _ Hcells Hs) as (lj & Hlj & Hcell).
  rewrite list_lookup_fmap, Hlj.
  cbn [fmap option_fmap option_map default from_option id].
  unfold Store.spread. run (load_Some _ _ _ Hcell).
  destruct (alloc_Some (Store.CObj (Store.suit_props s)) st3)
    as (ls & Hls & Hnew_s).
  run Hls.
  (* the card, pushed *)
  match goal with
  | |- context [Store.alloc ?c ?st'] =>
      destruct (alloc_Some c st') as (lc & Hlc & Hnew_c)
  end.
  run Hlc.
  cbn [Store.heap Store.catalog] in Hnew_c.
  rewrite dom_insert_L in Hnew_c.
  assert (lc <> ls /\ lc ∉ dom (Store.heap st3)) as [Hne Hnew_c'] by set_solver.
  pose proof (Store.building_deck _ _ _ _ _ _ Hstep3) as Hd.
  assert (Hdd : deck ∈ dom (Store.heap st3)) by (apply elem_of_dom; eauto).
  erewrite push_Some; cycle 1.
  { cbn [Store.heap]. rewrite !lookup_insert_ne by set_solver. exact Hd. }
  exists lc, ls. eexists. split; [reflexivity|].
  cbn [Store.heap Store.catalog].
  apply (building_add _ _ _ _ _ _ lc ls
           (Card.mk n v (Z.of_nat i + 1) (spread s)) Hstep3);
    assumption.
Qed.

(** *** The two loops *)

Lemma length_of_get_CARDS (st : Store.store) :
  exists st',
    Store.length_of Store.get_CARDS st = Some (length CARDS, st')
    /\ Store.catalog_step st st'.
Proof.
  destruct (get_CARDS_Some st) as (a & st' & Hget & Hstep & _ & Ha).
  exists st'. split; [|assumption]. unfold Store.length_of.
  run Hget. run (elements_of_Some _ _ _ Ha).
  unfold Store.string_array. now rewrite length_map.
Qed.

Lemma length_of_get_SUITS (st : Store.store) :
  exists st',
    Store.length_of Store.get_SUITS st = Some (length SUITS, st')
    /\ Store.catalog_step st st'.
Proof.
  destruct (get_SUITS_Some st) as (a & ls & st' & Hget & Hstep & Ha & Hcells & _).
  exists st'. split; [|assumption]. unfold Store.length_of.
  run Hget. run (elements_of_Some _ _ _ Ha).
  now rewrite length_map, (Forall2_length _ _ _ Hcells).
Qed.

(** A loop keeps what every test of the bound and every round keep. *)
Lemma for_loop_rule (P : nat -> Store.store -> Prop) (bound : Store.M nat)
    (body : nat -> Store.M unit) (N : nat) :
  (forall k st, P k st -> exists st', bound st = Some (N, st') /\ P k st') ->
  (forall k st, (k < N)%nat -> P k st ->
                exists st', body k st = Some (tt, st') /\ P (S k) st') ->
  forall (m k fuel : nat) st,
    (k + m = N)%nat -> (m < fuel)%nat -> P k st ->
    exists st', Store.for_loop fuel bound body k st = Some (tt, st') /\ P N st'.
Proof.
  intros Hbound Hbody.
  induction m as [|m IH]; intros k fuel st Hk Hfuel HP;
    (destruct fuel as [|fuel]; [lia|]); cbn [Store.for_loop];
    destruct (Hbound k st HP) as (st1 & Hlen & HP1); run Hlen.
  - destruct (Nat.ltb_spec k N); [lia|].
    exists st1. replace N with k by lia. auto.
  - destruct (Nat.ltb_spec k N); [|lia].
    destruct (Hbody k st1 ltac:(assumption) HP1) as (st2 & Hb & HP2).
    run Hb. apply (IH (S k) fuel st2); [lia | lia | assumption].
Qed.

Section Loops.

Variables (st0 : Store.store) (this deck : Store.loc).

Lemma inner_loop (j : nat) (s : Suit.t) (d : Deck.t) (st : Store.store) :
  SUITS !! j = Some s ->
  Store.filling st0 this deck d st ->
  exists st',
    Store.for_loop 14 (Store.length_of Store.get_CARDS)
      (fun i =>
         d ← Store.get_prop (Store.VRef this) "deck";
         card ← Store.new_card (Store.VRef this) j i;
         Store.push d card) 0%nat st
    = Some (tt, st')
    /\ Store.filling st0 this deck
         (for_upto (length CARDS) (fun i => fill_card j i) d) st'.
Proof.
  intros Hs Hd.
  apply (for_loop_rule
           (fun k st =>
              Store.filling st0 this deck
                (for_upto k (fun i => fill_card j i) d) st)
           _ _ (length CARDS)) with (m := length CARDS) (k := 0%nat);
    [| | reflexivity | cbn; lia | exact Hd].
  - intros k st1 (items & n & Hb & Hpure).
    destruct (length_of_get_CARDS st1) as (st2 & Hlen & Hstep).
    exists st2. split; [assumption|]. exists items, n.
    split; [|assumption]. eapply building_catalog_step; eassumption.
  - intros k st1 Hk (items & n & Hb & Hpure).
    destruct (lookup_lt_is_Some_2 CARDS k) as [v Hv]; [assumption|].
    destruct (push_new_card _ _ _ _ _ _ j k s v Hb Hs Hv)
      as (lc & ls & st2 & Hbody & Hb2).
    exists st2. split; [assumption|]. eexists _, _. split; [exact Hb2|].
    unfold for_upto in *. rewrite seq_S, fold_left_app. cbn [fold_left].
    rewrite <- Hpure, (fill_card_pure j k s v) by assumption.
    now rewrite map_app.
Qed.

Lemma outer_loop (d : Deck.t) (st : Store.store) :
  Store.filling st0 this deck d st ->
  exists st',
    Store.for_loop 5 (Store.length_of Store.get_SUITS)
      (fun j =>
         Store.for_loop 14 (Store.length_of Store.get_CARDS)
           (fun i =>
              d ← Store.get_prop (Store.VRef this) "deck";
              card ← Store.new_card (Store.VRef this) j i;
              Store.push d card) 0%nat) 0%nat st
    = Some (tt, st')
    /\ Store.filling st0 this deck (fill d) st'.
Proof.
  intros Hd.
  apply (for_loop_rule
           (fun k st =>
              Store.filling st0 this deck
                (for_upto k
                   (fun j => for_upto (length CARDS) (fun i => fill_card j i))
                   d) st)
           _ _ (length SUITS)) with (m := length SUITS) (k := 0%nat);
    [| | reflexivity | cbn; lia | exact Hd].
  - intros k st1 (items & n & Hb & Hpure).
    destruct (length_of_get_SUITS st1) as (st2 & Hlen & Hstep).
    exists st2. split; [assumption|]. exists items, n.
    split; [|assumption]. eapply building_catalog_step; eassumption.
  - intros k st1 Hk Hfill.
    destruct (lookup_lt_is_Some_2 SUITS k) as [s Hs]; [assumption|].
    destruct (inner_loop k s _ st1 Hs Hfill) as (st2 & Hbody & Hfill2).
    exists st2. split; [assumption|].
    unfold for_upto at 1. rewrite seq_S, fold_left_app. exact Hfill2.
Qed.

End Loops.

(** *** Reading an instance back *)

Lemma read_suit_cell (h : gmap Store.loc Store.cell) (l : Store.loc) (s : Suit.t) :
  h !! l = Some (Store.CObj (Store.suit_props s)) ->
  Store.read_suit h (Store.VRef l) = Some s.
Proof. intros H. unfold Store.read_suit. rewrite H. now destruct s. Qed.

Lemma read_card_cell (h : gmap Store.loc Store.cell) (it : Store.item) :
  h !! Store.card_loc it
  = Some (Store.card_cell (Store.card_of it) (Store.suit_loc it)) ->
  h !! Store.suit_loc it
  = Some (Store.CObj (Store.suit_props (Card.suit (Store.card_of it)))) ->
  Store.read_card h (Store.VRef (Store.card_loc it)) = Some (Store.card_of it).
Proof.
  intros Hc Hs. unfold Store.read_card. rewrite Hc.
  cbn [Store.card_cell assoc String.eqb Ascii.eqb Bool.eqb].
  rewrite (read_suit_cell _ _ _ Hs). now destruct (Store.card_of it).
Qed.

(** What is read depends on the cells of the instance only. *)
Lemma read_deck_cells (h : gmap Store.loc Store.cell) this deck items n :
  h !! this
  = Some (Store.CObj [("deck", Store.VRef deck); ("id", Store.VNum n)]%string) ->
  h !! deck
  = Some (Store.CArr (map (fun it => Store.VRef (Store.card_loc it)) items)) ->
  Forall (fun it =>
            h !! Store.card_loc it
            = Some (Store.card_cell (Store.card_of it) (Store.suit_loc it))
            /\ h !! Store.suit_loc it
               = Some (Store.CObj
                         (Store.suit_props (Card.suit (Store.card_of it)))))
    items ->
  Store.read_deck h (Store.VRef this)
  = Some (Deck.mk (map Store.card_of items) n)
  /\ Store.suit_refs h (Store.VRef this)
     = Some (map (fun it => Store.VRef (Store.suit_loc it)) items).
Proof.
  intros Ht Hd Hi. unfold Store.read_deck, Store.suit_refs, Store.read_array.
  rewrite Ht. cbn [assoc String.eqb Ascii.eqb Bool.eqb]. rewrite Hd.
  assert (H1 : mapM (Store.read_card h)
                 (map (fun it => Store.VRef (Store.card_loc it)) items)
               = Some (map Store.card_of items)).
  { apply mapM_Some. clear Hd.
    induction Hi as [|it items [Hc Hs] _ IH]; cbn [map];
      [constructor | constructor; [now apply read_card_cell | exact IH]]. }
  rewrite H1. split; [reflexivity|].
  apply mapM_Some. clear H1 Hd.
  induction Hi as [|it items [Hc Hs] _ IH]; cbn [map];
    [constructor | constructor; [|exact IH]].
  rewrite Hc. reflexivity.
Qed.

Lemma building_read st0 this deck items n st :
  Store.building st0 this deck items n st ->
  Store.read_deck (Store.heap st) (Store.VRef this)
  = Some (Deck.mk (map Store.card_of items) n)
  /\ Store.suit_refs (Store.heap st) (Store.VRef this)
     = Some (map (fun it => Store.VRef (Store.suit_loc it)) items).
Proof. intros [_ _ Ht Hd Hi _ _]. now apply (read_deck_cells _ this deck). Qed.

(** Changing catalog objects, in any way, leaves the instance as it is. *)
Lemma building_frame st0 this deck items n st (h : gmap Store.loc Store.cell) :
  Store.building st0 this deck items n st ->
  (forall l, l ∉ Store.catalog st -> h !! l = Store.heap st !! l) ->
  Store.read_deck h (Store.VRef this)
  = Some (Deck.mk (map Store.card_of items) n)
  /\ Store.suit_refs h (Store.VRef this)
     = Some (map (fun it => Store.VRef (Store.suit_loc it)) items).
Proof.
  intros [_ _ Ht Hd Hi _ Hown] Hh.
  rewrite Forall_forall in Hown.
  assert (Hsame : forall l, l ∈ Store.own this deck items ->
                            h !! l = Store.heap st !! l).
  { intros l Hl. apply Hh. now destruct (Hown l Hl). }
  apply (read_deck_cells h this deck).
  - rewrite Hsame; [assumption | apply elem_of_own; auto].
  - rewrite Hsame; [assumption | apply elem_of_own; auto].
  - rewrite Forall_forall in Hi |- *. intros it Hit.
    destruct (Hi it Hit) as [H1 H2].
    rewrite !Hsame; [auto | |]; apply elem_of_own; right; right; eauto.
Qed.

Lemma building_suits st0 this deck items n st :
  Store.building st0 this deck items n st ->
  NoDup (map Store.suit_loc items)
  /\ forall l, l ∈ map Store.suit_loc items ->
               (l ∉ dom (Store.heap st0)) /\ (l ∉ Store.catalog st).
Proof.
  intros [_ _ _ _ _ Hnd Hown]. split.
  - unfold Store.own in Hnd.
    apply NoDup_cons in Hnd as [_ Hnd]. apply NoDup_cons in Hnd as [_ Hnd].
    clear Hown. induction items as [|it items IH]; [constructor|].
    cbn [flat_map app map] in *.
    apply NoDup_cons in Hnd as [_ Hnd]. apply NoDup_cons in Hnd as [Hn Hnd].
    constructor; [|now apply IH].
    intros Hin. apply Hn. apply list_elem_of_fmap in Hin as (it' & -> & Hit').
    apply list_elem_of_In, in_flat_map. exists it'.
    split; [now apply list_elem_of_In | cbn; auto].
  - rewrite Forall_forall in Hown. intros l Hl. apply Hown.
    apply list_elem_of_fmap in Hl as (it & -> & Hit).
    apply elem_of_own. right. right. eauto.
Qed.

(** *** Shuffling *)

Lemma shuffle_map {A B} (draw : nat -> list nat) (f : A -> B) (l : list A) :
  map f (shuffle draw l) = shuffle draw (map f l).
Proof.
  unfold shuffle. rewrite length_map.
  change (map f) with (fmap (M := list) f). rewrite list_fmap_omap.
  apply list_omap_ext. apply Forall2_same_length_lookup_2; [reflexivity|].
  intros i x y Hx Hy. rewrite Hx in Hy. injection Hy as <-.
  now rewrite list_lookup_fmap.
Qed.

Lemma shuffle_elem_of {A} (draw : nat -> list nat) (l : list A) (x : A) :
  x ∈ shuffle draw l -> x ∈ l.
Proof.
  unfold shuffle. rewrite list_elem_of_omap. intros (i & _ & Hi).
  eapply list_elem_of_lookup_2; eassumption.
Qed.

(** *** The constructor *)

Lemma building_init st0 (this deck : Store.loc) :
  Store.wf st0 ->
  deck ∉ dom (Store.heap st0) ->
  this ∉ dom (Store.heap st0) ->
  this <> deck ->
  Store.building st0 this deck [] 0
    (Store.mk
       (<[this := Store.CObj [("deck", Store.VRef deck);
                              ("id", Store.VNum 0)]%string]>
          (<[deck := Store.CArr []]> (Store.heap st0)))
       (Store.catalog st0)).
Proof.
  intros Hwf Hd Ht Hne. constructor; cbn [Store.heap Store.catalog].
  - apply insert_subseteq_r; [now apply not_elem_of_dom|].
    apply insert_subseteq. now apply not_elem_of_dom.
  - unfold Store.wf in *. cbn. rewrite !dom_insert_L. set_solver.
  - apply lookup_insert_eq.
  - rewrite lookup_insert_ne by congruence. apply lookup_insert_eq.
  - constructor.
  - cbn. apply NoDup_cons. split; [|apply NoDup_singleton].
    rewrite elem_of_cons, elem_of_nil. intuition.
  - unfold Store.wf in Hwf. cbn. repeat constructor; set_solver.
Qed.

Section Shuffled.

Variable draw : nat -> list nat.
Hypothesis draw_Permutation : forall n, Permutation (draw n) (seq 0 n).

Lemma building_shuffle st0 this deck items n st (deck' : Store.loc) :
  Store.building st0 this deck items n st ->
  deck' ∉ dom (Store.heap st) ->
  Store.building st0 this deck' (shuffle draw items) n
    (Store.mk
       (<[this := Store.CObj [("deck", Store.VRef deck');
                              ("id", Store.VNum n)]%string]>
          (<[deck' := Store.CArr
                        (shuffle draw
                           (map (fun it => Store.VRef (Store.card_loc it))
                              items))]>
             (Store.heap st)))
       (Store.catalog st)).
Proof.
  intros Hb Hnew.
  assert (Hdom : forall l, l ∈ Store.own this deck items ->
                           l ∈ dom (Store.heap st))
    by (intros l; now apply (own_in_dom _ _ _ _ _ _ l Hb)).
  destruct Hb as [Hold Hw Ht Hd Hi Hnd Hown].
  pose proof (shuffle_Permutation draw draw_Permutation items) as Hperm.
  assert (Hfresh : forall l, l ∈ Store.own this deck items -> l <> deck').
  { intros l Hl ->. now apply Hnew, Hdom. }
  assert (Hthis : this ∈ Store.own this deck items)
    by (apply elem_of_own; auto).
  assert (Hsub : forall l, l ∈ Store.own this deck' (shuffle draw items) ->
                           l = deck' \/ l ∈ Store.own this deck items).
  { intros l Hl. apply elem_of_own in Hl as [-> | [-> | (it & Hit & Hl)]]; auto.
    right. apply elem_of_own. right. right. exists it.
    split; [now apply (shuffle_elem_of draw) | assumption]. }
  rewrite Forall_forall in Hown.
  unfold Store.own in Hnd. apply NoDup_cons in Hnd as [Hn1 Hnd].
  apply NoDup_cons in Hnd as [Hn2 Hnd].
  assert (Hother : forall it, it ∈ items ->
            Store.card_loc it <> this /\ Store.suit_loc it <> this).
  { intros it Hit. split; intros E; apply Hn1; right;
      apply list_elem_of_In, in_flat_map; exists it;
      (split; [now apply list_elem_of_In|]); rewrite E; cbn; auto. }
  constructor; cbn [Store.heap Store.catalog].
  - apply insert_subseteq_r;
      [apply not_elem_of_dom; now destruct (Hown this Hthis)|].
    apply insert_subseteq_r; [|assumption].
    apply not_elem_of_dom. intros H0. apply Hnew.
    now apply (subseteq_dom _ _ Hold).
  - unfold Store.wf in *. cbn. rewrite !dom_insert_L. set_solver.
  - apply lookup_insert_eq.
  - rewrite lookup_insert_ne by (apply Hfresh, Hthis).
    rewrite lookup_insert_eq. now rewrite shuffle_map.
  - rewrite Forall_forall in Hi |- *. intros it Hit.
    apply (shuffle_elem_of draw) in Hit.
    destruct (Hi it Hit) as [H1 H2]. destruct (Hother it Hit) as [N1 N2].
    assert (Store.card_loc it <> deck' /\ Store.suit_loc it <> deck') as [N3 N4]
      by (split; apply Hfresh, elem_of_own; right; right; eauto).
    rewrite !lookup_insert_ne by congruence. auto.
  - unfold Store.own. apply NoDup_cons. split.
    + rewrite elem_of_cons. intros [E | Hin].
      * now apply (Hfresh this Hthis).
      * apply Hn1. right. rewrite <- Hperm in Hin. exact Hin.
    + apply NoDup_cons. split; [|now rewrite <- Hperm].
      intros Hin. rewrite <- Hperm in Hin.
      apply (Hfresh deck'); [|reflexivity].
      unfold Store.own. right. right. exact Hin.
  - apply Forall_forall. intros l Hl. apply Hsub in Hl as [-> | Hl]; [|auto].
    unfold Store.wf in Hw. pose proof (subseteq_dom _ _ Hold). set_solver.
Qed.

(** The store constructor builds what the value constructor describes, out
    of objects of its own. *)
Lemma constructor_building (preShuffle : bool) (st0 : Store.store) :
  Store.wf st0 ->
  exists this deck items st',
    Store.constructor draw preShuffle st0 = Some (Store.VRef this, st')
    /\ Store.building st0 this deck items
         (Deck.id (constructor draw preShuffle)) st'
    /\ map Store.card_of items = Deck.deck (constructor draw preShuffle).
Proof.
  intros Hwf. unfold Store.constructor.
  destruct (alloc_Some (Store.CArr []) st0) as (deck & Hdeck & Hnew_d).
  run Hdeck.
  match goal with
  | |- context [Store.alloc ?c ?st] =>
      destruct (alloc_Some c st) as (this & Hthis & Hnew_t)
  end.
  run Hthis. cbn [Store.heap] in Hnew_t. rewrite dom_insert_L in Hnew_t.
  assert (this <> deck /\ this ∉ dom (Store.heap st0)) as [Hne Hnew_t']
    by set_solver.
  pose proof (building_init st0 this deck Hwf Hnew_d Hnew_t' Hne) as Hb.
  destruct (outer_loop st0 this deck (Deck.mk [] 0) _
              (ex_intro _ [] (ex_intro _ 0 (conj Hb eq_refl))))
    as (st1 & Hloop & (items & n & Hb1 & Hpure)).
  run Hloop. unfold constructor.
  destruct preShuffle.
  - run (get_prop_Some _ _ "deck"%string _
           (Store.building_this _ _ _ _ _ _ Hb1)).
    cbn [assoc String.eqb Ascii.eqb Bool.eqb default from_option id].
    run (elements_of_Some _ _ _ (Store.building_deck _ _ _ _ _ _ Hb1)).
    match goal with
    | |- context [Store.alloc ?c ?st] =>
        destruct (alloc_Some c st) as (deck' & Hdeck' & Hnew')
    end.
    run Hdeck'.
    erewrite set_prop_Some; cycle 1.
    { cbn [Store.heap]. rewrite lookup_insert_ne.
      - apply (Store.building_this _ _ _ _ _ _ Hb1).
      - intros ->. apply Hnew', elem_of_dom.
        rewrite (Store.building_this _ _ _ _ _ _ Hb1). eauto. }
    cbn [Store.update_prop String.eqb Ascii.eqb Bool.eqb Store.heap
           Store.catalog].
    eexists this, deck', (shuffle draw items), _.
    split; [reflexivity|]. rewrite <- Hpure. cbn [Deck.deck Deck.id]. split.
    + now apply (building_shuffle st0 this deck).
    + apply shuffle_map.
  - eexists this, deck, items, st1. split; [reflexivity|].
    rewrite <- Hpure. cbn [Deck.deck Deck.id]. auto.
Qed.

End Shuffled.

(** *** Fresh copies *)

Lemma fresh_copy_strings (l : list string) :
  Store.fresh_copy (Store.literal (Store.string_array l)) Store.read_strings l.
Proof.
  intros st.
  destruct (literal_alloc (Store.string_array l) st)
    as (a & st' & Hlit & Hnew & Hh & _).
  exists a, st'. split_and!; [assumption | assumption | |].
  - rewrite Hh. apply insert_subseteq. now apply not_elem_of_dom.
  - intros h Hsame. unfold Store.read_strings.
    rewrite (Hsame a Hnew), Hh, lookup_insert_eq. apply mapM_read_string.
Qed.

Lemma fresh_copy_table (t : list (string * string)) :
  Store.fresh_copy (Store.literal (Store.string_table t)) Store.read_table t.
Proof.
  intros st.
  destruct (literal_alloc (Store.string_table t) st)
    as (a & st' & Hlit & Hnew & Hh & _).
  exists a, st'. split_and!; [assumption | assumption | |].
  - rewrite Hh. apply insert_subseteq. now apply not_elem_of_dom.
  - intros h Hsame. unfold Store.read_table.
    rewrite (Hsame a Hnew), Hh, lookup_insert_eq. apply mapM_Some.
    clear. induction t as [|[k v] t IH]; cbn [map]; constructor;
      [reflexivity | exact IH].
Qed.

Lemma fresh_copy_SUITS :
  Store.fresh_copy Store.get_SUITS
    (fun h => Store.read_array (Store.read_suit h) h) SUITS.
Proof.
  intros st.
  destruct (get_SUITS_Some st)
    as (a & ls & st' & Hget & Hstep & Ha & Hcells & Hnd & Hnew).
  exists a, st'. split_and!.
  - assumption.
  - apply Hnew. now left.
  - apply Hstep.
  - intros h Hsame. unfold Store.read_array.
    rewrite (Hsame a), Ha by (apply Hnew; now left).
    apply mapM_Some.
    assert (Hls : forall l, l ∈ ls -> l ∉ dom (Store.heap st))
      by (intros l Hl; apply Hnew; now right).
    clear Ha Hnd Hnew. induction Hcells as [|l s ls ss Hl _ IH]; cbn [map];
      constructor.
    + apply read_suit_cell. rewrite Hsame; [assumption|].
      apply Hls. now left.
    + apply IH. intros l' Hl'. apply Hls. now right.
Qed.

Lemma wf_empty : Store.wf (Store.mk ∅ ∅).
Proof. unfold Store.wf. cbn. apply empty_subseteq. Qed.

Section Copies.

Variable draw : nat -> list nat.
Hypothesis draw_Permutation : forall n, Permutation (draw n) (seq 0 n).

(** C9.  Every catalog getter returns, at every call, a new object that
    holds the catalog data and shares nothing with the objects there were
    before the call, so changing a value returned earlier changes nothing
    about a later one.  The suit object of each card of a new deck is a new
    object that belongs to this card alone and that no getter has returned
    or will return: however catalog objects are changed, the deck reads the
    same. *)
Theorem catalog_copies :
  Store.fresh_copy Store.get_CARDS Store.read_strings CARDS
  /\ Store.fresh_copy Store.get_CARDS_TEXT Store.read_table CARDS_TEXT
  /\ Store.fresh_copy Store.get_SUITS
       (fun h => Store.read_array (Store.read_suit h) h) SUITS
  /\ Store.fresh_copy Store.get_SUITS_COLOR Store.read_strings SUITS_COLOR
  /\ Store.fresh_copy Store.get_SUITS_UTF Store.read_strings SUITS_UTF
  /\ Store.fresh_copy Store.get_SUITS_TEXT Store.read_table SUITS_TEXT
  /\ forall (preShuffle : bool) (st : Store.store),
       Store.wf st ->
       exists this st' suits,
         Store.constructor draw preShuffle st = Some (Store.VRef this, st')
         /\ Store.read_deck (Store.heap st') (Store.VRef this)
            = Some (constructor draw preShuffle)
         /\ Store.suit_refs (Store.heap st') (Store.VRef this)
            = Some (map Store.VRef suits)
         /\ NoDup suits
         /\ (forall l, l ∈ suits ->
               (l ∉ dom (Store.heap st)) /\ (l ∉ Store.catalog st'))
         /\ forall h,
              (forall l, l ∉ Store.catalog st' ->
                         h !! l = Store.heap st' !! l) ->
              Store.read_deck h (Store.VRef this)
              = Some (constructor draw preShuffle).
Proof.
  split_and!.
  - apply fresh_copy_strings.
  - apply fresh_copy_table.
  - apply fresh_copy_SUITS.
  - apply fresh_copy_strings.
  - apply fresh_copy_strings.
  - apply fresh_copy_table.
  - intros preShuffle st Hwf.
    destruct (constructor_building draw draw_Permutation preShuffle st Hwf)
      as (this & deck & items & st' & Hrun & Hb & Hcards).
    exists this, st', (map Store.suit_loc items).
    destruct (building_read _ _ _ _ _ _ Hb) as [Hread Hsuits].
    destruct (building_suits _ _ _ _ _ _ Hb) as [Hnd Hnew].
    assert (Hd : Deck.mk (map Store.card_of items)
                   (Deck.id (constructor draw preShuffle))
                 = constructor draw preShuffle)
      by (rewrite Hcards; now destruct (constructor draw preShuffle)).
    rewrite Hd in Hread. split_and!; try assumption.
    + rewrite Hsuits. now rewrite map_map.
    + intros h Hh. rewrite <- Hd.
      now apply (building_frame _ _ _ _ _ _ h Hb).
Qed.

End Copies.

Lemma catalog_copies_witness :
  exists this st' suits,
    Store.constructor (fun n => rev (seq 0 n)) true (Store.mk ∅ ∅)
    = Some (Store.VRef this, st')
    /\ Store.read_deck (Store.heap st') (Store.VRef this)
       = Some (constructor (fun n => rev (seq 0 n)) true)
    /\ Store.suit_refs (Store.heap st') (Store.VRef this)
       = Some (map Store.VRef suits)
    /\ NoDup suits
    /\ (forall l, l ∈ suits ->
          (l ∉ dom (Store.heap (Store.mk ∅ ∅))) /\ (l ∉ Store.catalog st'))
    /\ forall h,
         (forall l, l ∉ Store.catalog st' -> h !! l = Store.heap st' !! l) ->
         Store.read_deck h (Store.VRef this)
         = Some (constructor (fun n => rev (seq 0 n)) true).
Proof.
  apply (catalog_copies (fun n => rev (seq 0 n)) reversed_Permutation).
  apply wf_empty.
Defined.

(** *** Sorting an array in place *)

Lemma insert_sorted_Forall2 {A B} (R : A -> B -> Prop) (ka : A -> Z)
    (kb : B -> Z) :
  (forall a b, R a b -> ka a = kb b) ->
  forall x y l1 l2,
    R x y -> Forall2 R l1 l2 ->
    Forall2 R (insert_sorted (fun a b => ka b - ka a) x l1)
      (insert_sorted (fun a b => kb b - kb a) y l2).
Proof.
  intros Hkey x y l1 l2 Hxy Hl.
  induction Hl as [|a b l1 l2 Hab Hl IH]; cbn [insert_sorted].
  - repeat constructor. exact Hxy.
  - rewrite (Hkey _ _ Hxy), (Hkey _ _ Hab).
    destruct (0 <? kb b - kb y); repeat constructor; assumption.
Qed.

Lemma Array_sort_Forall2 {A B} (R : A -> B -> Prop) (ka : A -> Z)
    (kb : B -> Z) :
  (forall a b, R a b -> ka a = kb b) ->
  forall l1 l2,
    Forall2 R l1 l2 ->
    Forall2 R (Array_sort (fun a b => ka b - ka a) l1)
      (Array_sort (fun a b => kb b - kb a) l2).
Proof.
  intros Hkey l1 l2 Hl. induction Hl as [|a b l1 l2 Hab Hl IH];
    cbn [Array_sort foldr]; [constructor|].
  now apply insert_sorted_Forall2.
Qed.

Lemma read_card_rank (h : gmap Store.loc Store.cell) (v : Store.val) (c : Card.t) :
  Store.read_card h v = Some c ->
  exists l props,
    v = Store.VRef l /\ h !! l = Some (Store.CObj props)
    /\ assoc "rank" props = Some (Store.VNum (Card.rank c)).
Proof.
  unfold Store.read_card. intros H.
  destruct v as [| | |l]; try discriminate.
  destruct (h !! l) as [[props|]|] eqn:Hl; try discriminate.
  exists l, props. split_and!; [reflexivity | exact Hl |].
  destruct (assoc "id" props) as [[]|]; try discriminate.
  destruct (assoc "value" props) as [[]|]; try discriminate.
  destruct (assoc "rank" props) as [[]|]; try discriminate.
  destruct (assoc "suit" props); try discriminate.
  destruct (Store.read_suit h _); try discriminate.
  cbn in H. injection H as <-. reflexivity.
Qed.

Lemma rank_of_Some (st : Store.store) (v : Store.val) (c : Card.t) :
  Store.read_card (Store.heap st) v = Some c ->
  Store.rank_of v st = Some (Card.rank c, st).
Proof.
  intros H. apply read_card_rank in H as (l & props & -> & Hl & Hr).
  unfold Store.rank_of. run (get_prop_Some _ _ "rank"%string _ Hl).
  now rewrite Hr.
Qed.

Lemma map_M_rank_of (st : Store.store) (elems : list Store.val)
    (cs : list Card.t) :
  Forall2 (fun v c => Store.read_card (Store.heap st) v = Some c) elems cs ->
  exists keyed,
    Store.map_M (fun card => r ← Store.rank_of card; mret (r, card)) elems st
    = Some (keyed, st)
    /\ Forall2 (fun p c =>
                  Store.read_card (Store.heap st) (snd p) = Some c
                  /\ fst p = Card.rank c) keyed cs.
Proof.
  induction 1 as [|v c elems cs Hv _ (keyed & Hmap & Hkeyed)].
  - exists []. split; [reflexivity | constructor].
  - exists ((Card.rank c, v) :: keyed). cbn [Store.map_M].
    run (rank_of_Some _ _ _ Hv). run Hmap.
    split; [reflexivity|]. constructor; [auto | assumption].
Qed.

(** Writing an array does not change what card an object is. *)
Lemma read_suit_insert_array h (a : Store.loc) elems elems' (v : Store.val) :
  h !! a = Some (Store.CArr elems) ->
  Store.read_suit (<[a := Store.CArr elems']> h) v = Store.read_suit h v.
Proof.
  intros Ha. unfold Store.read_suit. destruct v as [| | |l]; try reflexivity.
  destruct (decide (l = a)) as [->|Hne].
  - now rewrite lookup_insert_eq, Ha.
  - now rewrite lookup_insert_ne by congruence.
Qed.

Lemma read_card_insert_array h (a : Store.loc) elems elems' (v : Store.val) :
  h !! a = Some (Store.CArr elems) ->
  Store.read_card (<[a := Store.CArr elems']> h) v = Store.read_card h v.
Proof.
  intros Ha. unfold Store.read_card. destruct v as [| | |l]; try reflexivity.
  destruct (decide (l = a)) as [->|Hne].
  - now rewrite lookup_insert_eq, Ha.
  - rewrite lookup_insert_ne by congruence.
    destruct (h !! l) as [[props|]|]; try reflexivity.
    destruct (assoc "id" props) as [[]|]; try reflexivity.
    destruct (assoc "value" props) as [[]|]; try reflexivity.
    destruct (assoc "rank" props) as [[]|]; try reflexivity.
    destruct (assoc "suit" props); try reflexivity.
    now rewrite (read_suit_insert_array _ _ elems).
Qed.

Lemma read_deck_insert_array h (a : Store.loc) elems elems' (this : Store.loc) :
  h !! a = Some (Store.CArr elems) ->
  (forall props d,
      h !! this = Some (Store.CObj props) ->
      assoc "deck" props = Some (Store.VRef d) -> d <> a) ->
  Store.read_deck (<[a := Store.CArr elems']> h) (Store.VRef this)
  = Store.read_deck h (Store.VRef this).
Proof.
  intros Ha Hdeck. unfold Store.read_deck.
  destruct (decide (this = a)) as [->|Hne].
  - now rewrite lookup_insert_eq, Ha.
  - rewrite lookup_insert_ne by congruence.
    destruct (h !! this) as [[props|]|] eqn:Ht; try reflexivity.
    destruct (assoc "deck" props) as [deck|] eqn:Hd; try reflexivity.
    destruct (assoc "id" props) as [[]|]; try reflexivity.
    unfold Store.read_array. destruct deck as [| | |d]; try reflexivity.
    rewrite lookup_insert_ne by (apply not_eq_sym, (Hdeck props); auto).
    destruct (h !! d) as [[|cards]|]; try reflexivity.
    replace (mapM (Store.read_card (<[a := Store.CArr elems']> h)) cards)
      with (mapM (Store.read_card h) cards); [reflexivity|].
    induction cards as [|v cards IH]; [reflexivity|].
    cbn [mapM]. now rewrite IH, (read_card_insert_array _ _ elems).
Qed.

(** C10 as stated fails when the argument is the array the instance keeps
    in its field [deck] (which [deck["deck"]] gives at run time): [sort]
    reorders it like any other array, and the instance reads as another
    deck afterwards. *)
Lemma sort_own_deck :
  let queen := Card.mk 10 "Q" 11 (Suit.mk "S" "black" "♠") in
  let three := Card.mk 1 "3" 2 (Suit.mk "S" "black" "♠") in
  let st :=
    Store.mk
      (list_to_map
         [(1%positive, Store.CObj [("deck", Store.VRef 2);
                                   ("id", Store.VNum 52)]%string);
          (2%positive, Store.CArr [Store.VRef 3; Store.VRef 4]);
          (3%positive, Store.card_cell three 5);
          (4%positive, Store.card_cell queen 6);
          (5%positive, Store.CObj (Store.suit_props (Card.suit three)));
          (6%positive, Store.CObj (Store.suit_props (Card.suit queen)))]) ∅ in
  Store.read_deck (Store.heap st) (Store.VRef 1)
  = Some (Deck.mk [three; queen] 52)
  /\ exists st',
      Store.sort (Store.VRef 1) (Store.VRef 2) st = Some (Store.VRef 2, st')
      /\ Store.read_deck (Store.heap st') (Store.VRef 1)
         = Some (Deck.mk [queen; three] 52)
      /\ Store.read_deck (Store.heap st') (Store.VRef 1)
         <> Store.read_deck (Store.heap st) (Store.VRef 1).
Proof.
  intros queen three st. split; [reflexivity|].
  eexists. split; [reflexivity|]. split; [reflexivity|].
  vm_compute. discriminate.
Qed.

(** C10, amended.  [deck.sort(cards)] writes to the array it is given and
    to nothing else: it puts the cards in the order [sort] describes and
    returns the same array, and the call is the same whatever the instance
    is.  The instance reads as before whenever the array is not the one it
    keeps in [deck]; when it is, the instance reads as the sorted deck. *)
Theorem sort_in_place (st : Store.store) (this cards : Store.loc)
    (elems : list Store.val) (cs : list Card.t) :
  Store.heap st !! cards = Some (Store.CArr elems) ->
  Forall2 (fun v c => Store.read_card (Store.heap st) v = Some c) elems cs ->
  exists st',
    Store.sort (Store.VRef this) (Store.VRef cards) st
    = Some (Store.VRef cards, st')
    /\ (forall l, l <> cards -> Store.heap st' !! l = Store.heap st !! l)
    /\ Store.catalog st' = Store.catalog st
    /\ Store.read_array (Store.read_card (Store.heap st')) (Store.heap st')
         (Store.VRef cards)
       = Some (sort cs)
    /\ (forall other,
          Store.sort other (Store.VRef cards) st
          = Store.sort (Store.VRef this) (Store.VRef cards) st)
    /\ ((forall props d,
           Store.heap st !! this = Some (Store.CObj props) ->
           assoc "deck" props = Some (Store.VRef d) -> d <> cards) ->
        Store.read_deck (Store.heap st') (Store.VRef this)
        = Store.read_deck (Store.heap st) (Store.VRef this))
    /\ (forall props n,
          Store.heap st !! this = Some (Store.CObj props) ->
          assoc "deck" props = Some (Store.VRef cards) ->
          assoc "id" props = Some (Store.VNum n) ->
          Store.read_deck (Store.heap st') (Store.VRef this)
          = Some (Deck.mk (sort cs) n)).
Proof.
  intros Hcards Helems.
  destruct (map_M_rank_of st elems cs Helems) as (keyed & Hkeyed & Hrel).
  eexists. unfold Store.sort.
  run (elements_of_Some _ _ _ Hcards). run Hkeyed.
  run (write_Some cards _
         (Store.CArr (map snd (Array_sort (fun a b => fst b - fst a) keyed)))
         st Hcards).
  split; [reflexivity|]. cbn [Store.heap Store.catalog].
  assert (Hsorted :
            Store.read_array
              (Store.read_card
                 (<[cards := Store.CArr
                      (map snd (Array_sort (fun a b => fst b - fst a) keyed))]>
                    (Store.heap st)))
              (<[cards := Store.CArr
                   (map snd (Array_sort (fun a b => fst b - fst a) keyed))]>
                 (Store.heap st))
              (Store.VRef cards)
            = Some (sort cs)).
  { unfold Store.read_array. rewrite lookup_insert_eq. apply mapM_Some.
    apply Forall2_fmap_l.
    eapply Forall2_impl.
    + apply (Array_sort_Forall2
               (fun p c => Store.read_card (Store.heap st) (snd p) = Some c
                           /\ fst p = Card.rank c) fst Card.rank);
        [intros p c [_ E]; exact E | exact Hrel].
    + cbn. intros p c [Hp _].
      now rewrite (read_card_insert_array _ _ elems). }
  split_and!.
  - intros l Hl. now rewrite lookup_insert_ne by congruence.
  - reflexivity.
  - exact Hsorted.
  - reflexivity.
  - intros Hprivate. now apply (read_deck_insert_array _ _ elems).
  - intros props n Hthis Hdeck Hid. unfold Store.read_deck.
    assert (this <> cards)
      by (intros ->; rewrite Hcards in Hthis; discriminate).
    rewrite lookup_insert_ne by congruence.
    rewrite Hthis, Hdeck, Hid, Hsorted. reflexivity.
Qed.

Lemma sort_in_place_witness :
  let queen := Card.mk 10 "Q" 11 (Suit.mk "S" "black" "♠") in
  let three := Card.mk 1 "3" 2 (Suit.mk "S" "black" "♠") in
  let st :=
    Store.mk
      (list_to_map
         [(1%positive, Store.CObj [("deck", Store.VRef 2);
                                   ("id", Store.VNum 52)]%string);
          (2%positive, Store.CArr []);
          (3%positive, Store.CObj (Store.suit_props (Card.suit queen)));
          (4%positive, Store.card_cell three 3);
          (5%positive, Store.card_cell queen 3);
          (6%positive, Store.CArr [Store.VRef 4; Store.VRef 5])]) ∅ in
  exists st',
    Store.sort (Store.VRef 1) (Store.VRef 6) st = Some (Store.VRef 6, st')
    /\ Store.read_array (Store.read_card (Store.heap st')) (Store.heap st')
         (Store.VRef 6)
       = Some [queen; three]
    /\ Store.read_deck (Store.heap st') (Store.VRef 1)
       = Store.read_deck (Store.heap st) (Store.VRef 1).
Proof.
  intros queen three st.
  destruct (sort_in_place st 1 6 [Store.VRef 4; Store.VRef 5] [three; queen])
    as (st' & Hrun & _ & _ & Hread & _ & Hsame & _).
  - reflexivity.
  - repeat constructor.
  - exists st'. split_and!; [exact Hrun | exact Hread | apply Hsame].
    intros props d Hthis Hdeck. vm_compute in Hthis.
    injection Hthis as <-. vm_compute in Hdeck. injection Hdeck as <-.
    discriminate.
Defined.

(** *** Drawing from the instance *)

Lemma shift_Some (a : Store.loc) v elems st :
  Store.heap st !! a = Some (Store.CArr (v :: elems)) ->
  Store.shift (Store.VRef a) st
  = Some (v, Store.mk (<[a := Store.CArr elems]> (Store.heap st))
               (Store.catalog st)).
Proof.
  intros H. unfold Store.shift. run (elements_of_Some _ _ _ H).
  now run (write_Some a _ (Store.CArr elems) st H).
Qed.

Lemma getCards_rounds (this deck r : Store.loc) props (k : nat) :
  this <> deck -> this <> r -> deck <> r ->
  assoc "deck" props = Some (Store.VRef deck) ->
  forall st elems acc,
    (k <= length elems)%nat ->
    Store.heap st !! this = Some (Store.CObj props) ->
    Store.heap st !! deck = Some (Store.CArr elems) ->
    Store.heap st !! r = Some (Store.CArr acc) ->
    exists st',
      Store.repeat_M k
        (d ← Store.get_prop (Store.VRef this) "deck";
         card ← Store.shift d;
         Store.push (Store.VRef r) card) st
      = Some (tt, st')
      /\ Store.heap st' !! deck = Some (Store.CArr (drop k elems))
      /\ Store.heap st' !! r = Some (Store.CArr (acc ++ take k elems))
      /\ (forall l, l <> deck -> l <> r ->
                    Store.heap st' !! l = Store.heap st !! l)
      /\ Store.catalog st' = Store.catalog st.
Proof.
  intros Htd Htr Hdr Hdeck.
  induction k as [|k IH]; intros st elems acc Hk Ht Hd Hr.
  - exists st. rewrite drop_0, app_nil_r. auto.
  - destruct elems as [|v elems]; [cbn in Hk; lia|].
    cbn [Store.repeat_M].
    run (get_prop_Some _ _ "deck"%string _ Ht). rewrite Hdeck.
    cbn [default from_option id].
    run (shift_Some _ _ _ _ Hd).
    erewrite push_Some; cycle 1.
    { cbn [Store.heap]. rewrite lookup_insert_ne by congruence. exact Hr. }
    match goal with
    | |- context [Store.repeat_M k _ ?s] =>
        destruct (IH s elems (acc ++ [v]))
          as (st' & Hrun & Hd' & Hr' & Hrest & Hcat)
    end.
    + cbn in Hk. lia.
    + cbn [Store.heap]. now rewrite !lookup_insert_ne by congruence.
    + cbn [Store.heap]. rewrite lookup_insert_ne by congruence.
      apply lookup_insert_eq.
    + cbn [Store.heap]. apply lookup_insert_eq.
    + run Hrun. exists st'. split; [reflexivity|]. split_and!.
      * exact Hd'.
      * rewrite Hr', <- app_assoc. reflexivity.
      * intros l H1 H2. rewrite Hrest by assumption. cbn [Store.heap].
        now rewrite !lookup_insert_ne by congruence.
      * exact Hcat.
Qed.

(** [getCards] on the store: the returned array is a new one, the array of
    the instance loses the cards the new one holds, nothing else changes. *)
Lemma getCards_store (st : Store.store) (this deck : Store.loc) props elems
    (amount : Z) :
  Store.heap st !! this = Some (Store.CObj props) ->
  assoc "deck" props = Some (Store.VRef deck) ->
  Store.heap st !! deck = Some (Store.CArr elems) ->
  exists r st',
    Store.getCards (Store.VRef this) amount st = Some (Store.VRef r, st')
    /\ (r ∉ dom (Store.heap st))
    /\ (forall l, l <> deck -> l <> r ->
                  Store.heap st' !! l = Store.heap st !! l)
    /\ Store.catalog st' = Store.catalog st
    /\ (if decide (1 <= amount /\ amount < Z.of_nat (length elems) - amount)
        then
          Store.heap st' !! r
          = Some (Store.CArr (take (Z.to_nat amount) elems))
          /\ Store.heap st' !! deck
             = Some (Store.CArr (drop (Z.to_nat amount) elems))
        else
          Store.heap st' !! r = Some (Store.CArr [])
          /\ Store.heap st' !! deck = Some (Store.CArr elems)).
Proof.
  intros Ht Hdeck Hd. unfold Store.getCards.
  run (get_prop_Some _ _ "deck"%string _ Ht). rewrite Hdeck.
  cbn [default from_option id].
  run (elements_of_Some _ _ _ Hd).
  destruct (alloc_Some (Store.CArr []) st) as (r & Hr & Hnew).
  assert (Hrd : r <> deck) by (intros ->; apply Hnew, elem_of_dom; eauto).
  assert (Hrt : r <> this) by (intros ->; apply Hnew, elem_of_dom; eauto).
  assert (Htd : this <> deck) by (intros ->; rewrite Ht in Hd; discriminate).
  case_decide as Hguard.
  - destruct (Z.leb_spec 1 amount); [|lia].
    destruct (Z.ltb_spec amount (Z.of_nat (length elems) - amount)); [|lia].
    cbn [andb]. run Hr.
    match goal with
    | |- context [Store.repeat_M _ _ ?s] =>
        destruct (getCards_rounds this deck r props (Z.to_nat amount)
                    Htd (not_eq_sym Hrt) (not_eq_sym Hrd) Hdeck s elems [])
          as (st' & Hrun & Hd' & Hr' & Hrest & Hcat)
    end.
    + lia.
    + cbn [Store.heap]. rewrite lookup_insert_ne by congruence. exact Ht.
    + cbn [Store.heap]. rewrite lookup_insert_ne by congruence. exact Hd.
    + cbn [Store.heap]. apply lookup_insert_eq.
    + run Hrun. exists r, st'. split_and!; [reflexivity | assumption | | | |].
      * intros l H1 H2. rewrite Hrest by assumption. cbn [Store.heap].
        now rewrite lookup_insert_ne by congruence.
      * exact Hcat.
      * exact Hr'.
      * exact Hd'.
  - assert ((1 <=? amount)
            && (amount <? Z.of_nat (length elems) - amount) = false) as ->.
    { destruct (Z.leb_spec 1 amount);
        destruct (Z.ltb_spec amount (Z.of_nat (length elems) - amount));
        cbn [andb]; try reflexivity. lia. }
    rewrite Hr. exists r. eexists. split; [reflexivity|].
    cbn [Store.heap Store.catalog]. split_and!.
    + assumption.
    + intros l H1 H2. now rewrite lookup_insert_ne by congruence.
    + reflexivity.
    + apply lookup_insert_eq.
    + rewrite lookup_insert_ne by congruence. exact Hd.
Qed.

(** * Further properties *)

(** ** Draws *)

(** What a draw returns holds cards only (the [shift] in the loop never
    gives [undefined]); it is empty or has [amount] cards, fewer than are
    left; the counter [id] is not touched. *)
Theorem getCards_result (amount : Z) (this : Deck.t) :
  (exists cards, fst (getCards amount this) = map Some cards)
  /\ (fst (getCards amount this) = []
      \/ (Z.of_nat (length (fst (getCards amount this))) = amount
          /\ (length (fst (getCards amount this))
              < length (Deck.deck (snd (getCards amount this))))%nat))
  /\ Deck.id (snd (getCards amount this)) = Deck.id this.
Proof.
  rewrite getCards_cases. case_decide as H; cbn [fst snd Deck.deck Deck.id].
  - split_and!; [eauto | | reflexivity]. right.
    rewrite length_map, length_take, length_drop. lia.
  - split_and!; [now exists [] | now left | reflexivity].
Qed.

Lemma take_take_drop {A} (l : list A) (n m : nat) :
  take n l ++ take m (drop n l) = take (n + m) l.
Proof.
  revert l. induction n as [|n IH]; intros [|x l]; cbn;
    rewrite ?take_nil; [reflexivity .. |].
  f_equal. apply IH.
Qed.

(** Two draws in a row, of integer amounts, give, one after the other, the
    cards the deck had in front, and leave the rest: nothing is lost,
    repeated or reordered. *)
Theorem getCards_twice (a b : Z) (this : Deck.t) :
  let first := getCards a this in
  let second := getCards b (snd first) in
  fst first ++ fst second ++ map Some (Deck.deck (snd second))
  = map Some (Deck.deck this)
  /\ (fst first <> [] -> fst second <> [] ->
      fst first ++ fst second
      = map Some (take (Z.to_nat (a + b)) (Deck.deck this))
      /\ Deck.deck (snd second) = drop (Z.to_nat (a + b)) (Deck.deck this)).
Proof.
  intros first second. split.
  - subst second. rewrite getCards_partition. subst first.
    apply getCards_partition.
  - subst second first. rewrite (getCards_cases a this).
    case_decide as Ha; cbn [fst snd]; [|congruence]. intros _.
    rewrite getCards_cases. cbn [Deck.deck Deck.id].
    case_decide as Hb; cbn [fst snd Deck.deck]; [|congruence]. intros _.
    rewrite length_drop in Hb.
    rewrite <- map_app, drop_drop.
    rewrite (Z2Nat.inj_add a b) by lia.
    split; [|reflexivity]. f_equal. apply take_take_drop.
Qed.

Lemma getCards_twice_witness :
  let this := constructor (fun n => rev (seq 0 n)) false in
  fst (getCards 25 this) ++ fst (getCards 13 (snd (getCards 25 this)))
  = map Some (take 38 (Deck.deck this)).
Proof.
  intros this.
  apply (proj2 (getCards_twice 25 13 this)); vm_compute; discriminate.
Defined.

(** ** The life of a deck *)

Lemma fill_valid : Forall valid_card (Deck.deck (fill (Deck.mk [] 0))).
Proof.
  let l := eval vm_compute in (Deck.deck (fill (Deck.mk [] 0))) in
  change (Forall valid_card l).
  repeat (apply Forall_cons_2;
          [unfold valid_card; cbn [Card.id Card.value Card.suit];
           split_and!; [lia | in_catalog | reflexivity | in_catalog]|]).
  apply Forall_nil_2.
Qed.

Section Life.

Variable draw : nat -> list nat.
Hypothesis draw_Permutation : forall n, Permutation (draw n) (seq 0 n).

Lemma getCards_tail (amount : Z) (this : Deck.t) :
  exists k : nat,
    Deck.deck (snd (getCards amount this)) = drop k (Deck.deck this)
    /\ (k = 0%nat \/ (2 * k < length (Deck.deck this))%nat).
Proof.
  rewrite getCards_cases. case_decide as H; cbn [snd Deck.deck].
  - exists (Z.to_nat amount). split; [reflexivity|]. right. lia.
  - exists 0%nat. rewrite drop_0. auto.
Qed.

(** However many draws of integer amounts are made from a new deck, what
    is left is a tail of the deck as it was constructed, at least two cards
    long (with integer amounts the last two cards can never be drawn); the
    cards left are valid, their ids are pairwise distinct, and the counter
    stays at 52. *)
Theorem reachable_tail (this : Deck.t) :
  reachable draw this ->
  exists (preShuffle : bool) (k : nat),
    Deck.deck this = drop k (Deck.deck (constructor draw preShuffle))
    /\ (2 <= length (Deck.deck this) <= 52)%nat
    /\ Forall valid_card (Deck.deck this)
    /\ NoDup (map Card.id (Deck.deck this))
    /\ Deck.id this = 52.
Proof.
  assert (Hnew : forall b,
             length (Deck.deck (constructor draw b)) = 52%nat
             /\ Forall valid_card (Deck.deck (constructor draw b))
             /\ NoDup (map Card.id (Deck.deck (constructor draw b)))
             /\ Deck.id (constructor draw b) = 52).
  { intros b.
    pose proof (constructor_Permutation draw draw_Permutation b) as HP.
    split_and!.
    - rewrite <- (Permutation_length HP). apply fill_length.
    - rewrite <- HP. apply fill_valid.
    - rewrite <- (Permutation_map Card.id HP), fill_ids.
      apply (NoDup_fmap_2 _), NoDup_seq.
    - unfold constructor. destruct b; reflexivity. }
  induction 1 as [b | amount this _ (b & k & Hk & Hlen & Hvalid & Hnd & Hid)].
  - destruct (Hnew b) as (Hlen & Hvalid & Hnd & Hid).
    exists b, 0%nat. rewrite drop_0, Hlen.
    split; [|split; [|split; [|split]]]; auto; lia.
  - destruct (getCards_tail amount this) as (j & Hj & Hsmall).
    exists b, (k + j)%nat. split; [|split; [|split; [|split]]].
    + now rewrite Hj, Hk, drop_drop.
    + rewrite Hj, length_drop. lia.
    + rewrite Hj. now apply Forall_drop.
    + rewrite Hj.
      change (map Card.id) with (fmap (M := list) Card.id) in Hnd |- *.
      rewrite fmap_drop.
      rewrite <- (take_drop j (Card.id <$> Deck.deck this)) in Hnd.
      now apply NoDup_app in Hnd as (_ & _ & Hnd).
    + rewrite getCards_cases. now case_decide.
Qed.

End Life.

Lemma reachable_tail_witness :
  (2 <= length (Deck.deck
                  (snd (getCards 25
                          (constructor (fun n => rev (seq 0 n)) true))))
   <= 52)%nat.
Proof.
  destruct (reachable_tail (fun n => rev (seq 0 n)) reversed_Permutation _
              (reachable_getCards _ 25 _
                 (reachable_new (fun n => rev (seq 0 n)) true)))
    as (b & k & _ & Hlen & _).
  exact Hlen.
Defined.

(** ** More on sorting *)

Lemma sort_StronglySorted (cards : list Card.t) :
  StronglySorted (fun a b => Card.rank a >= Card.rank b) (sort cards).
Proof. apply (Array_sort_StronglySorted Card.rank). Qed.

Lemma sort_filter (r : Z) (cards : list Card.t) :
  filter (fun c => Card.rank c = r) (sort cards)
  = filter (fun c => Card.rank c = r) cards.
Proof. apply (Array_sort_filter Card.rank). Qed.

(** Sorting again changes nothing, and cards already in descending order of
    rank are left as they are. *)
Theorem sort_idempotent (cards : list Card.t) :
  sort (sort cards) = sort cards
  /\ (StronglySorted (fun a b => Card.rank a >= Card.rank b) cards ->
      sort cards = cards).
Proof.
  split.
  - apply (stable_sorted_unique Card.rank); try apply sort_StronglySorted.
    intros r. apply sort_filter.
  - intros H. apply (stable_sorted_unique Card.rank);
      [apply sort_StronglySorted | exact H |].
    intros r. apply sort_filter.
Qed.

Lemma sort_idempotent_witness :
  let cards := [Card.mk 12 "A" 13 (Suit.mk "S" "black" "♠");
                Card.mk 0 "2" 1 (Suit.mk "S" "black" "♠")] in
  sort cards = cards.
Proof.
  intros cards. apply (proj2 (sort_idempotent cards)).
  repeat constructor. cbn. lia.
Defined.

Lemma descending_Permutation_eq (l1 l2 : list Z) :
  StronglySorted Z.ge l1 -> StronglySorted Z.ge l2 ->
  Permutation l1 l2 -> l1 = l2.
Proof.
  intros H1. revert l2. induction H1 as [|a l1 Hs1 IH Ha]; intros l2 H2 HP.
  - now apply Permutation_nil in HP.
  - destruct H2 as [|b l2 Hs2 Hb].
    + symmetry in HP. now apply Permutation_nil in HP.
    + assert (a = b).
      { rewrite Forall_forall in Ha, Hb.
        assert (Ia : a ∈ b :: l2) by (rewrite <- HP; left).
        assert (Ib : b ∈ a :: l1) by (rewrite HP; left).
        apply elem_of_cons in Ia as [|Ia]; [assumption|].
        apply elem_of_cons in Ib as [|Ib]; [congruence|].
        specialize (Ha _ Ib). specialize (Hb _ Ia). lia. }
      subst b. f_equal. apply IH; [assumption|].
      now apply Permutation_cons_inv in HP.
Qed.

Lemma sort_ranks_descending (cards : list Card.t) :
  StronglySorted Z.ge (map Card.rank (sort cards)).
Proof.
  pose proof (sort_StronglySorted cards) as H.
  induction H as [|c l _ IH Hc]; cbn [map]; constructor; [exact IH|].
  apply Forall_forall. intros r Hr.
  apply list_elem_of_fmap in Hr as (c' & -> & Hc').
  rewrite Forall_forall in Hc. now apply Hc.
Qed.

(** The ranks that come out of [sort] do not depend on the order the cards
    went in: two arrangements of the same cards give the same sequence of
    ranks. *)
Theorem sort_ranks_Permutation (cards1 cards2 : list Card.t) :
  Permutation cards1 cards2 ->
  map Card.rank (sort cards1) = map Card.rank (sort cards2).
Proof.
  intros HP. apply descending_Permutation_eq; try apply sort_ranks_descending.
  apply Permutation_map.
  rewrite <- (sort_Permutation cards1), <- (sort_Permutation cards2).
  exact HP.
Qed.

Lemma sort_ranks_Permutation_witness :
  let ace := Card.mk 12 "A" 13 (Suit.mk "S" "black" "♠") in
  let two := Card.mk 0 "2" 1 (Suit.mk "S" "black" "♠") in
  map Card.rank (sort [two; ace]) = map Card.rank (sort [ace; two]).
Proof.
  intros ace two. apply sort_ranks_Permutation. apply perm_swap.
Defined.

Section SortedDeck.

Variable draw : nat -> list nat.
Hypothesis draw_Permutation : forall n, Permutation (draw n) (seq 0 n).

(** Sorting a new deck, shuffled or not, gives the four aces, then the four
    kings, and so on down to the four twos. *)
Theorem sort_new_deck (preShuffle : bool) :
  map Card.rank (sort (Deck.deck (constructor draw preShuffle)))
  = flat_map (fun r => [r; r; r; r]) (map Z.of_nat (rev (seq 1 13))).
Proof.
  transitivity (map Card.rank (sort (Deck.deck (fill (Deck.mk [] 0)))));
    [|reflexivity].
  symmetry. apply descending_Permutation_eq; try apply sort_ranks_descending.
  apply Permutation_map.
  rewrite <- (sort_Permutation (Deck.deck (fill (Deck.mk [] 0)))),
    <- (sort_Permutation (Deck.deck (constructor draw preShuffle))).
  apply (constructor_Permutation draw draw_Permutation).
Qed.

End SortedDeck.

Lemma sort_new_deck_witness :
  map Card.rank
    (sort (Deck.deck (constructor (fun n => rev (seq 0 n)) true)))
  = flat_map (fun r => [r; r; r; r]) (map Z.of_nat (rev (seq 1 13))).
Proof.
  exact (sort_new_deck (fun n => rev (seq 0 n)) reversed_Permutation true).
Defined.

(** ** Tokens without a separator *)

Lemma split_length (sep : ascii) (s : string) :
  length (split sep s) = S (occurrences sep s).
Proof.
  induction s as [|c s IH]; [reflexivity|]. cbn [split occurrences].
  destruct (Ascii.eqb c sep); cbn [length]; [now rewrite IH|].
  destruct (split sep s); cbn [length] in *; [discriminate | exact IH].
Qed.

Lemma parse_card_Throw (c : string) :
  parse_card c = Throw TypeError <-> occurrences "#" c = 0%nat.
Proof.
  unfold parse_card. pose proof (split_length "#" c) as Hlen.
  destruct (split "#" c) as [|idPart [|cardPart rest]]; cbn [length] in Hlen;
    cbn [lookup list_lookup]; split; intros H; try reflexivity;
    try discriminate; lia.
Qed.

Lemma parse_card_Normal_validate (c : string) (v : Value) :
  parse_card c = Normal v -> validate v = Normal true.
Proof.
  unfold parse_card. destruct (split "#" c !! 1%nat); [|discriminate].
  intros [= <-]. reflexivity.
Qed.

(** [parse] throws exactly when one of the tokens holds no [#]; one such
    token loses the cards of all the others.  When it returns, it returns
    one card for each token. *)
Theorem parse_Throw_iff (tokens : list string) :
  (parse tokens = Throw TypeError
   <-> exists token, In token tokens /\ occurrences "#" token = 0%nat)
  /\ (forall cards, parse tokens = Normal cards ->
                    length cards = length tokens).
Proof.
  unfold parse. induction tokens as [|token tokens [IH1 IH2]].
  - split; [|now intros cards [= <-]].
    split; [discriminate | intros (t & [] & _)].
  - cbn [map_throwing]. pose proof (parse_card_Throw token) as Hc.
    destruct (parse_card token) as [v|[]]; cbn [mbind Completion_bind].
    + destruct (map_throwing parse_card tokens) as [vs|[]];
        cbn [mbind Completion_bind].
      * split.
        -- split; [discriminate|]. intros (t & [<- | Ht] & H0).
           ++ apply Hc in H0. discriminate H0.
           ++ assert (Normal vs = Throw TypeError) as E by (apply IH1; eauto).
              discriminate E.
        -- intros cards [= <-]. cbn [length]. f_equal. now apply IH2.
      * split; [|discriminate]. split; [|reflexivity]. intros _.
        destruct (proj1 IH1 eq_refl) as (t & Ht & H0).
        exists t. split; [now right | assumption].
    + split; [|discriminate]. split; [|reflexivity]. intros _.
      exists token. split; [now left | now apply Hc].
Qed.

Lemma parse_Throw_iff_witness :
  parse ["1#AS"; "2KH"; "3#QD"]%string = Throw TypeError.
Proof.
  apply (proj1 (parse_Throw_iff _)). exists "2KH"%string.
  split; [cbn; auto | reflexivity].
Defined.

(** Every card [parse] returns passes [validate], whatever the token was:
    the four keys are always there, also with [NaN], [undefined] or a rank
    of 0 under them. *)
Theorem parse_validate (tokens : list string) (cards : list Value) :
  parse tokens = Normal cards ->
  Forall (fun card => validate card = Normal true) cards.
Proof.
  unfold parse. revert cards.
  induction tokens as [|token tokens IH]; intros cards; cbn [map_throwing].
  - intros [= <-]. constructor.
  - pose proof (parse_card_Normal_validate token) as Hv.
    destruct (parse_card token) as [v|]; [|discriminate].
    cbn [mbind Completion_bind].
    destruct (map_throwing parse_card tokens) as [vs|]; [|discriminate].
    cbn [mbind Completion_bind]. intros [= <-].
    constructor; [now apply Hv | now apply IH].
Qed.

Lemma parse_validate_witness :
  Forall (fun card => validate card = Normal true)
    [Obj [("id", Num NaN); ("value", Undefined); ("rank", Num (Int 0));
          ("suit", Undefined)]%string].
Proof. apply (parse_validate ["#"%string]). reflexivity. Defined.

(** ** What [parse] makes of a token *)

Lemma indexOf_range (arr : list string) (x : option string) :
  -1 <= indexOf arr x < Z.of_nat (length arr)
  /\ (indexOf arr x = -1 <-> forall y, In y arr -> Some y <> x).
Proof.
  induction arr as [|y arr [IHr IHn]]; cbn [indexOf length].
  - split; [lia|]. split; [intros _ y [] | reflexivity].
  - case_bool_decide as Hy.
    + split; [lia|]. split; [lia|]. intros H. exfalso.
      apply (H y); [now left | assumption].
    + destruct (Z.ltb_spec (indexOf arr x) 0) as [Hlt | Hge].
      * split; [lia|]. split; [|reflexivity]. intros _ z [<- | Hz];
          [assumption | apply IHn; [lia | assumption]].
      * split; [lia|]. split; [lia|]. intros Hall.
        assert (indexOf arr x = -1)
          by (apply IHn; intros z Hz; apply Hall; now right).
        lia.
Qed.

Lemma find_suit_Some (suitValue : option string) (s : Suit.t) :
  find_suit suitValue = Some s ->
  In s SUITS /\ Some (Suit.value s) = suitValue.
Proof.
  unfold find_suit. intros H. apply find_some in H as [Hin Hv].
  split; [assumption | now apply bool_decide_eq_true in Hv].
Qed.

(** A card that [parse] returns always has the four keys, in the order of
    the literal.  Its rank lies between 0 and 13 and is 0 exactly when the
    value is no rank label; its suit is a catalog suit with the letter read
    from the token, or [undefined]. *)
Theorem parse_card_shape (token : string) (card : Value) :
  parse [token] = Normal [card] ->
  exists id value rank suit,
    card = Obj [("id", Num id); ("value", of_option value);
                ("rank", Num (Int rank));
                ("suit", from_option Suit_object Undefined suit)]%string
    /\ 0 <= rank <= 13
    /\ (rank = 0 <-> forall label, In label CARDS -> Some label <> value)
    /\ (forall s, suit = Some s -> In s SUITS).
Proof.
  unfold parse, map_throwing, parse_card.
  destruct (split "#" token !! 1%nat) as [cardPart|]; [|discriminate].
  cbn [mbind Completion_bind].
  match goal with
  | |- context [indexOf CARDS ?v] =>
      destruct (indexOf_range CARDS v) as [Hr Hn];
      generalize dependent (indexOf CARDS v)
  end.
  intros index Hr Hn H.
  assert (E : forall a b : Value, Normal [a] = Normal [b] -> a = b)
    by (intros a b; congruence).
  apply E in H. subst card. clear E.
  eexists _, _, _, _. split; [reflexivity|].
  change (Z.of_nat (length CARDS)) with 13 in Hr. split_and!; try lia.
  - split; intros H; [apply Hn; lia | apply Hn in H; lia].
  - intros s Hs. now apply find_suit_Some in Hs.
Qed.

Lemma parse_card_shape_witness :
  exists id value rank suit,
    Obj [("id", Num (Int 7)); ("value", Str "Z"); ("rank", Num (Int 0));
         ("suit", Undefined)]%string
    = Obj [("id", Num id); ("value", of_option value);
           ("rank", Num (Int rank));
           ("suit", from_option Suit_object Undefined suit)]%string
    /\ 0 <= rank <= 13
    /\ (rank = 0 <-> forall label, In label CARDS -> Some label <> value)
    /\ (forall s, suit = Some s -> In s SUITS).
Proof. apply (parse_card_shape "7#Z"). reflexivity. Defined.

(** The value is ["10"] exactly when the card part is three code units
    long, whatever these are: [parse] does not look at the first two.
    Otherwise the value is the first code unit alone, so a token of another
    length never gives a ten. *)
Theorem parse_ten_by_length (token idPart cardPart : string)
    (rest : list string) :
  split "#" token = idPart :: cardPart :: rest ->
  exists id suit,
    (String.length cardPart = 3%nat ->
     parse [token]
     = Normal [Obj [("id", id); ("value", Str "10"); ("rank", Num (Int 9));
                    ("suit", suit)]%string])
    /\ (String.length cardPart <> 3%nat ->
        exists rank,
          parse [token]
          = Normal [Obj [("id", id); ("value", of_option (char_at cardPart 0));
                         ("rank", rank); ("suit", suit)]%string]
          /\ of_option (char_at cardPart 0) <> Str "10").
Proof.
  intros Hsplit. unfold parse, map_throwing, parse_card. rewrite Hsplit.
  cbn [lookup list_lookup mbind Completion_bind].
  destruct (Nat.eqb_spec (String.length cardPart) 3) as [H3 | H3].
  - eexists _, _. split; [intros _; reflexivity | intros H; contradiction].
  - eexists _, _. split; [intros H; contradiction|]. intros _.
    eexists. split; [reflexivity|].
    unfold char_at. destruct (String.get 0 cardPart); discriminate.
Qed.

Lemma parse_ten_by_length_witness :
  exists id suit,
    parse ["1#AKS"%string]
    = Normal [Obj [("id", id); ("value", Str "10"); ("rank", Num (Int 9));
                   ("suit", suit)]%string].
Proof.
  destruct (parse_ten_by_length "1#AKS" "1" "AKS" [] eq_refl)
    as (id & suit & H & _).
  exists id, suit. apply H. reflexivity.
Defined.

(** ** The id part of a token *)

Lemma parse_digits_stop (rest : string) (acc : option N) :
  (forall c r, rest = String c r -> digit_value 10 c = None) ->
  parse_digits 10 rest acc = acc.
Proof.
  intros H. destruct rest as [|c r]; [reflexivity|].
  cbn [parse_digits]. now rewrite (H c r eq_refl).
Qed.

Lemma append_String (c : ascii) (s r : string) :
  String c s +:+ r = String c (s +:+ r).
Proof. reflexivity. Qed.

Lemma parse_digits_acc_then (u : Decimal.uint) (p : positive) (rest : string) :
  (forall c r, rest = String c r -> digit_value 10 c = None) ->
  parse_digits 10 (NilEmpty.string_of_uint u +:+ rest) (Some (N.pos p))
  = Some (N.pos (Pos.of_uint_acc u p)).
Proof.
  intros Hrest. revert p. induction u; intros p;
    cbn [NilEmpty.string_of_uint Pos.of_uint_acc];
    [now apply parse_digits_stop | ..];
    rewrite append_String; cbn [parse_digits];
    eval_digit; rewrite <- IHu; do 2 f_equal;
    cbn [default from_option id]; lia.
Qed.

Lemma parse_digits_zero_then (u : Decimal.uint) (rest : string) :
  (forall c r, rest = String c r -> digit_value 10 c = None) ->
  parse_digits 10 (NilEmpty.string_of_uint u +:+ rest) (Some 0%N)
  = Some (Pos.of_uint u).
Proof.
  intros Hrest. induction u;
    cbn [NilEmpty.string_of_uint Pos.of_uint];
    [now apply parse_digits_stop | ..];
    rewrite append_String; cbn [parse_digits]; eval_digit;
    [exact IHu | rewrite <- (parse_digits_acc_then _ _ rest Hrest);
                 reflexivity ..].
Qed.

Lemma parse_digits_start_then (u : Decimal.uint) (rest : string) :
  (forall c r, rest = String c r -> digit_value 10 c = None) ->
  u <> Decimal.Nil ->
  parse_digits 10 (NilEmpty.string_of_uint u +:+ rest) None
  = Some (Pos.of_uint u).
Proof.
  intros Hrest Hu. rewrite <- (parse_digits_zero_then u rest Hrest).
  destruct u; [contradiction | ..];
    cbn [NilEmpty.string_of_uint]; rewrite append_String; reflexivity.
Qed.

Lemma nzhead_not_D0 (u v : Decimal.uint) : Decimal.nzhead u <> Decimal.D0 v.
Proof. induction u; cbn; try discriminate. exact IHu. Qed.

Lemma to_uint_head (p : positive) (u : Decimal.uint) :
  Pos.to_uint p <> Decimal.D0 u.
Proof.
  intros E.
  pose proof (DecimalPos.Unsigned.to_of (Pos.to_uint p)) as H.
  rewrite DecimalPos.Unsigned.of_to in H. cbn [N.to_uint] in H.
  rewrite E in H. unfold Decimal.unorm in H. cbn [Decimal.nzhead] in H.
  destruct (Decimal.nzhead u) as [|v|v|v|v|v|v|v|v|v|v] eqn:En;
    try discriminate H.
  - injection H as ->. apply (DecimalPos.Unsigned.to_uint_nonzero p E).
  - apply (nzhead_not_D0 u v En).
Qed.

Lemma parseInt_digits_then (n : N) (rest : string) :
  (forall c r, rest = String c r -> digit_value 10 c = None) ->
  (n = 0%N -> forall r, rest <> String "x" r /\ rest <> String "X" r) ->
  parseInt (digits n +:+ rest) = Int (Z.of_N n).
Proof.
  intros Hrest Hx. unfold digits.
  assert (Hu : N.to_uint n <> Decimal.Nil)
    by (destruct n; [discriminate | apply DecimalPos.Unsigned.to_uint_nonnil]).
  pose proof (parse_digits_start_then _ rest Hrest Hu) as Hd.
  change (Pos.of_uint (N.to_uint n)) with (N.of_uint (N.to_uint n)) in Hd.
  rewrite DecimalN.Unsigned.of_to in Hd.
  destruct n as [|p].
  - cbn [N.to_uint NilEmpty.string_of_uint] in *.
    change ("0" +:+ rest) with (String "0" rest) in *.
    unfold parseInt. cbn [trim_start].
    change (is_whitespace "0") with false. cbv iota beta.
    destruct rest as [|c r].
    + rewrite Hd. reflexivity.
    + destruct (Hx eq_refl r) as [Hx1 Hx2].
      destruct (Ascii.eqb_spec c "x") as [->|_]; [congruence|].
      destruct (Ascii.eqb_spec c "X") as [->|_]; [congruence|].
      cbn [orb]. rewrite Hd. reflexivity.
  - cbn [N.to_uint] in *. pose proof (to_uint_head p) as Hhead.
    destruct (Pos.to_uint p) as [|u|u|u|u|u|u|u|u|u|u];
      [contradiction | now destruct (Hhead u) | ..];
      unfold parseInt; cbn [NilEmpty.string_of_uint] in *;
      rewrite append_String in *; cbn [trim_start];
      change (is_whitespace _) with false; cbv iota beta;
      rewrite Hd; f_equal; lia.
Qed.

Lemma parseInt_NaN (c : ascii) (s : string) :
  is_whitespace c = false -> c <> "-"%char -> c <> "+"%char ->
  digit_value 10 c = None ->
  parseInt (String c s) = NaN.
Proof.
  intros Hws Hm Hp Hd. unfold parseInt. cbn [trim_start]. rewrite Hws.
  destruct c as [[] [] [] [] [] [] [] []];
    try congruence; try (solve [vm_compute in Hd; discriminate Hd]);
    cbv iota beta; cbn [parse_digits]; rewrite Hd; reflexivity.
Qed.

(** [parse] rejects no id.  An id part that is empty, or that starts with a
    code unit that is no digit, sign or white space, gives the id [NaN]. *)
Theorem parse_id_NaN (token idPart cardPart : string) (rest : list string) :
  split "#" token = idPart :: cardPart :: rest ->
  idPart = EmptyString
  \/ (exists c s,
         idPart = String c s /\ is_whitespace c = false
         /\ c <> "-"%char /\ c <> "+"%char /\ digit_value 10 c = None) ->
  exists value rank suit,
    parse [token]
    = Normal [Obj [("id", Num NaN); ("value", value); ("rank", rank);
                   ("suit", suit)]%string].
Proof.
  intros Hsplit Hid.
  assert (HNaN : parseInt idPart = NaN).
  { destruct Hid as [-> | (c & s & -> & Hws & Hm & Hp & Hd)];
      [reflexivity | now apply parseInt_NaN]. }
  unfold parse, map_throwing, parse_card. rewrite Hsplit.
  cbn [lookup list_lookup mbind Completion_bind default from_option id].
  rewrite HNaN. eexists _, _, _. reflexivity.
Qed.

Lemma parse_id_NaN_witness :
  exists value rank suit,
    parse ["x7#AS"%string]
    = Normal [Obj [("id", Num NaN); ("value", value); ("rank", rank);
                   ("suit", suit)]%string].
Proof.
  apply (parse_id_NaN "x7#AS" "x7" "AS" []); [reflexivity|].
  right. exists "x"%char, "7"%string.
  split_and!; [reflexivity | reflexivity | discriminate | discriminate
              | reflexivity].
Defined.

(** An id part that goes on after its digits is accepted too: the id is the
    number the leading digits write (an integer up to 2^53, which a
    [number] holds as it is), and the rest is ignored (unless the digits
    are a lone [0] followed by [x] or [X], which starts a hexadecimal
    number). *)
Theorem parse_id_leading_digits (token cardPart tail : string)
    (rest : list string) (n : N) :
  (n <= 2 ^ 53)%N ->
  split "#" token = (digits n +:+ tail) :: cardPart :: rest ->
  (forall c r, tail = String c r -> digit_value 10 c = None) ->
  (n = 0%N -> forall r, tail <> String "x" r /\ tail <> String "X" r) ->
  exists value rank suit,
    parse [token]
    = Normal [Obj [("id", Num (Int (Z.of_N n))); ("value", value);
                   ("rank", rank); ("suit", suit)]%string].
Proof.
  intros _ Hsplit Htail Hx.
  unfold parse, map_throwing, parse_card. rewrite Hsplit.
  cbn [lookup list_lookup mbind Completion_bind default from_option id].
  rewrite (parseInt_digits_then n tail Htail Hx). eexists _, _, _. reflexivity.
Qed.

Lemma parse_id_leading_digits_witness :
  exists value rank suit,
    parse ["12abc#AS"%string]
    = Normal [Obj [("id", Num (Int 12)); ("value", value); ("rank", rank);
                   ("suit", suit)]%string].
Proof.
  apply (parse_id_leading_digits "12abc#AS" "AS" "abc" [] 12).
  - vm_compute. discriminate.
  - reflexivity.
  - intros c r [= <- <-]. reflexivity.
  - discriminate.
Defined.

(** ** More on the round trip *)

Lemma occurrences_append (c : ascii) (s1 s2 : string) :
  occurrences c (s1 +:+ s2) = (occurrences c s1 + occurrences c s2)%nat.
Proof.
  induction s1 as [|c1 s1 IH]; [reflexivity|].
  rewrite append_String. cbn [occurrences]. rewrite IH.
  now destruct (Ascii.eqb c1 c).
Qed.

Lemma split_first_part (sep : ascii) (s rest : string) :
  occurrences sep s = 0%nat ->
  split sep (s +:+ String sep rest) = s :: split sep rest.
Proof.
  induction s as [|c s IH]; intros H.
  - change (EmptyString +:+ String sep rest) with (String sep rest).
    cbn [split]. now rewrite Ascii.eqb_refl.
  - rewrite append_String. cbn [split occurrences] in *.
    destruct (Ascii.eqb c sep); [discriminate|]. now rewrite IH.
Qed.

Lemma occurrences_string_of_uint (u : Decimal.uint) :
  occurrences "#" (NilEmpty.string_of_uint u) = 0%nat.
Proof. induction u; cbn [NilEmpty.string_of_uint occurrences]; auto. Qed.

Lemma occurrences_strip_trailing_zeros (c : ascii) (s : string) :
  occurrences c s = 0%nat -> occurrences c (strip_trailing_zeros s) = 0%nat.
Proof.
  induction s as [|c' s IH]; [reflexivity|]. cbn [occurrences].
  destruct (Ascii.eqb c' c) eqn:E; [discriminate|]. intros H.
  specialize (IH H). cbn [strip_trailing_zeros].
  destruct (strip_trailing_zeros s) as [|c2 s2].
  - destruct (Ascii.eqb c' "0"); cbn [occurrences]; now rewrite ?E.
  - cbn [occurrences] in *. now rewrite E.
Qed.

(** The sign of an id: a negative one is written with [-] and read back. *)
Lemma parseInt_negative (p : positive) :
  parseInt (String "-" (digits (N.pos p))) = Int (Z.neg p).
Proof.
  unfold digits. cbn [N.to_uint].
  pose proof (parse_digits_start (Pos.to_uint p)
                (DecimalPos.Unsigned.to_uint_nonnil p)) as Hd.
  change (Pos.of_uint (Pos.to_uint p)) with (N.of_uint (N.to_uint (N.pos p)))
    in Hd.
  rewrite DecimalN.Unsigned.of_to in Hd.
  pose proof (to_uint_head p) as Hhead.
  destruct (Pos.to_uint p) as [|u|u|u|u|u|u|u|u|u|u];
    [discriminate | now destruct (Hhead u) | ..];
    unfold parseInt; cbn [NilEmpty.string_of_uint trim_start] in *;
    change (is_whitespace _) with false; cbv iota beta;
    rewrite Hd; reflexivity.
Qed.

Lemma parse_card_stringify_card_negative (card : Card.t) :
  - 10 ^ 21 < Card.id card < 0 ->
  In (Card.value card) CARDS -> rank_consistent card ->
  In (Card.suit card) SUITS ->
  parse_card (stringify_card card) = Normal (Card_object card).
Proof.
  intros Hid Hv Hr Hs.
  destruct card as [id v rank s]. cbn [Card.id Card.value Card.suit] in *.
  unfold rank_consistent in Hr. cbn [Card.rank Card.value] in Hr.
  destruct id as [|p|p]; try lia.
  assert (Hstr : Number_toString (Int (Z.neg p))
                 = String "-" (digits (N.pos p))).
  { unfold Number_toString.
    change (Z.to_N (Z.abs (Z.neg p))) with (N.pos p).
    change (Z.neg p <? 0) with true. cbv iota.
    destruct (N.ltb_spec (N.pos p) (10 ^ 21)) as [|Hge];
      [now rewrite append_String|].
    exfalso. apply N2Z.inj_le in Hge.
    change (Z.of_N (10 ^ 21)) with (10 ^ 21) in Hge. cbn in Hge. lia. }
  rewrite (parse_card_parts _ (String "-" (digits (N.pos p))) v s);
    try assumption.
  - rewrite parseInt_negative. unfold Card_object.
    cbn [Card.id Card.value Card.rank Card.suit]. now rewrite Hr.
  - unfold stringify_card. cbn [Card.id Card.value Card.suit].
    rewrite Hstr.
    change ("#" +:+ v +:+ Suit.value s)
      with (String "#" (v +:+ Suit.value s)).
    rewrite split_first_part.
    + f_equal. cbn in Hv, Hs.
      repeat (destruct Hv as [<- | Hv]);
        try (repeat (destruct Hs as [<- | Hs]); try reflexivity; destruct Hs).
      destruct Hv.
    + cbn [occurrences]. change (Ascii.eqb "-" "#") with false.
      apply occurrences_string_of_uint.
Qed.

(** The round trip of C1 does not need the id to be non-negative: it holds
    for every integer id between -10^21 and 10^21. *)
Theorem parse_stringify_signed (cards : list Card.t) :
  Forall (fun card =>
            - 10 ^ 21 < Card.id card < 10 ^ 21
            /\ In (Card.value card) CARDS
            /\ rank_consistent card
            /\ In (Card.suit card) SUITS) cards ->
  parse (stringify cards) = Normal (map Card_object cards).
Proof.
  unfold parse, stringify.
  induction cards as [|card cards IH]; intros Hall; [reflexivity|].
  apply Forall_cons in Hall as [(Hid & Hv & Hr & Hs) Hall].
  cbn [map map_throwing].
  assert (Hcard : parse_card (stringify_card card)
                  = Normal (Card_object card)).
  { destruct (Z.lt_ge_cases (Card.id card) 0).
    - apply parse_card_stringify_card_negative; [lia | assumption ..].
    - apply parse_card_stringify_card; [|lia].
      unfold valid_card. split_and!; [lia | assumption ..]. }
  rewrite Hcard. cbn [mbind Completion_bind]. now rewrite IH.
Qed.

Lemma parse_stringify_signed_witness :
  parse (stringify [Card.mk (-5) "10" 9 (Suit.mk "H" "red" "♥")])
  = Normal (map Card_object [Card.mk (-5) "10" 9 (Suit.mk "H" "red" "♥")]).
Proof.
  apply parse_stringify_signed.
  apply Forall_cons_2; [|apply Forall_nil_2].
  cbn [Card.id Card.value Card.suit].
  split_and!; [lia | lia | in_catalog | reflexivity | in_catalog].
Defined.

(** The shape of exponent notation: one digit from 1 to 9, then a [.] or an
    [e]; no [#] in it. *)
Lemma exponential_shape (p : positive) :
  exists (k : N) (tail : string),
    (1 <= k <= 9)%N
    /\ exponential (N.pos p) = digits k +:+ tail
    /\ (forall c r, tail = String c r -> digit_value 10 c = None)
    /\ occurrences "#" (exponential (N.pos p)) = 0%nat.
Proof.
  unfold exponential.
  change (digits (N.pos p)) with (NilEmpty.string_of_uint (Pos.to_uint p)).
  pose proof (DecimalPos.Unsigned.to_uint_nonnil p) as Hnil.
  pose proof (to_uint_head p) as Hhead.
  assert (Hocc : forall u,
             occurrences "#"
               (match strip_trailing_zeros (NilEmpty.string_of_uint u) with
                | EmptyString => EmptyString
                | String _ _ =>
                    "." +:+ strip_trailing_zeros (NilEmpty.string_of_uint u)
                end +:+ "e+"
                +:+ digits (N.of_nat
                              (String.length (NilEmpty.string_of_uint u))))
             = 0%nat).
  { intros u. rewrite occurrences_append.
    pose proof (occurrences_strip_trailing_zeros "#" _
                  (occurrences_string_of_uint u)) as H.
    replace (occurrences "#" ("e+" +:+ _)) with 0%nat
      by (symmetry; apply occurrences_string_of_uint).
    destruct (strip_trailing_zeros (NilEmpty.string_of_uint u));
      [reflexivity|].
    rewrite append_String. cbn [occurrences].
    change (Ascii.eqb "." "#") with false. cbv iota.
    change (EmptyString +:+ String a s) with (String a s). now rewrite H. }
  assert (Htail : forall u c r,
             match strip_trailing_zeros (NilEmpty.string_of_uint u) with
             | EmptyString => EmptyString
             | String _ _ =>
                 "." +:+ strip_trailing_zeros (NilEmpty.string_of_uint u)
             end +:+ "e+"
             +:+ digits (N.of_nat
                           (String.length (NilEmpty.string_of_uint u)))
             = String c r -> digit_value 10 c = None).
  { intros u c r.
    destruct (strip_trailing_zeros (NilEmpty.string_of_uint u));
      intros [= <- _]; reflexivity. }
  destruct (Pos.to_uint p) as [|u|u|u|u|u|u|u|u|u|u];
    [now destruct Hnil | now destruct (Hhead u) | ..];
    cbn [NilEmpty.string_of_uint];
    [exists 1%N | exists 2%N | exists 3%N | exists 4%N | exists 5%N
     | exists 6%N | exists 7%N | exists 8%N | exists 9%N];
    eexists; (split; [lia|]);
    (split; [reflexivity|]); (split; [apply Htail | exact (Hocc u)]).
Qed.

(** Above the range of C1 the round trip always fails: a valid card whose id
    is 10^21 or more is written in exponent notation, and what is read back
    as its id is the single leading digit. *)
Theorem parse_stringify_exponent (card : Card.t) :
  valid_card card -> 10 ^ 21 <= Card.id card ->
  exists k : Z,
    1 <= k <= 9
    /\ parse (stringify [card])
       = Normal [Card_object (Card.mk k (Card.value card) (Card.rank card)
                                (Card.suit card))].
Proof.
  intros (_ & Hv & Hr & Hs) Hid.
  destruct card as [id v rank s]. cbn [Card.id Card.value Card.suit] in *.
  unfold rank_consistent in Hr. cbn [Card.rank Card.value] in Hr.
  destruct id as [|p|p]; try lia.
  destruct (exponential_shape p) as (k & tail & Hk & Hexp & Htail & Hocc).
  exists (Z.of_N k). split; [lia|].
  assert (Hstr : Number_toString (Int (Z.pos p)) = exponential (N.pos p)).
  { unfold Number_toString.
    change (Z.to_N (Z.abs (Z.pos p))) with (N.pos p).
    change (Z.pos p <? 0) with false. cbv iota.
    destruct (N.ltb_spec (N.pos p) (10 ^ 21)) as [Hlt|]; [|reflexivity].
    exfalso. apply N2Z.inj_lt in Hlt.
    change (Z.of_N (10 ^ 21)) with (10 ^ 21) in Hlt. cbn in Hlt. lia. }
  unfold parse, stringify. cbn [map map_throwing].
  rewrite (parse_card_parts _ (exponential (N.pos p)) v s); try assumption.
  - cbn [mbind Completion_bind]. rewrite Hexp.
    rewrite parseInt_digits_then; [|assumption|lia].
    unfold Card_object. cbn [Card.id Card.value Card.rank Card.suit].
    now rewrite Hr.
  - unfold stringify_card. cbn [Card.id Card.value Card.suit].
    rewrite Hstr.
    change ("#" +:+ v +:+ Suit.value s)
      with (String "#" (v +:+ Suit.value s)).
    rewrite split_first_part by assumption.
    f_equal. cbn in Hv, Hs.
    repeat (destruct Hv as [<- | Hv]);
      try (repeat (destruct Hs as [<- | Hs]); try reflexivity; destruct Hs).
    destruct Hv.
Qed.

Lemma parse_stringify_exponent_witness :
  exists k : Z,
    1 <= k <= 9
    /\ parse (stringify [Card.mk (25 * 10 ^ 20) "7" 6 (Suit.mk "D" "red" "♦")])
       = Normal [Card_object (Card.mk k "7" 6 (Suit.mk "D" "red" "♦"))].
Proof.
  apply (parse_stringify_exponent
           (Card.mk (25 * 10 ^ 20) "7" 6 (Suit.mk "D" "red" "♦"))).
  - unfold valid_card. cbn [Card.id Card.value Card.suit].
    split_and!; [lia | in_catalog | reflexivity | in_catalog].
  - cbn [Card.id]. lia.
Defined.

(** ** Tokens identify cards *)

Lemma Card_object_inj (c1 c2 : Card.t) :
  Card_object c1 = Card_object c2 -> c1 = c2.
Proof.
  destruct c1 as [i1 v1 r1 [a1 b1 u1]], c2 as [i2 v2 r2 [a2 b2 u2]].
  unfold Card_object, Suit_object.
  cbn [Card.id Card.value Card.rank Card.suit Suit.value Suit.color Suit.utf].
  now intros [= -> -> -> -> -> ->].
Qed.

(** Two valid cards with ids below 10^21 that are written as the same token
    are the same card: id, label, rank and suit. *)
Theorem stringify_card_inj (c1 c2 : Card.t) :
  valid_card c1 -> Card.id c1 < 10 ^ 21 ->
  valid_card c2 -> Card.id c2 < 10 ^ 21 ->
  stringify_card c1 = stringify_card c2 -> c1 = c2.
Proof.
  intros H1 Hid1 H2 Hid2 E.
  apply Card_object_inj.
  pose proof (parse_card_stringify_card c1 H1 Hid1) as P1.
  pose proof (parse_card_stringify_card c2 H2 Hid2) as P2.
  rewrite E in P1. congruence.
Qed.

Lemma stringify_card_inj_witness :
  Card.mk 7 "10" 9 (Suit.mk "H" "red" "♥")
  = Card.mk 7 "10" 9 (Suit.mk "H" "red" "♥").
Proof.
  apply stringify_card_inj; try reflexivity;
    unfold valid_card; cbn [Card.id Card.value Card.suit];
    split_and!; first [lia | reflexivity | in_catalog].
Defined.

Section DeckTokens.

Variable draw : nat -> list nat.
Hypothesis draw_Permutation : forall n, Permutation (draw n) (seq 0 n).



End DeckTokens.


(** ** The text of a card *)

Lemma string_of_uint_head (u : Decimal.uint) (c : ascii) (s : string) :
  NilEmpty.string_of_uint u = String c s -> digit_value 10 c <> None.
Proof.
  destruct u; cbn [NilEmpty.string_of_uint]; intros [= <- _]; discriminate.
Qed.

Lemma includes_indices (n : nat) (c : ascii) (s : string) :
  digit_value 10 c = None ->
  includes (map (fun k => digits (N.of_nat k)) (seq 0 n)) (String c s) = false.
Proof.
  intros Hc. destruct (includes _ _) eqn:E; [|reflexivity].
  apply includes_In, in_map_iff in E as (k & E & _).
  now apply string_of_uint_head in E.
Qed.

(** What the four functions do with a value that is no object:
    [undefined] and [null] make each of them throw a [TypeError]; a number
    or a string, whatever its characters, is no valid card and has the empty
    text. *)
Theorem text_of_primitive (n : number) (s : string) :
  (forall v, v = Undefined \/ v = Null ->
     validate v = Throw TypeError /\ getCardText v = Throw TypeError
     /\ getSuitText v = Throw TypeError
     /\ getCardDescription v = Throw TypeError)
  /\ (forall v, v = Num n \/ v = Str s ->
        validate v = Normal false /\ getCardText v = Normal (Str "")
        /\ getSuitText v = Normal (Str "")
        /\ getCardDescription v = Normal (Str "")).
Proof.
  split; intros v [-> | ->]; try (split_and!; reflexivity).
  assert (H : validate (Str s) = Normal false).
  { unfold validate. cbn [Object_keys mbind Completion_bind].
    now rewrite (includes_indices _ "i" "d"). }
  unfold getCardText, getSuitText, getCardDescription. rewrite H.
  split_and!; reflexivity.
Qed.

Lemma text_of_primitive_witness :
  validate Null = Throw TypeError /\ getCardText Null = Throw TypeError
  /\ getSuitText Null = Throw TypeError
  /\ getCardDescription Null = Throw TypeError.
Proof.
  apply (proj1 (text_of_primitive NaN EmptyString) Null). right. reflexivity.
Defined.

Lemma validate_four (a b c d : Value) :
  validate (Obj [("id", a); ("value", b); ("rank", c); ("suit", d)]%string)
  = Normal true.
Proof. reflexivity. Qed.

(** Every label of [CARDS] has an entry in [CARDS_TEXT] and every suit of
    [SUITS] one in [SUITS_TEXT]: for a card with a catalog label and a
    catalog suit, whatever its id and rank, the three functions return the
    two entries and the sentence made of them. *)
Theorem describe_card (card : Card.t) :
  In (Card.value card) CARDS -> In (Card.suit card) SUITS ->
  exists cardText suitText : string,
    assoc (Card.value card) CARDS_TEXT = Some cardText
    /\ assoc (Suit.value (Card.suit card)) SUITS_TEXT = Some suitText
    /\ validate (Card_object card) = Normal true
    /\ getCardText (Card_object card) = Normal (Str cardText)
    /\ getSuitText (Card_object card) = Normal (Str suitText)
    /\ getCardDescription (Card_object card)
       = Normal (Str (cardText +:+ " of " +:+ suitText)).
Proof.
  destruct card as [id v rank s]. cbn [Card.value Card.suit].
  intros Hv Hs. cbn in Hv, Hs.
  repeat (destruct Hv as [<- | Hv]);
    try (repeat (destruct Hs as [<- | Hs]);
         try (eexists _, _; split_and!; reflexivity); destruct Hs).
  destruct Hv.
Qed.

Lemma describe_card_witness :
  exists cardText suitText : string,
    assoc "Q"%string CARDS_TEXT = Some cardText
    /\ assoc "D"%string SUITS_TEXT = Some suitText
    /\ validate (Card_object (Card.mk 99 "Q" 0 (Suit.mk "D" "red" "♦")))
       = Normal true
    /\ getCardText (Card_object (Card.mk 99 "Q" 0 (Suit.mk "D" "red" "♦")))
       = Normal (Str cardText)
    /\ getSuitText (Card_object (Card.mk 99 "Q" 0 (Suit.mk "D" "red" "♦")))
       = Normal (Str suitText)
    /\ getCardDescription
         (Card_object (Card.mk 99 "Q" 0 (Suit.mk "D" "red" "♦")))
       = Normal (Str (cardText +:+ " of " +:+ suitText)).
Proof.
  apply (describe_card (Card.mk 99 "Q" 0 (Suit.mk "D" "red" "♦")));
    in_catalog.
Defined.

(** An object that passes [validate] and holds [undefined] or [null] under
    [suit] has a card text like any other, but asking for its suit text or
    its description throws a [TypeError]. *)
Theorem suit_missing_throws (props : list (string * Value)) :
  validate (Obj props) = Normal true ->
  assoc "suit" props = Some Undefined \/ assoc "suit" props = Some Null ->
  getSuitText (Obj props) = Throw TypeError
  /\ getCardDescription (Obj props) = Throw TypeError
  /\ getCardText (Obj props)
     = table_lookup CARDS_TEXT (default Undefined (assoc "value" props)).
Proof.
  intros Hvalid Hsuit.
  assert (Hs : getSuitText (Obj props) = Throw TypeError).
  { unfold getSuitText. rewrite Hvalid.
    cbn [negb mbind Completion_bind get].
    destruct Hsuit as [-> | ->]; reflexivity. }
  split_and!.
  - exact Hs.
  - unfold getCardDescription. rewrite Hvalid, Hs.
    cbn [negb mbind Completion_bind].
    now destruct (getCardText (Obj props)) as [ct | []].
  - unfold getCardText. now rewrite Hvalid.
Qed.

Lemma suit_missing_throws_witness :
  getSuitText (Obj [("id", Num (Int 1)); ("value", Str "A");
                    ("rank", Num (Int 13)); ("suit", Null)]%string)
  = Throw TypeError
  /\ getCardDescription (Obj [("id", Num (Int 1)); ("value", Str "A");
                              ("rank", Num (Int 13)); ("suit", Null)]%string)
     = Throw TypeError
  /\ getCardText (Obj [("id", Num (Int 1)); ("value", Str "A");
                       ("rank", Num (Int 13)); ("suit", Null)]%string)
     = table_lookup CARDS_TEXT
         (default Undefined
            (assoc "value" [("id", Num (Int 1)); ("value", Str "A");
                            ("rank", Num (Int 13)); ("suit", Null)]%string)).
Proof.
  apply suit_missing_throws; [reflexivity | right; reflexivity].
Defined.

Lemma assoc_CARDS_TEXT (k text : string) :
  assoc k CARDS_TEXT = Some text -> In k CARDS.
Proof.
  unfold CARDS_TEXT. cbn [assoc].
  repeat match goal with
         | |- context [String.eqb ?a k] =>
             destruct (String.eqb_spec a k) as [<- | _]; [intros _; in_catalog|]
         end.
  discriminate.
Qed.

(** What [parse] makes of a token, described: a [TypeError] when the suit
    letter is unknown; otherwise the sentence with the text of the suit, in
    which the text of the card is that of its label or, for a label that is
    none, the word [undefined]. *)
Theorem describe_parsed (token : string) (card : Value) :
  parse [token] = Normal [card] ->
  (get card "suit" = Normal Undefined
   /\ getCardDescription card = Throw TypeError)
  \/ (exists (s : Suit.t) (cardText suitText : string),
         In s SUITS
         /\ get card "suit" = Normal (Suit_object s)
         /\ assoc (Suit.value s) SUITS_TEXT = Some suitText
         /\ getCardDescription card
            = Normal (Str (cardText +:+ " of " +:+ suitText))
         /\ (cardText = "undefined"%string
             \/ exists label,
                 In label CARDS /\ get card "value" = Normal (Str label)
                 /\ assoc label CARDS_TEXT = Some cardText)).
Proof.
  unfold parse, map_throwing, parse_card.
  destruct (split "#" token !! 1%nat) as [cardPart|]; [|discriminate].
  cbn [mbind Completion_bind].
  generalize (indexOf CARDS
                (if (String.length cardPart =? 3)%nat then Some "10"%string
                 else char_at cardPart 0) + 1).
  generalize (parseInt (default "undefined"%string (split "#" token !! 0%nat))).
  generalize (if (String.length cardPart =? 3)%nat then Some "10"%string
              else char_at cardPart 0).
  intros value n rank H.
  assert (E : forall a b : Value, Normal [a] = Normal [b] -> a = b)
    by (intros a b; congruence).
  apply E in H. subst card. clear E.
  destruct (find_suit _) as [s|] eqn:Es; cbn [from_option].
  - right. apply find_suit_Some in Es as [Hs _].
    assert (Hst : exists suitText,
               assoc (Suit.value s) SUITS_TEXT = Some suitText
               /\ getSuitText
                    (Obj [("id", Num n); ("value", of_option value);
                          ("rank", Num (Int rank));
                          ("suit", Suit_object s)]%string)
                  = Normal (Str suitText)).
    { cbn in Hs. destruct Hs as [<-|[<-|[<-|[<-|[]]]]];
        eexists; split; reflexivity. }
    destruct Hst as (suitText & Hst & Hget).
    assert (Hct : getCardText
                    (Obj [("id", Num n); ("value", of_option value);
                          ("rank", Num (Int rank));
                          ("suit", Suit_object s)]%string)
                  = Normal (of_option
                              (assoc (default "undefined"%string value)
                                 CARDS_TEXT)))
      by (destruct value; reflexivity).
    exists s, (default "undefined"%string
                 (assoc (default "undefined"%string value) CARDS_TEXT)),
      suitText.
    split_and!; [assumption | reflexivity | assumption | |].
    + unfold getCardDescription. rewrite validate_four, Hct, Hget.
      cbn [negb mbind Completion_bind].
      now destruct (assoc _ CARDS_TEXT).
    + destruct value as [label|]; [|now left].
      cbn [default from_option id].
      destruct (assoc label CARDS_TEXT) as [text|] eqn:Et; [|now left].
      right. exists label. split_and!; [|reflexivity|assumption].
      now apply assoc_CARDS_TEXT in Et.
  - left. split; [reflexivity | destruct value; reflexivity].
Qed.

Lemma describe_parsed_witness :
  (get (Obj [("id", Num (Int 7)); ("value", Str "Z"); ("rank", Num (Int 0));
             ("suit", Suit_object (Suit.mk "H" "red" "♥"))]%string) "suit"
   = Normal Undefined
   /\ getCardDescription
        (Obj [("id", Num (Int 7)); ("value", Str "Z"); ("rank", Num (Int 0));
              ("suit", Suit_object (Suit.mk "H" "red" "♥"))]%string)
      = Throw TypeError)
  \/ (exists (s : Suit.t) (cardText suitText : string),
         In s SUITS
         /\ get (Obj [("id", Num (Int 7)); ("value", Str "Z");
                      ("rank", Num (Int 0));
                      ("suit", Suit_object (Suit.mk "H" "red" "♥"))]%string)
              "suit"
            = Normal (Suit_object s)
         /\ assoc (Suit.value s) SUITS_TEXT = Some suitText
         /\ getCardDescription
              (Obj [("id", Num (Int 7)); ("value", Str "Z");
                    ("rank", Num (Int 0));
                    ("suit", Suit_object (Suit.mk "H" "red" "♥"))]%string)
            = Normal (Str (cardText +:+ " of " +:+ suitText))
         /\ (cardText = "undefined"%string
             \/ exists label,
                 In label CARDS
                 /\ get (Obj [("id", Num (Int 7)); ("value", Str "Z");
                              ("rank", Num (Int 0));
                              ("suit",
                               Suit_object (Suit.mk "H" "red" "♥"))]%string)
                      "value"
                    = Normal (Str label)
                 /\ assoc label CARDS_TEXT = Some cardText)).
Proof.
  apply (describe_parsed "7#ZH"). reflexivity.
Defined.

(** ** Drawing on the store *)

(** Cards and suits are read off objects alone: a heap that has the objects
    of another reads the same cards. *)
Lemma read_suit_objects (h h' : gmap Store.loc Store.cell) (v : Store.val)
    (s : Suit.t) :
  (forall l props, h !! l = Some (Store.CObj props) ->
                   h' !! l = Some (Store.CObj props)) ->
  Store.read_suit h v = Some s -> Store.read_suit h' v = Some s.
Proof.
  intros Hobj. unfold Store.read_suit. destruct v as [| | |l]; try discriminate.
  destruct (h !! l) as [[props|]|] eqn:E; try discriminate.
  now rewrite (Hobj _ _ E).
Qed.

Lemma read_card_objects (h h' : gmap Store.loc Store.cell) (v : Store.val)
    (c : Card.t) :
  (forall l props, h !! l = Some (Store.CObj props) ->
                   h' !! l = Some (Store.CObj props)) ->
  Store.read_card h v = Some c -> Store.read_card h' v = Some c.
Proof.
  intros Hobj. unfold Store.read_card. destruct v as [| | |l]; try discriminate.
  destruct (h !! l) as [[props|]|] eqn:E; try discriminate.
  rewrite (Hobj _ _ E).
  destruct (assoc "id" props) as [[]|]; try discriminate.
  destruct (assoc "value" props) as [[]|]; try discriminate.
  destruct (assoc "rank" props) as [[]|]; try discriminate.
  destruct (assoc "suit" props) as [suit|]; try discriminate.
  destruct (Store.read_suit h suit) as [su|] eqn:Es; [|discriminate].
  now rewrite (read_suit_objects h h' suit su Hobj Es).
Qed.

Lemma read_deck_inv (h : gmap Store.loc Store.cell) (this : Store.loc)
    (d : Deck.t) :
  Store.read_deck h (Store.VRef this) = Some d ->
  exists props deck elems,
    h !! this = Some (Store.CObj props)
    /\ assoc "deck" props = Some (Store.VRef deck)
    /\ assoc "id" props = Some (Store.VNum (Deck.id d))
    /\ h !! deck = Some (Store.CArr elems)
    /\ Forall2 (fun v c => Store.read_card h v = Some c) elems (Deck.deck d).
Proof.
  unfold Store.read_deck, Store.read_array.
  destruct (h !! this) as [[props|]|] eqn:Ht; try discriminate.
  destruct (assoc "deck" props) as [[| | |deck]|] eqn:Hdeck;
    destruct (assoc "id" props) as [[|n| |]|] eqn:Hid; try discriminate.
  destruct (h !! deck) as [[|elems]|] eqn:Hd; try discriminate.
  destruct (mapM _ elems) as [cs|] eqn:Hcs; [|discriminate].
  intros [= <-]. apply mapM_Some in Hcs.
  exists props, deck, elems. auto.
Qed.

Lemma read_deck_intro (h : gmap Store.loc Store.cell) (this deck : Store.loc)
    props elems (cs : list Card.t) (n : Z) :
  h !! this = Some (Store.CObj props) ->
  assoc "deck" props = Some (Store.VRef deck) ->
  assoc "id" props = Some (Store.VNum n) ->
  h !! deck = Some (Store.CArr elems) ->
  Forall2 (fun v c => Store.read_card h v = Some c) elems cs ->
  Store.read_deck h (Store.VRef this) = Some (Deck.mk cs n).
Proof.
  intros Ht Hdeck Hid Hd Hcs. unfold Store.read_deck, Store.read_array.
  rewrite Ht, Hdeck, Hid, Hd. apply mapM_Some in Hcs. now rewrite Hcs.
Qed.


(** [getCards] on the store does what [getCards] on values says.  For an
    instance that reads as the deck [d], the call returns a new array that
    reads as the cards drawn from [d] and leaves the instance reading as
    the rest of [d].  The new array is all that is allocated and no object
    is changed: the cards are handed over, not copied. *)
Theorem getCards_refines (st : Store.store) (this : Store.loc) (d : Deck.t)
    (amount : Z) :
  Store.read_deck (Store.heap st) (Store.VRef this) = Some d ->
  exists r st' cards,
    Store.getCards (Store.VRef this) amount st = Some (Store.VRef r, st')
    /\ (r ∉ dom (Store.heap st))
    /\ fst (getCards amount d) = map Some cards
    /\ Store.read_array (Store.read_card (Store.heap st')) (Store.heap st')
         (Store.VRef r)
       = Some cards
    /\ Store.read_deck (Store.heap st') (Store.VRef this)
       = Some (snd (getCards amount d))
    /\ (forall l props,
          Store.heap st !! l = Some (Store.CObj props) ->
          Store.heap st' !! l = Some (Store.CObj props))
    /\ Store.catalog st' = Store.catalog st
    /\ dom (Store.heap st') = {[r]} ∪ dom (Store.heap st).
Proof.
  intros Hread.
  apply read_deck_inv in Hread as (props & deck & elems & Ht & Hdeck & Hid
                                   & Hd & Hcs).
  destruct (getCards_store st this deck props elems amount Ht Hdeck Hd)
    as (r & st' & Hrun & Hfresh & Hframe & Hcat & Hcase).
  assert (Hobj : forall l p,
             Store.heap st !! l = Some (Store.CObj p) ->
             Store.heap st' !! l = Some (Store.CObj p)).
  { intros l p Hl. rewrite Hframe; [assumption | |].
    - intros ->. rewrite Hd in Hl. discriminate.
    - intros ->. apply Hfresh, elem_of_dom. eauto. }
  assert (Hcs' : Forall2 (fun v c => Store.read_card (Store.heap st') v
                                     = Some c) elems (Deck.deck d)).
  { eapply Forall2_impl; [exact Hcs|]. intros v c.
    now apply read_card_objects. }
  assert (Hdom : is_Some (Store.heap st' !! r) ->
                 is_Some (Store.heap st' !! deck) ->
                 dom (Store.heap st') = {[r]} ∪ dom (Store.heap st)).
  { intros Hr Hd'. apply set_eq. intros l.
    rewrite elem_of_union, elem_of_singleton, !elem_of_dom.
    destruct (decide (l = r)) as [-> | Hlr]; [tauto|].
    destruct (decide (l = deck)) as [-> | Hld].
    - rewrite Hd. split; [intros _; right; now eexists | now intros _].
    - rewrite (Hframe l Hld Hlr). tauto. }
  pose proof (Forall2_length _ _ _ Hcs) as Hlen.
  rewrite getCards_cases, <- Hlen. cbn zeta in Hcase.
  case_decide as Hguard; destruct Hcase as [Hr Hd']; cbn [fst snd].
  - exists r, st', (take (Z.to_nat amount) (Deck.deck d)).
    split_and!; try assumption; try reflexivity.
    + unfold Store.read_array. rewrite Hr. apply mapM_Some.
      now apply Forall2_take.
    + apply (read_deck_intro _ this deck props
               (drop (Z.to_nat amount) elems)); try assumption.
      * now apply Hobj.
      * now apply Forall2_drop.
    + apply Hdom; eauto.
  - exists r, st', []. split_and!; try assumption; try reflexivity.
    + unfold Store.read_array. now rewrite Hr.
    + destruct d as [cs n]. cbn [Deck.id Deck.deck] in *.
      apply (read_deck_intro _ this deck props elems); try assumption.
      now apply Hobj.
    + apply Hdom; eauto.
Qed.

Lemma getCards_refines_witness :
  let ace := Card.mk 0 "A" 13 (Suit.mk "S" "black" "♠") in
  let king := Card.mk 1 "K" 12 (Suit.mk "S" "black" "♠") in
  let queen := Card.mk 2 "Q" 11 (Suit.mk "S" "black" "♠") in
  let st :=
    Store.mk
      (list_to_map
         [(1%positive, Store.CObj [("deck", Store.VRef 2);
                                   ("id", Store.VNum 3)]%string);
          (2%positive, Store.CArr [Store.VRef 3; Store.VRef 4; Store.VRef 5]);
          (3%positive, Store.card_cell ace 6);
          (4%positive, Store.card_cell king 7);
          (5%positive, Store.card_cell queen 8);
          (6%positive, Store.CObj (Store.suit_props (Card.suit ace)));
          (7%positive, Store.CObj (Store.suit_props (Card.suit king)));
          (8%positive, Store.CObj (Store.suit_props (Card.suit queen)))]) ∅ in
  exists r st',
    Store.getCards (Store.VRef 1) 1 st = Some (Store.VRef r, st')
    /\ Store.read_array (Store.read_card (Store.heap st')) (Store.heap st')
         (Store.VRef r)
       = Some [ace]
    /\ Store.read_deck (Store.heap st') (Store.VRef 1)
       = Some (Deck.mk [king; queen] 3).
Proof.
  intros ace king queen st.
  destruct (getCards_refines st 1 (Deck.mk [ace; king; queen] 3) 1)
    as (r & st' & cards & Hrun & _ & Hfst & Hr & Hd & _ & _ & _).
  - reflexivity.
  - exists r, st'. split_and!; [exact Hrun | | exact Hd].
    cbv in Hfst. destruct cards as [|c [|c' cards]]; try discriminate.
    injection Hfst as <-. exact Hr.
Defined.

(** ** Instances share nothing *)

Section Isolation.

Variable draw : nat -> list nat.
Hypothesis draw_Permutation : forall n, Permutation (draw n) (seq 0 n).


End Isolation.


(** ** Amounts that are no integers *)

Lemma lt_ceiling (i : Z) (q : Q) : (inject_Z i < q)%Q <-> i < Qceiling q.
Proof.
  split; intros H.
  - rewrite Zlt_Qlt. eapply Qlt_le_trans; [exact H | apply Qle_ceiling].
  - assert (H' : i <= Qceiling q - 1) by lia.
    rewrite Zle_Qle in H'.
    eapply Qle_lt_trans; [exact H' | apply Qceiling_lt].
Qed.

Lemma double_lt_Finite (p q : Q) :
  double_lt (Finite p) (Finite q) = true <-> (p < q)%Q.
Proof.
  cbn [double_lt]. rewrite negb_true_iff. split.
  - intros H. apply Qnot_le_lt. intros Hle.
    apply Qle_bool_iff in Hle. congruence.
  - intros H. destruct (Qle_bool q p) eqn:E; [|reflexivity].
    apply Qle_bool_iff in E. now apply Qlt_not_le in H.
Qed.

Lemma guard_Finite (q : Q) (n : nat) :
  double_ge (Finite q) (Finite 1)
  && double_lt (Finite q) (length_minus n (Finite q)) = true
  <-> (1 <= q)%Q /\ (q < inject_Z (Z.of_nat n) - q)%Q.
Proof.
  rewrite andb_true_iff. cbn [double_ge length_minus].
  now rewrite Qle_bool_iff, double_lt_Finite.
Qed.

(** Under the guard the loop makes at least one round and fewer rounds than
    the deck has cards. *)
Lemma rounds_range (q : Q) (n : nat) :
  (1 <= q)%Q -> (q < inject_Z (Z.of_nat n) - q)%Q ->
  1 <= Qceiling q < Z.of_nat n.
Proof.
  intros H1 H2. split.
  - assert (0 < Qceiling q); [|lia]. apply lt_ceiling.
    change (inject_Z 0) with 0%Q. lra.
  - assert (Qceiling q - 1 < Z.of_nat n - 1); [|lia].
    rewrite Zlt_Qlt. pose proof (Qceiling_lt q) as Hc.
    unfold Z.sub at 2. rewrite inject_Z_plus.
    change (inject_Z (- (1))) with (- (1))%Q. lra.
Qed.

(** The loop draws a card for every integer from [i] on that is less than
    the amount, and needs one test more than that. *)
Lemma getCards_for_take (q : Q) (n : nat) :
  forall (i : Z) (deck : list Card.t) removedCards (fuel : nat),
    Qceiling q = i + Z.of_nat n -> (n <= length deck)%nat -> (n < fuel)%nat ->
    getCards_for fuel (Finite q) i deck removedCards
    = Some (removedCards ++ map Some (take n deck), drop n deck).
Proof.
  induction n as [|n IH]; intros i deck removedCards fuel Hc Hlen Hfuel;
    (destruct fuel as [|fuel]; [lia|]); cbn [getCards_for].
  - assert (double_lt (Finite (inject_Z i)) (Finite q) = false) as ->.
    { apply not_true_is_false. rewrite double_lt_Finite, lt_ceiling. lia. }
    now rewrite take_0, drop_0, app_nil_r.
  - assert (double_lt (Finite (inject_Z i)) (Finite q) = true) as ->
      by (rewrite double_lt_Finite, lt_ceiling; lia).
    destruct deck as [|card deck]; [cbn in Hlen; lia|]. cbn [shift].
    rewrite (IH (i + 1)) by (cbn [length] in *; lia).
    cbn [take drop map]. unfold push. now rewrite <- app_assoc.
Qed.

Lemma getCards_number_drawn (q : Q) (this : Deck.t) :
  (1 <= q)%Q ->
  (q < inject_Z (Z.of_nat (length (Deck.deck this))) - q)%Q ->
  getCards_number (Finite q) this
  = Some (map Some (take (Z.to_nat (Qceiling q)) (Deck.deck this)),
          Deck.mk (drop (Z.to_nat (Qceiling q)) (Deck.deck this))
            (Deck.id this)).
Proof.
  intros H1 H2. pose proof (rounds_range q _ H1 H2) as Hr.
  unfold getCards_number.
  rewrite (proj2 (guard_Finite q _) (conj H1 H2)).
  now rewrite (getCards_for_take q (Z.to_nat (Qceiling q))) by lia.
Qed.

Lemma getCards_number_refused (amount : double) (this : Deck.t) :
  (forall q, amount = Finite q ->
             ~ ((1 <= q)%Q
                /\ (q < inject_Z (Z.of_nat (length (Deck.deck this))) - q)%Q)) ->
  getCards_number amount this = Some ([], this).
Proof.
  intros H. unfold getCards_number.
  destruct (double_ge _ _ && double_lt _ _) eqn:E; [|reflexivity].
  destruct amount as [q| | |]; try discriminate E.
  apply guard_Finite in E. now destruct (H q eq_refl).
Qed.

(** [getCards] for every number.  A finite amount that is 1 or more and
    less than what is left after taking it off the length draws the first
    cards of the deck, as many as the amount rounded up to an integer, and
    this is fewer cards than the deck has; any other finite amount, and
    [Infinity], [-Infinity] and [NaN], draw nothing and leave the deck as
    it is.  The call returns in every case. *)
Theorem getCards_number_spec (this : Deck.t) :
  (forall q : Q,
      (1 <= q)%Q ->
      (q < inject_Z (Z.of_nat (length (Deck.deck this))) - q)%Q ->
      getCards_number (Finite q) this
      = Some (map Some (take (Z.to_nat (Qceiling q)) (Deck.deck this)),
              Deck.mk (drop (Z.to_nat (Qceiling q)) (Deck.deck this))
                (Deck.id this))
      /\ (1 <= Z.to_nat (Qceiling q) < length (Deck.deck this))%nat)
  /\ (forall q : Q,
        ~ ((1 <= q)%Q
           /\ (q < inject_Z (Z.of_nat (length (Deck.deck this))) - q)%Q) ->
        getCards_number (Finite q) this = Some ([], this))
  /\ getCards_number PlusInfinity this = Some ([], this)
  /\ getCards_number MinusInfinity this = Some ([], this)
  /\ getCards_number NotANumber this = Some ([], this).
Proof.
  split_and!; try reflexivity.
  - intros q H1 H2. split; [now apply getCards_number_drawn|].
    pose proof (rounds_range q _ H1 H2). lia.
  - intros q H. apply getCards_number_refused. now intros ? [= <-].
Qed.

Lemma getCards_number_spec_witness :
  getCards_number (Finite (5 # 2))
    (Deck.mk [Card.mk 0 "2" 1 (Suit.mk "S" "black" "♠");
              Card.mk 1 "3" 2 (Suit.mk "S" "black" "♠");
              Card.mk 2 "4" 3 (Suit.mk "S" "black" "♠");
              Card.mk 3 "5" 4 (Suit.mk "S" "black" "♠");
              Card.mk 4 "6" 5 (Suit.mk "S" "black" "♠");
              Card.mk 5 "7" 6 (Suit.mk "S" "black" "♠")] 6)
  = Some ([Some (Card.mk 0 "2" 1 (Suit.mk "S" "black" "♠"));
           Some (Card.mk 1 "3" 2 (Suit.mk "S" "black" "♠"));
           Some (Card.mk 2 "4" 3 (Suit.mk "S" "black" "♠"))],
          Deck.mk [Card.mk 3 "5" 4 (Suit.mk "S" "black" "♠");
                   Card.mk 4 "6" 5 (Suit.mk "S" "black" "♠");
                   Card.mk 5 "7" 6 (Suit.mk "S" "black" "♠")] 6).
Proof.
  refine (proj1 (proj1 (getCards_number_spec _) (5 # 2) _ _)).
  - vm_compute. discriminate.
  - reflexivity.
Defined.

(** On an integer amount the function for numbers is the function for
    integers. *)
Theorem getCards_number_integer (amount : Z) (this : Deck.t) :
  getCards_number (Finite (inject_Z amount)) this
  = Some (getCards amount this).
Proof.
  rewrite getCards_cases. case_decide as H.
  - rewrite getCards_number_drawn, Qceiling_Z; [reflexivity | |].
    + change 1%Q with (inject_Z 1). rewrite <- Zle_Qle. lia.
    + apply (Qplus_lt_l _ _ (inject_Z amount)).
      rewrite <- inject_Z_plus. ring_simplify.
      rewrite <- Zlt_Qlt. lia.
  - apply getCards_number_refused. intros q [= <-] [H1 H2]. apply H.
    change 1%Q with (inject_Z 1) in H1. rewrite <- Zle_Qle in H1.
    split; [assumption|].
    apply (Qplus_lt_l _ _ (inject_Z amount)) in H2.
    rewrite <- inject_Z_plus in H2. ring_simplify in H2.
    rewrite <- Zlt_Qlt in H2. lia.
Qed.

Lemma getCards_number_tail (amount : double) (this : Deck.t) :
  exists k : nat,
    getCards_number amount this
    = Some (map Some (take k (Deck.deck this)),
            Deck.mk (drop k (Deck.deck this)) (Deck.id this))
    /\ (k = 0%nat \/ (1 <= k < length (Deck.deck this))%nat).
Proof.
  assert (Hno : getCards_number amount this = Some ([], this) ->
                exists k : nat,
                  getCards_number amount this
                  = Some (map Some (take k (Deck.deck this)),
                          Deck.mk (drop k (Deck.deck this)) (Deck.id this))
                  /\ (k = 0%nat \/ (1 <= k < length (Deck.deck this))%nat)).
  { intros ->. exists 0%nat. rewrite take_0, drop_0.
    destruct this. split; [reflexivity | now left]. }
  destruct amount as [q| | |]; try (apply Hno; reflexivity).
  destruct (Qlt_le_dec q 1) as [Hlt | H1].
  { apply Hno, getCards_number_refused. intros ? [= <-] [H _].
    now apply Qlt_not_le in Hlt. }
  destruct (Qlt_le_dec q (inject_Z (Z.of_nat (length (Deck.deck this))) - q))
    as [H2 | Hge].
  - exists (Z.to_nat (Qceiling q)).
    split; [now apply getCards_number_drawn|].
    right. pose proof (rounds_range q _ H1 H2). lia.
  - apply Hno, getCards_number_refused. intros ? [= <-] [_ H].
    now apply Qlt_not_le in H.
Qed.

Section LifeOfNumbers.

Variable draw : nat -> list nat.
Hypothesis draw_Permutation : forall n, Permutation (draw n) (seq 0 n).

(** Whatever numbers the amounts are, what is left of a new deck after any
    draws is a tail of the deck as it was constructed, with at least one
    card: the deck is never emptied, and no draw ever takes [undefined] from
    an empty deck.  The cards left are valid, their ids are pairwise
    distinct, and the counter stays at 52.  One card is the least: a deck of
    three is left with one by a draw of 1.25, which takes two. *)
Theorem reachable_number_tail :
  (forall this : Deck.t,
      reachable_number draw this ->
      exists (preShuffle : bool) (k : nat),
        Deck.deck this = drop k (Deck.deck (constructor draw preShuffle))
        /\ (1 <= length (Deck.deck this) <= 52)%nat
        /\ Forall valid_card (Deck.deck this)
        /\ NoDup (map Card.id (Deck.deck this))
        /\ Deck.id this = 52)
  /\ (forall (amount : double) (this this' : Deck.t) removedCards,
        reachable_number draw this ->
        getCards_number amount this = Some (removedCards, this') ->
        ~ In None removedCards)
  /\ exists this : Deck.t,
       reachable_number draw this /\ length (Deck.deck this) = 1%nat.
Proof.
  assert (Hnew : forall b,
             length (Deck.deck (constructor draw b)) = 52%nat
             /\ Forall valid_card (Deck.deck (constructor draw b))
             /\ NoDup (map Card.id (Deck.deck (constructor draw b)))
             /\ Deck.id (constructor draw b) = 52).
  { intros b.
    pose proof (constructor_Permutation draw draw_Permutation b) as HP.
    split_and!.
    - rewrite <- (Permutation_length HP). apply fill_length.
    - rewrite <- HP. apply fill_valid.
    - rewrite <- (Permutation_map Card.id HP), fill_ids.
      apply (NoDup_fmap_2 _), NoDup_seq.
    - unfold constructor. destruct b; reflexivity. }
  split_and!.
  - induction 1 as [b | amount this this' removedCards _
                        (b & k & Hk & Hlen & Hvalid & Hnd & Hid) Hrun].
    + destruct (Hnew b) as (Hlen & Hvalid & Hnd & Hid).
      exists b, 0%nat. rewrite drop_0, Hlen.
      split; [|split; [|split; [|split]]]; auto; lia.
    + destruct (getCards_number_tail amount this) as (j & Hj & Hsmall).
      rewrite Hj in Hrun. injection Hrun as _ <-. cbn [Deck.deck Deck.id].
      exists b, (k + j)%nat. split; [|split; [|split; [|split]]].
      * now rewrite Hk, drop_drop.
      * rewrite length_drop. lia.
      * now apply Forall_drop.
      * change (map Card.id) with (fmap (M := list) Card.id) in Hnd |- *.
        rewrite fmap_drop.
        rewrite <- (take_drop j (Card.id <$> Deck.deck this)) in Hnd.
        now apply NoDup_app in Hnd as (_ & _ & Hnd).
      * exact Hid.
  - intros amount this this' removedCards _ Hrun.
    destruct (getCards_number_tail amount this) as (j & Hj & _).
    rewrite Hj in Hrun. injection Hrun as <- _.
    rewrite in_map_iff. now intros (c & [=] & _).
  - exists (Deck.mk (drop 51 (Deck.deck (constructor draw false))) 52).
    split; [|reflexivity].
    assert (Hstep : forall (q : Q) (n m : nat),
               Z.to_nat (Qceiling q) = m -> (1 <= q)%Q ->
               (q < inject_Z (Z.of_nat (52 - n)) - q)%Q ->
               reachable_number draw
                 (Deck.mk (drop n (Deck.deck (constructor draw false))) 52) ->
               reachable_number draw
                 (Deck.mk (drop (n + m) (Deck.deck (constructor draw false)))
                    52)).
    { intros q n m <- H1 H2 Hr.
      eapply (reachable_number_getCards draw (Finite q)); [exact Hr|].
      rewrite getCards_number_drawn; cbn [Deck.deck Deck.id].
      - rewrite drop_drop. reflexivity.
      - assumption.
      - rewrite length_drop.
        replace (length (Deck.deck (constructor draw false))) with 52%nat
          by (symmetry; apply (Hnew false)).
        assumption. }
    apply (Hstep (5 # 4) 49%nat 2%nat);
      [reflexivity | vm_compute; discriminate | reflexivity | ].
    apply (Hstep 2%Q 47%nat 2%nat);
      [reflexivity | vm_compute; discriminate | reflexivity | ].
    apply (Hstep 3%Q 44%nat 3%nat);
      [reflexivity | vm_compute; discriminate | reflexivity | ].
    apply (Hstep 6%Q 38%nat 6%nat);
      [reflexivity | vm_compute; discriminate | reflexivity | ].
    apply (Hstep 13%Q 25%nat 13%nat);
      [reflexivity | vm_compute; discriminate | reflexivity | ].
    apply (Hstep 25%Q 0%nat 25%nat);
      [reflexivity | vm_compute; discriminate | reflexivity | ].
    replace (Deck.mk (drop 0 (Deck.deck (constructor draw false))) 52)
      with (constructor draw false); [apply reachable_number_new|].
    destruct (Hnew false) as (_ & _ & _ & Hid). revert Hid.
    destruct (constructor draw false) as [deck id0].
    cbn [Deck.deck Deck.id]. intros ->. now rewrite drop_0.
Qed.

End LifeOfNumbers.

Lemma reachable_number_tail_witness :
  exists this : Deck.t,
    reachable_number (fun n => rev (seq 0 n)) this
    /\ length (Deck.deck this) = 1%nat.
Proof.
  exact (proj2 (proj2 (reachable_number_tail (fun n => rev (seq 0 n))
                         reversed_Permutation))).
Defined.

